(** * CJT Helper auto-update native-messaging host: a shallow embedding

    The development follows [cjt_helper_update.py].  Python functions are
    embedded under their own names.  Code that talks to the operating system
    (files, network, threads, standard streams) is written in a small free
    monad of effects with exceptions, so that [try]/[except]/[finally] and
    the interleaving of the session loop with the update thread can both be
    given a meaning.

    Conventions.
    - Python [str] is [string]; [bytes] is [list byte].
    - Python integers are [Z].
    - [os.path] is [posixpath] (the host lives under [~/.cjt-helper]). *)

From Stdlib Require Import ZArith Lia Ascii String List.
From Stdlib.Strings Require Import Byte.
From stdpp Require Import base option list gmap strings pretty relations sorting.

Local Open Scope string_scope.
Local Open Scope Z_scope.

(** ** Python strings *)

Module Py.

(** [s.split(sep)] for a one-character separator. *)
Fixpoint split (sep : ascii) (s : string) : list string :=
  match s with
  | EmptyString => [""]
  | String a s' =>
      if Ascii.eqb a sep then "" :: split sep s'
      else match split sep s' with
           | h :: t => String a h :: t
           | [] => [String a ""]
           end
  end.

(** [sep.join(parts)]. *)
Fixpoint join (sep : string) (parts : list string) : string :=
  match parts with
  | [] => ""
  | [p] => p
  | p :: ps => p ++ sep ++ join sep ps
  end.

Definition startswith (s pre : string) : bool := String.prefix pre s.

Fixpoint endswith_char (s : string) (c : ascii) : bool :=
  match s with
  | EmptyString => false
  | String a EmptyString => Ascii.eqb a c
  | String _ s' => endswith_char s' c
  end.

(** [c.lower()] on the ASCII letters.  The only use in the program compares
    the result with the ASCII literal ['cjt-helper']. *)
Definition lower_char (c : ascii) : ascii :=
  let n := nat_of_ascii c in
  if (Nat.leb 65 n && Nat.leb n 90)%bool then ascii_of_nat (n + 32)%nat else c.

Fixpoint lower (s : string) : string :=
  match s with
  | EmptyString => EmptyString
  | String a s' => String (lower_char a) (lower s')
  end.

(** Truthiness of a string: [if s:]. *)
Definition truthy (s : string) : bool :=
  match s with EmptyString => false | _ => true end.

(** Whether [s.encode('utf-8')] succeeds: it raises [UnicodeEncodeError]
    for a string that holds a lone surrogate.  A Python string is modelled
    by its UTF-8 bytes, and a lone surrogate by the three bytes [ED A0..BF
    xx] that the [surrogatepass] handler gives it. *)
Fixpoint encodable (s : string) : bool :=
  match s with
  | EmptyString => true
  | String a s' =>
      match s' with
      | String b _ =>
          negb (Nat.eqb (nat_of_ascii a) 237
                && Nat.leb 160 (nat_of_ascii b) && Nat.leb (nat_of_ascii b) 191)
          && encodable s'
      | EmptyString => true
      end
  end.

End Py.

(** ** [posixpath] *)

Module PosixPath.

Definition sep : ascii := "/"%char.

(** [os.path.join(a, b)]. *)
Definition join (a b : string) : string :=
  if Py.startswith b "/" then b
  else if (negb (Py.truthy a) || Py.endswith_char a sep)%bool then a ++ b
  else a ++ "/" ++ b.

(** [os.path.basename(p)]: what follows the last slash. *)
Definition basename (p : string) : string :=
  List.last (Py.split sep p) "".

(** The loop of [normpath] over the components, [new_comps] kept reversed. *)
Fixpoint norm_comps (rooted : bool) (comps : list string) (acc : list string)
  : list string :=
  match comps with
  | [] => rev acc
  | c :: cs =>
      if (String.eqb c "" || String.eqb c ".")%bool then norm_comps rooted cs acc
      else if negb (String.eqb c "..") then norm_comps rooted cs (c :: acc)
      else match acc with
           | [] => if rooted then norm_comps rooted cs acc
                   else norm_comps rooted cs (c :: acc)
           | top :: rest =>
               if String.eqb top ".." then norm_comps rooted cs (c :: acc)
               else norm_comps rooted cs rest
           end
  end.

(** [os.path.normpath(path)]. *)
Definition normpath (path : string) : string :=
  if negb (Py.truthy path) then "."
  else
    let slashes :=
      if Py.startswith path "/" then
        if (Py.startswith path "//" && negb (Py.startswith path "///"))%bool
        then "//" else "/"
      else "" in
    let comps := norm_comps (Py.truthy slashes) (Py.split sep path) [] in
    let p := slashes ++ Py.join "/" comps in
    if Py.truthy p then p else ".".

(** Components kept by [commonpath]: empty and [.] components are dropped. *)
Definition clean_comps (p : string) : list string :=
  filter (λ c, c ≠ "" ∧ c ≠ ".") (Py.split sep p).

Fixpoint common_prefix (s1 s2 : list string) : list string :=
  match s1, s2 with
  | a :: s1', b :: s2' => if String.eqb a b then a :: common_prefix s1' s2' else []
  | _, _ => []
  end.

(** [os.path.commonpath([p1, p2])]; [None] is the [ValueError] raised when an
    absolute path is mixed with a relative one.  (The library walks the
    smaller of the two component lists against the larger one; what it
    returns is their longest common prefix.) *)
Definition commonpath (p1 p2 : string) : option string :=
  let abs1 := Py.startswith p1 "/" in
  let abs2 := Py.startswith p2 "/" in
  if negb (Bool.eqb abs1 abs2) then None
  else
    let common := common_prefix (clean_comps p1) (clean_comps p2) in
    Some ((if abs1 then "/" else "") ++ Py.join "/" common).


(** A string without the separator is a single component. *)
Fixpoint plain (s : string) : bool :=
  match s with
  | EmptyString => true
  | String a s' => negb (Ascii.eqb a sep) && plain s'
  end.

(** [root] lies at or above [target] as a path string: component by
    component (empty and [.] components set aside), both absolute or both
    relative.  A [..] component is compared like any other, it is not
    resolved: this is the test [os.path.commonpath] makes, not a statement
    about where the paths lead. *)
Definition nested_under (root target : string) : Prop :=
  Py.startswith target "/" = Py.startswith root "/" ∧
  clean_comps root `prefix_of` clean_comps target.

End PosixPath.

(** ** Python numbers: [int(a / b)]

    The program computes percentages as [int(x * 100 / total)]: a true
    division of two integers, which yields the IEEE-754 binary64 number
    nearest to the quotient (ties to even), followed by truncation.  The
    definitions below compute exactly that on [Z], for [0 <= a] and [0 < b]
    (the only signs the program produces). *)

Module PyFloat.

#[local] Open Scope Z_scope.

(** [a / b >= 2^k], for [0 < a], [0 < b]. *)
Definition quot_ge_pow2 (a b k : Z) : bool :=
  if 0 <=? k then b * 2 ^ k <=? a else b <=? a * 2 ^ (- k).

(** [floor (log2 (a / b))], for [0 < a], [0 < b]. *)
Definition floor_log2_quot (a b : Z) : Z :=
  let d := Z.log2 a - Z.log2 b in
  if quot_ge_pow2 a b d then d else d - 1.

(** Exponent of the unit in the last place of the double nearest to [a / b]
    (53-bit significands; subnormals below [2^-1022]). *)
Definition ulp_exp (a b : Z) : Z := Z.max (floor_log2_quot a b - 52) (- 1074).

(** The integer nearest to [n / d], ties to even; [0 <= n], [0 < d]. *)
Definition round_half_even (n d : Z) : Z :=
  let q := n / d in
  let r := n mod d in
  if 2 * r <? d then q
  else if d <? 2 * r then q + 1
  else if Z.even q then q else q + 1.

(** A finite non-negative double, as significand and exponent: [m * 2^e]. *)
Record float := Float { mant : Z; expo : Z }.

(** [a / b] on Python integers; [None] is [OverflowError]. *)
Definition true_div (a b : Z) : option float :=
  if a =? 0 then Some (Float 0 0)
  else
    let e := ulp_exp a b in
    let m := if 0 <=? e then round_half_even a (b * 2 ^ e)
             else round_half_even (a * 2 ^ (- e)) b in
    if (971 <? e) || ((e =? 971) && (m =? 2 ^ 53)) then None
    else Some (Float m e).

(** [int(x)] for a finite non-negative double. *)
Definition to_int (x : float) : Z :=
  if 0 <=? expo x then mant x * 2 ^ expo x else mant x / 2 ^ (- expo x).

(** [int(a / b)]. *)
Definition int_true_div (a b : Z) : option Z := to_int <$> true_div a b.

(** Restatements used when reasoning about [true_div]. *)

(** [a / b >= 2^k], read on integers. *)
Definition ge_pow2 (a b k : Z) : Prop :=
  b * 2 ^ Z.max k 0 ≤ a * 2 ^ Z.max (- k) 0.

(** Numerator and denominator of the quotient scaled by [2^-e], as
    [true_div] scales them. *)
Definition num (a e : Z) : Z := a * 2 ^ Z.max (- e) 0.
Definition den (b e : Z) : Z := b * 2 ^ Z.max e 0.

(** The significand of [a / b], and the overflow test. *)
Definition significand (a b : Z) : Z :=
  round_half_even (num a (ulp_exp a b)) (den b (ulp_exp a b)).

Definition overflows (m e : Z) : bool :=
  (971 <? e) || ((e =? 971) && (m =? 2 ^ 53)).


End PyFloat.

(** ** Data model *)

(** An exception raised by a library call, with its class name and its
    [str()] text. *)
Record oserror := OsError { err_class : string; err_text : string }.

(** Exceptions.  [UpdateCanceled] is the program's own class, which no
    library raises; every other exception is an [Exception] of some library
    class. *)
Inductive exn :=
| UpdateCanceled (text : string)
| Error (class text : string).

Definition library (e : oserror) : exn := Error (err_class e) (err_text e).

(** [str(error)]. *)
Definition exn_text (e : exn) : string :=
  match e with
  | UpdateCanceled t => t
  | Error _ t => t
  end.

(** What a library call that can raise gives back. *)
Definition result (A : Type) : Type := oserror + A.

(** An inbound command: the JSON object of a frame, with string fields
    ([cmd], [downloadUrl], [targetDir], [path]). *)
Abbreviation message := (gmap string string).

(** What [json.loads] can hand back to [read_message]. *)
Inductive json :=
| JNull                       (* the JSON value [null]: Python's [None] *)
| JObject (m : message)       (* a JSON object *)
| JOther.                     (* a number, string, boolean or array *)

(** An outbound status message, the payload of one frame on stdout. *)
Inductive status :=
| Progress (phase : string) (percent : Z) (text : string)
| Log (text : string)
| Complete (path : string)
| Canceled (text : string)
| Failed (text : string)      (* [{'status': 'error', ...}] *)
| CheckInstallDir (ok : bool) (path : string) (text : option string).

(** The [Content-Length] header of a response. *)
Inductive header :=
| Absent
| Numeric (n : Z)
| Malformed (shown : string).   (* not a number; [shown] is its [repr] *)

(** An open HTTP response: its header and what the successive calls of
    [response.read(CHUNK_SIZE)] return.  The end of the list, like an empty
    chunk, is the end of the body. *)
Record response := Response {
  content_length : header;
  body : list (result (list byte));
}.

(** A member of a zip archive, as [archive.infolist()] lists it. *)
Record zipinfo := ZipInfo {
  filename : list string;     (* path inside the archive, by component *)
  is_dir : bool;              (* a directory entry *)
  payload : list byte;
}.

(** Thread identifiers. *)
Abbreviation tid := nat.

(** ** Effects *)

(** Every primitive the program calls on its environment.  The index is the
    type of what the call gives back; a primitive that can raise gives back
    a [result]. *)
Inductive eff : Type → Type :=
(* [cancel_event], a [threading.Event] *)
| EventIsSet : eff bool
| EventSet : eff unit
| EventClear : eff unit
(* the standard streams and the log file *)
| StdinRead (n : Z) : eff (list byte)
| StdoutFrame (m : status) : eff unit
| LogLine (text : string) : eff unit
(* [json.loads(data.decode('utf-8'))] *)
| JsonLoads (data : list byte) : eff (result json)
(* the global [update_thread] and [threading.Thread] *)
| GetUpdateThread : eff (option tid)
| SetUpdateThread (t : option tid) : eff unit
| ThreadIsAlive (t : tid) : eff bool
| ThreadNew (msg : message) : eff tid
| ThreadStart (t : tid) : eff unit
(* [os], [os.path], [shutil], [tempfile] *)
| ExpandUser (p : string) : eff string
| ExpandVars (p : string) : eff string
| PathExists (p : string) : eff bool
| PathIsDir (p : string) : eff bool
| PathIsLink (p : string) : eff bool
| ListDir (p : string) : eff (result (list string))
| Makedirs (p : string) : eff (result unit)
| Rmtree (p : string) : eff (result unit)
| Remove (p : string) : eff (result unit)
| Mkdtemp (prefix : string) : eff (result string)
(* [open(path, 'wb')] and [target.write(chunk)] *)
| OpenWB (p : string) : eff (result unit)
| FileWrite (p : string) (chunk : list byte) : eff (result unit)
(* [urllib.request.urlopen] *)
| UrlOpen (url : string) : eff (result response)
(* [zipfile.ZipFile(path).infolist()] and [archive.extract(member, dir)] *)
| ZipInfolist (p : string) : eff (result (list zipinfo))
| ZipExtract (member : zipinfo) (dir : string) : eff (result unit).

(** ** Programs: a free monad with exceptions *)

Inductive prog (A : Type) : Type :=
| Ret (a : A)
| Raise (e : exn)
| Vis {X : Type} (e : eff X) (k : X → prog A).

Arguments Ret {A} a.
Arguments Raise {A} e.
Arguments Vis {A X} e k.

Fixpoint bind {A B} (p : prog A) (f : A → prog B) : prog B :=
  match p with
  | Ret a => f a
  | Raise e => Raise e
  | Vis e k => Vis e (λ x, bind (k x) f)
  end.

(** [try: p  except Exception as e: h e]. *)
Fixpoint try_except {A} (p : prog A) (h : exn → prog A) : prog A :=
  match p with
  | Ret a => Ret a
  | Raise e => h e
  | Vis e k => Vis e (λ x, try_except (k x) h)
  end.

(** [try: p  finally: q]. *)
Fixpoint try_finally {A} (p : prog A) (q : prog unit) : prog A :=
  match p with
  | Ret a => bind q (λ _, Ret a)
  | Raise e => bind q (λ _, Raise e)
  | Vis e k => Vis e (λ x, try_finally (k x) q)
  end.

(** A primitive that cannot raise. *)
Definition call {X} (e : eff X) : prog X := Vis e Ret.

(** A primitive that can raise: its exception becomes the program's. *)
Definition call_r {X} (e : eff (result X)) : prog X :=
  Vis e (λ r, match r with inl ex => Raise (library ex) | inr x => Ret x end).

Declare Scope prog_scope.
Delimit Scope prog_scope with prog.
Notation "x ← y ; z" := (bind y (λ x, z))
  (at level 20, y at level 100, z at level 200) : prog_scope.
Notation "y ;; z" := (bind y (λ _, z))
  (at level 100, z at level 200, right associativity) : prog_scope.
Local Open Scope prog_scope.

(** ** The program *)

Definition CHUNK_SIZE : Z := 64 * 1024.

(** [len(x)] as a Python integer. *)
Definition len {A} (l : list A) : Z := Z.of_nat (length l).
Arguments len : simpl never.

(** [struct.unpack('<I', raw)[0]]: four bytes, little endian; anything else
    is [struct.error]. *)
Definition unpack_u32_le (raw : list byte) : option Z :=
  match raw with
  | [b0; b1; b2; b3] =>
      Some (Z.of_N (Byte.to_N b0) + 256 * Z.of_N (Byte.to_N b1)
            + 65536 * Z.of_N (Byte.to_N b2) + 16777216 * Z.of_N (Byte.to_N b3))
  | _ => None
  end.

(** [send_message(payload)]: one frame on the standard output.  The
    encoding of the frame is not modelled: [json.dumps(...).encode('utf-8')]
    raises for a payload that holds a string which is not [Py.encodable],
    and the properties of replies that carry a path of the message ask for
    an encodable one. *)
Definition send_message (payload : status) : prog unit :=
  call (StdoutFrame payload).

(** [write_log(text)]: one line more in the file [LOG_FILE].  The function
    catches every exception, so it cannot fail.  The lines of the log file
    are kept apart from the other files, in [logfile]: what [write_log]
    does to the file system (the directory it makes for the log file, the
    file it appends to) is not part of [files]. *)
Definition write_log (text : string) : prog unit :=
  call (LogLine text).

(** [read_message()].  Python's [None] and the decoded JSON [null] are the
    same value, [JNull]. *)
Definition read_message : prog json :=
  raw_length ← call (StdinRead 4);
  if bool_decide (raw_length = []) then Ret JNull
  else
    match unpack_u32_le raw_length with
    | None => Raise (Error "struct.error" "unpack requires a buffer of 4 bytes")
    | Some message_length =>
        message_data ← call (StdinRead message_length);
        if bool_decide (message_data = []) then Ret JNull
        else call_r (JsonLoads message_data)
    end.

Definition canceled_text : string := "已取消自动更新".

Definition download_text (percent : Z) : string :=
  "正在下载更新包（" ++ pretty percent ++ "%）".

Definition extract_text (percent : Z) : string :=
  "正在解压更新包（" ++ pretty percent ++ "%）".

(** [int(x * 100 / total)]. *)
Definition percent_of (x total : Z) : prog Z :=
  match PyFloat.int_true_div (x * 100) total with
  | Some p => Ret p
  | None => Raise (Error "OverflowError" "integer division result too large for a float")
  end.

(** The [while True] loop of [download_with_progress]; [chunks] is what the
    remaining calls of [response.read(CHUNK_SIZE)] return. *)
Fixpoint download_loop (dest_path : string) (total : Z)
    (chunks : list (result (list byte))) (downloaded last_percent : Z)
  : prog unit :=
  canceled ← call EventIsSet;
  if canceled : bool then Raise (UpdateCanceled canceled_text)
  else
    match chunks with
    | [] => Ret tt
    | inl error :: _ => Raise (library error)
    | inr chunk :: rest =>
        if bool_decide (chunk = []) then Ret tt
        else
          call_r (FileWrite dest_path chunk);;
          let downloaded := downloaded + len chunk in
          if 0 <? total then
            percent ← percent_of downloaded total;
            if bool_decide (percent ≠ last_percent) then
              send_message (Progress "download" percent (download_text percent));;
              download_loop dest_path total rest downloaded percent
            else download_loop dest_path total rest downloaded last_percent
          else if downloaded `mod` (CHUNK_SIZE * 20) =? 0 then
            send_message (Progress "download" 0 "正在下载更新包...");;
            download_loop dest_path total rest downloaded last_percent
          else download_loop dest_path total rest downloaded last_percent
    end.

(** [int(response.headers.get('Content-Length') or 0)]. *)
Definition content_length_int (h : header) : prog Z :=
  match h with
  | Absent => Ret 0
  | Numeric n => Ret n
  | Malformed shown =>
      Raise (Error "ValueError"
               ("invalid literal for int() with base 10: " ++ shown))
  end.

Definition download_with_progress (url dest_path : string) : prog unit :=
  response ← call_r (UrlOpen url);
  call_r (OpenWB dest_path);;
  total ← content_length_int (content_length response);
  download_loop dest_path total (body response) 0 (-1).

(** The [for index, member in enumerate(members, 1)] loop. *)
Fixpoint extract_loop (target_dir : string) (total : Z)
    (members : list zipinfo) (index : Z) : prog unit :=
  match members with
  | [] => Ret tt
  | member :: rest =>
      canceled ← call EventIsSet;
      if canceled : bool then Raise (UpdateCanceled canceled_text)
      else
        call_r (ZipExtract member target_dir);;
        percent ← percent_of index total;
        send_message (Progress "extract" percent (extract_text percent));;
        extract_loop target_dir total rest (index + 1)
  end.

Definition extract_with_progress (zip_path target_dir : string) : prog unit :=
  members ← call_r (ZipInfolist zip_path);
  let total := len members in
  if total =? 0 then Ret tt
  else extract_loop target_dir total members 1.

Definition resolve_target_dir (message : message) : prog string :=
  match message !! "targetDir" with
  | Some target_dir =>
      if Py.truthy target_dir then
        expanded ← call (ExpandVars target_dir);
        call (ExpandUser expanded)
      else
        home ← call (ExpandUser "~");
        Ret (PosixPath.join (PosixPath.join home ".cjt-helper") "auto-update")
  | None =>
      home ← call (ExpandUser "~");
      Ret (PosixPath.join (PosixPath.join home ".cjt-helper") "auto-update")
  end.

(** The body of the [for name in os.listdir(target_dir)] loop. *)
Definition remove_item (item_path : string) : prog unit :=
  try_except
    (is_dir ← call (PathIsDir item_path);
     is_link ← (if is_dir : bool then call (PathIsLink item_path) else Ret false);
     if (is_dir && negb is_link)%bool then call_r (Rmtree item_path)
     else call_r (Remove item_path))
    (λ error, Raise (Error "RuntimeError" ("清理更新目录失败: " ++ exn_text error))).

Fixpoint remove_items (target_dir : string) (names : list string) : prog unit :=
  match names with
  | [] => Ret tt
  | name :: rest =>
      remove_item (PosixPath.join target_dir name);;
      remove_items target_dir rest
  end.

Definition allowed_name : string := "cjt-helper".

Definition ensure_clean_target_dir (target_dir : string) : prog unit :=
  present ← call (PathExists target_dir);
  if negb present then call_r (Makedirs target_dir)
  else
    home_dir ← call (ExpandUser "~");
    let safe_root := PosixPath.join home_dir ".cjt-helper" in
    match PosixPath.commonpath target_dir safe_root with
    | None =>
        write_log ("skip_clean_error: " ++ "Can't mix absolute and relative paths")
    | Some common =>
        let is_under_safe_root := String.eqb common safe_root in
        let normalized := PosixPath.normpath target_dir in
        let allow_by_name :=
          String.eqb (Py.lower (PosixPath.basename normalized)) allowed_name in
        if (negb is_under_safe_root && negb allow_by_name)%bool then
          write_log ("skip_clean: " ++ target_dir)
        else
          names ← call_r (ListDir target_dir);
          remove_items target_dir names
    end.

Definition normalize_path (path : string) : prog string :=
  if negb (Py.truthy path) then Ret ""
  else
    expanded ← call (ExpandVars path);
    call (ExpandUser expanded).

Definition check_install_dir (path : string) : prog (bool * string * string) :=
  normalized ← normalize_path path;
  if negb (Py.truthy normalized) then Ret (false, "", "目录为空")
  else
    is_dir ← call (PathIsDir normalized);
    if is_dir : bool then Ret (true, normalized, "")
    else Ret (false, normalized, "目录不存在或不是文件夹").

(** The [except] clauses of [handle_start_update]. *)
Definition report_failure (error : exn) : prog unit :=
  match error with
  | UpdateCanceled text =>
      write_log ("canceled: " ++ text);;
      send_message (Canceled text)
  | Error _ text =>
      write_log ("error: " ++ text);;
      send_message (Failed text)
  end.

(** What follows the download in the [try] block of [handle_start_update]. *)
Definition after_download (zip_path target_dir : string) : prog unit :=
  ensure_clean_target_dir target_dir;;
  write_log "download_done: 开始解压";;
  send_message (Log "下载完成，开始解压...");;
  extract_with_progress zip_path target_dir;;
  write_log ("complete: " ++ target_dir);;
  send_message (Complete target_dir).

(** The [try] block of [handle_start_update]. *)
Definition update_steps (download_url zip_path target_dir : string) : prog unit :=
  download_with_progress download_url zip_path;;
  after_download zip_path target_dir.

(** The [try ... except ... finally] statement of [handle_start_update]
    around its [steps]. *)
Definition guarded (temp_dir : string) (steps : prog unit) : prog unit :=
  try_finally
    (try_except steps report_failure)
    (try_except (call_r (Rmtree temp_dir)) (λ _, Ret tt)).

Definition zip_name : string := "cjt_helper_update.zip".

(** [handle_start_update] up to the [try]: the target directory and the
    temporary directory. *)
Definition prepare (message : message) : prog (string * string) :=
  target_dir ← resolve_target_dir message;
  call_r (Makedirs target_dir);;
  write_log "start_update: 开始下载更新包";;
  send_message (Log "开始下载更新包...");;
  temp_dir ← call_r (Mkdtemp "cjt_helper_update_");
  Ret (target_dir, temp_dir).

Definition handle_start_update (message : message) : prog unit :=
  match message !! "downloadUrl" with
  | Some download_url =>
      if Py.truthy download_url then
        dirs ← prepare message;
        let '(target_dir, temp_dir) := dirs in
        let zip_path := PosixPath.join temp_dir zip_name in
        guarded temp_dir (update_steps download_url zip_path target_dir)
      else send_message (Failed "缺少下载地址")
  | None => send_message (Failed "缺少下载地址")
  end.

(** [run_update]: the body of the update thread.  The statement under
    [with update_lock] is one effect, hence atomic. *)
Definition run_update (message : message) : prog unit :=
  try_finally (handle_start_update message) (call (SetUpdateThread None)).

(** The body of the [while True] loop of [main] once a command has been read:
    [true] goes round again.  The block under [with update_lock] only calls
    primitives of the session thread. *)
Definition dispatch (message : message) : prog bool :=
  let cmd := message !! "cmd" in
  if bool_decide (cmd = Some "start_update") then
    current ← call GetUpdateThread;
    alive ← match current with
            | Some t => call (ThreadIsAlive t)
            | None => Ret false
            end;
    if alive : bool then
      write_log "reject: update already running";;
      send_message (Failed "已有更新任务正在执行");;
      Ret true
    else
      call EventClear;;
      write_log "start_update: thread created";;
      t ← call (ThreadNew message);
      call (SetUpdateThread (Some t));;
      call (ThreadStart t);;
      Ret true
  else if bool_decide (cmd = Some "cancel_update") then
    call EventSet;;
    write_log "cancel_update: received";;
    send_message (Log "已发送取消指令");;
    Ret true
  else if bool_decide (cmd = Some "check_install_dir") then
    let raw_path := default "" (message !! "path") in
    checked ← check_install_dir raw_path;
    let '(ok, normalized, error_text) := checked in
    write_log ("check_install_dir: " ++ normalized ++ " ok="
               ++ (if ok : bool then "True" else "False"));;
    (if ok : bool return prog unit then
       send_message (CheckInstallDir true normalized None)
     else
       send_message (CheckInstallDir false normalized (Some error_text)));;
    Ret true
  else
    write_log ("unknown cmd: " ++ default "None" cmd);;
    send_message (Failed "未知指令");;
    Ret true.

(** One turn of the [while True] loop of [main]: [false] is [break]. *)
Definition main_turn : prog bool :=
  message ← read_message;
  match message with
  | JNull => Ret false
  | JOther => Raise (Error "AttributeError" "object has no attribute 'get'")
  | JObject message => dispatch message
  end.

(** ** The environment of the process *)

(** A file-system node.  Symbolic links are leaves: the program asks
    whether an entry is one, and where a link leads is not modelled.  (The
    operating system follows links in [os.path.isdir], [os.path.exists]
    and [os.listdir]; the properties that depend on what is found at a path
    ask for a path without links, see [Fs.os_lookup].) *)
Inductive node :=
| Dir
| File (data : list byte)
| Link.

(** An absolute location, by component. *)
Abbreviation path := (list string).

(** What the process cannot change. *)
Record environment := Environment {
  json_loads : list byte → result json;
  expanduser : string → string;
  expandvars : string → string;
  urlopen : string → result response;
  zip_infolist : list byte → result (list zipinfo);
  cwd : path;
  tmpdir : string;
  locked : list path;          (* entries whose removal is refused *)
}.

Inductive thread :=
| Created (msg : message)
| Running (code : prog unit).

(** The state of the process and of the files around it. *)
Record sys := Sys {
  stdin : list byte;
  stdout : list status;
  logfile : list string;
  cancel_event : bool;
  update_thread : option tid;
  threads : gmap tid thread;
  next_tid : tid;
  files : gmap path node;
  tmp_names : list string;     (* the random names [mkdtemp] will draw *)
}.

Definition set_stdin (v : list byte) (s : sys) : sys :=
  Sys v (stdout s) (logfile s) (cancel_event s) (update_thread s) (threads s)
      (next_tid s) (files s) (tmp_names s).
Definition set_stdout (v : list status) (s : sys) : sys :=
  Sys (stdin s) v (logfile s) (cancel_event s) (update_thread s) (threads s)
      (next_tid s) (files s) (tmp_names s).
Definition set_logfile (v : list string) (s : sys) : sys :=
  Sys (stdin s) (stdout s) v (cancel_event s) (update_thread s) (threads s)
      (next_tid s) (files s) (tmp_names s).
Definition set_cancel_event (v : bool) (s : sys) : sys :=
  Sys (stdin s) (stdout s) (logfile s) v (update_thread s) (threads s)
      (next_tid s) (files s) (tmp_names s).
Definition set_update_thread (v : option tid) (s : sys) : sys :=
  Sys (stdin s) (stdout s) (logfile s) (cancel_event s) v (threads s)
      (next_tid s) (files s) (tmp_names s).
Definition set_threads (v : gmap tid thread) (s : sys) : sys :=
  Sys (stdin s) (stdout s) (logfile s) (cancel_event s) (update_thread s) v
      (next_tid s) (files s) (tmp_names s).
Definition set_next_tid (v : tid) (s : sys) : sys :=
  Sys (stdin s) (stdout s) (logfile s) (cancel_event s) (update_thread s)
      (threads s) v (files s) (tmp_names s).
Definition set_files (v : gmap path node) (s : sys) : sys :=
  Sys (stdin s) (stdout s) (logfile s) (cancel_event s) (update_thread s)
      (threads s) (next_tid s) v (tmp_names s).
Definition set_tmp_names (v : list string) (s : sys) : sys :=
  Sys (stdin s) (stdout s) (logfile s) (cancel_event s) (update_thread s)
      (threads s) (next_tid s) (files s) v.

(** *** Files *)

Module Fs.

(** Resolution of the components of a path string, [acc] being the
    location reached so far, innermost component first.  The resolution
    works on the string: a [..] steps back over the component before it
    whether or not that names a directory.  The operating system agrees
    where every component on the way is an existing directory; [os_walk]
    below tells. *)
Fixpoint walk (acc : list string) (comps : list string) : path :=
  match comps with
  | [] => rev acc
  | c :: cs =>
      if (String.eqb c "" || String.eqb c ".")%bool then walk acc cs
      else if String.eqb c ".." then walk (tail acc) cs
      else walk (c :: acc) cs
  end.

(** Where a path string leads; the empty string leads nowhere. *)
Definition locate (wd : path) (p : string) : option path :=
  if negb (Py.truthy p) then None
  else Some (walk (if Py.startswith p "/" then [] else rev wd)
                  (Py.split PosixPath.sep p)).

(** The root always exists. *)
Definition node_at (fs : gmap path node) (k : path) : option node :=
  match k with
  | [] => Some Dir
  | _ => fs !! k
  end.

(** What the operating system finds at a path.  It takes the components
    one by one, and each one in a directory that exists: unlike [walk], it
    does not step back over a component that names nothing.  Where a
    symbolic link leads is not modelled. *)
Inductive lookup :=
| Found (k : path) (n : node)
| Missing                    (* a component names nothing, or lies in a file *)
| Linked.                    (* a symbolic link is on the way, or at the end *)

Fixpoint os_walk (fs : gmap path node) (cur : path) (comps : list string)
  : lookup :=
  match comps with
  | [] =>
      match node_at fs cur with
      | Some Link => Linked
      | Some n => Found cur n
      | None => Missing
      end
  | c :: cs =>
      match node_at fs cur with
      | Some Dir =>
          if (String.eqb c "" || String.eqb c ".")%bool then os_walk fs cur cs
          else if String.eqb c ".." then os_walk fs (removelast cur) cs
          else os_walk fs (cur ++ [c])%list cs
      | Some Link => Linked
      | _ => Missing
      end
  end.

Definition os_lookup (fs : gmap path node) (wd : path) (p : string) : lookup :=
  if negb (Py.truthy p) then Missing
  else os_walk fs (if Py.startswith p "/" then [] else wd)
               (Py.split PosixPath.sep p).

(** A path string without a [..] component. *)
Definition dotdot_free (p : string) : bool :=
  forallb (λ c, negb (String.eqb c "..")) (Py.split PosixPath.sep p).


Fixpoint strip_prefix (k k' : path) : option path :=
  match k, k' with
  | [], _ => Some k'
  | a :: k1, b :: k1' => if String.eqb a b then strip_prefix k1 k1' else None
  | _ :: _, [] => None
  end.

Definition child_name (k k' : path) : option string :=
  match strip_prefix k k' with
  | Some [n] => Some n
  | _ => None
  end.

Definition children (fs : gmap path node) (k : path) : list string :=
  omap (λ kv, child_name k kv.1) (map_to_list fs).

(** An entry is protected when it, or an entry below it, is locked. *)
Definition protected (lk : list path) (fs : gmap path node) (k : path) : bool :=
  existsb (λ l, bool_decide (k `prefix_of` l) && bool_decide (is_Some (fs !! l)))
          lk.

Definition not_found : oserror := OsError "FileNotFoundError" "No such file or directory".
Definition not_a_directory : oserror := OsError "NotADirectoryError" "Not a directory".
Definition is_a_directory : oserror := OsError "IsADirectoryError" "Is a directory".
Definition file_exists : oserror := OsError "FileExistsError" "File exists".
Definition permission : oserror := OsError "PermissionError" "Operation not permitted".

(** [os.listdir]. *)
Definition listdir (wd : path) (fs : gmap path node) (p : string)
  : result (list string) :=
  match locate wd p with
  | None => inl not_found
  | Some k =>
      match node_at fs k with
      | Some Dir => inr (children fs k)
      | Some _ => inl not_a_directory
      | None => inl not_found
      end
  end.

(** [shutil.rmtree]: everything at or below [p] goes, except what is
    protected; meeting a protected entry is an error. *)
Definition rmtree (wd : path) (lk : list path) (fs : gmap path node) (p : string)
  : result unit * gmap path node :=
  match locate wd p with
  | None => (inl not_found, fs)
  | Some k =>
      match node_at fs k with
      | Some Dir =>
          (if protected lk fs k then inl permission else inr tt,
           filter (λ kv, ¬ k `prefix_of` kv.1 ∨ protected lk fs kv.1 = true) fs)
      | Some _ => (inl not_a_directory, fs)
      | None => (inl not_found, fs)
      end
  end.

(** [os.remove]. *)
Definition remove (wd : path) (lk : list path) (fs : gmap path node) (p : string)
  : result unit * gmap path node :=
  match locate wd p with
  | None => (inl not_found, fs)
  | Some k =>
      match node_at fs k with
      | Some Dir => (inl is_a_directory, fs)
      | Some _ =>
          if protected lk fs k then (inl permission, fs)
          else (inr tt, delete k fs)
      | None => (inl not_found, fs)
      end
  end.

(** Creation of the directories [done ++ [c1]], [done ++ [c1; c2]], ...
    Something else than a directory in the way is a [NotADirectoryError];
    in the last place it is a [FileExistsError]. *)
Fixpoint mkdirs (fs : gmap path node) (done : path) (todo : list string)
  : result (gmap path node) :=
  match todo with
  | [] => inr fs
  | c :: cs =>
      let k := (done ++ [c])%list in
      match node_at fs k with
      | None => mkdirs (<[k := Dir]> fs) k cs
      | Some Dir => mkdirs fs k cs
      | Some _ => inl (match cs with [] => file_exists | _ => not_a_directory end)
      end
  end.

(** [os.makedirs(p, exist_ok=True)]. *)
Definition makedirs (wd : path) (fs : gmap path node) (p : string)
  : result unit * gmap path node :=
  match locate wd p with
  | None => (inl not_found, fs)
  | Some k =>
      match mkdirs fs [] k with
      | inl e => (inl e, fs)
      | inr fs' => (inr tt, fs')
      end
  end.

(** The first name of the supply that is free in directory [d]. *)
Fixpoint pick_temp (fs : gmap path node) (d : path) (prefix : string)
    (names : list string) : option (string * list string) :=
  match names with
  | [] => None
  | n :: rest =>
      match node_at fs (d ++ [(prefix ++ n)%string])%list with
      | None => Some ((prefix ++ n)%string, rest)
      | Some _ => pick_temp fs d prefix rest
      end
  end.

(** [open(p, 'wb')]: the file is created, or emptied. *)
Definition open_wb (wd : path) (fs : gmap path node) (p : string)
  : result unit * gmap path node :=
  match locate wd p with
  | None => (inl not_found, fs)
  | Some k =>
      match node_at fs (removelast k), node_at fs k with
      | Some Dir, None | Some Dir, Some (File _) => (inr tt, <[k := File []]> fs)
      | Some Dir, Some _ => (inl is_a_directory, fs)
      | _, _ => (inl not_found, fs)
      end
  end.

(** [target.write(chunk)] on the file opened at [p]. *)
Definition write (wd : path) (fs : gmap path node) (p : string) (chunk : list byte)
  : result unit * gmap path node :=
  match locate wd p with
  | None => (inl not_found, fs)
  | Some k =>
      match node_at fs k with
      | Some (File data) => (inr tt, <[k := File (data ++ chunk)%list]> fs)
      | _ => (inl not_found, fs)
      end
  end.

(** The components of a member's name that [zipfile] keeps: the empty
    ones, [.] and [..] are dropped. *)
Definition member_name (member : zipinfo) : list string :=
  List.filter (λ c, negb (String.eqb c "" || String.eqb c "." || String.eqb c ".."))
              (filename member).

(** [archive.extract(member, dir)].  The directories above the member are
    made first; a file in their place is a [NotADirectoryError]. *)
Definition extract (wd : path) (fs : gmap path node) (member : zipinfo) (dir : string)
  : result unit * gmap path node :=
  match locate wd dir with
  | None => (inl not_found, fs)
  | Some d =>
      let k := (d ++ member_name member)%list in
      if is_dir member then
        match mkdirs fs [] k with
        | inl e => (inl e, fs)
        | inr fs' => (inr tt, fs')
        end
      else
        match mkdirs fs [] (removelast k) with
        | inl _ => (inl not_a_directory, fs)
        | inr fs' =>
            match node_at fs' k with
            | Some Dir => (inl is_a_directory, fs')
            | _ => (inr tt, <[k := File (payload member)]> fs')
            end
        end
  end.

End Fs.

(** ** Semantics *)

Section Semantics.

Context (E : environment).

Definition lift_fs {X} (r : X * gmap path node) (s : sys) : X * sys :=
  (r.1, set_files r.2 s).

(** [tempfile.mkdtemp(prefix=...)]: names are drawn until one is free. *)
Definition mkdtemp (prefix : string) (s : sys) : result string * sys :=
  match Fs.locate (cwd E) (tmpdir E) with
  | None => (inl Fs.not_found, s)
  | Some d =>
      match Fs.node_at (files s) d with
      | Some Dir =>
          match Fs.pick_temp (files s) d prefix (tmp_names s) with
          | Some (name, rest) =>
              (inr (PosixPath.join (tmpdir E) name),
               set_tmp_names rest (set_files (<[(d ++ [name])%list := Dir]> (files s)) s))
          | None => (inl Fs.file_exists, set_tmp_names [] s)
          end
      | _ => (inl Fs.not_found, s)
      end
  end.

Definition node_of (s : sys) (p : string) : option node :=
  match Fs.locate (cwd E) p with
  | Some k => Fs.node_at (files s) k
  | None => None
  end.

(** What one call of a primitive returns, and the state it leaves. *)
Definition perform {X} (e : eff X) (s : sys) : X * sys :=
  match e in eff X return X * sys with
  | EventIsSet => (cancel_event s, s)
  | EventSet => (tt, set_cancel_event true s)
  | EventClear => (tt, set_cancel_event false s)
  | StdinRead n =>
      (take (Z.to_nat n) (stdin s), set_stdin (drop (Z.to_nat n) (stdin s)) s)
  | StdoutFrame m => (tt, set_stdout (stdout s ++ [m])%list s)
  | LogLine text => (tt, set_logfile (logfile s ++ [text])%list s)
  | JsonLoads data => (json_loads E data, s)
  | GetUpdateThread => (update_thread s, s)
  | SetUpdateThread t => (tt, set_update_thread t s)
  | ThreadIsAlive t =>
      (match threads s !! t with Some (Running _) => true | _ => false end, s)
  | ThreadNew msg =>
      (next_tid s,
       set_next_tid (S (next_tid s))
         (set_threads (<[next_tid s := Created msg]> (threads s)) s))
  | ThreadStart t =>
      (tt, match threads s !! t with
           | Some (Created msg) =>
               set_threads (<[t := Running (run_update msg)]> (threads s)) s
           | _ => s
           end)
  | ExpandUser p => (expanduser E p, s)
  | ExpandVars p => (expandvars E p, s)
  | PathExists p => (bool_decide (is_Some (node_of s p)), s)
  | PathIsDir p =>
      (match node_of s p with Some Dir => true | _ => false end, s)
  | PathIsLink p =>
      (match node_of s p with Some Link => true | _ => false end, s)
  | ListDir p => (Fs.listdir (cwd E) (files s) p, s)
  | Makedirs p => lift_fs (Fs.makedirs (cwd E) (files s) p) s
  | Rmtree p => lift_fs (Fs.rmtree (cwd E) (locked E) (files s) p) s
  | Remove p => lift_fs (Fs.remove (cwd E) (locked E) (files s) p) s
  | Mkdtemp prefix => mkdtemp prefix s
  | OpenWB p => lift_fs (Fs.open_wb (cwd E) (files s) p) s
  | FileWrite p chunk => lift_fs (Fs.write (cwd E) (files s) p chunk) s
  | UrlOpen url => (urlopen E url, s)
  | ZipInfolist p =>
      (match node_of s p return result (list zipinfo) with
       | Some (File data) => zip_infolist E data
       | _ => inl Fs.not_found
       end, s)
  | ZipExtract member dir => lift_fs (Fs.extract (cwd E) (files s) member dir) s
  end.

(** How a program ends. *)
Inductive outcome (A : Type) :=
| Returned (a : A)
| Raised (e : exn).
#[global] Arguments Returned {A} a.
#[global] Arguments Raised {A} e.

(** The other thread, seen from the running one.  The session thread can
    set [cancel_event] between two steps of the update thread; the update
    thread notices at its next [cancel_event.is_set()].  A schedule says,
    for each of these checks in turn, whether [cancel_event.set()] ran since
    the previous one; when the schedule is exhausted nothing more happens. *)
Definition interfere {X} (e : eff X) (sched : list bool) (s : sys)
  : list bool * sys :=
  match e with
  | EventIsSet =>
      (tail sched, if hd false sched then set_cancel_event true s else s)
  | _ => (sched, s)
  end.

(** A configuration: what is left of the schedule, and the state. *)
Definition conf : Type := list bool * sys.

(** Execution of a program to its end, under a schedule. *)
Fixpoint exec {A} (p : prog A) (c : conf) : outcome A * conf :=
  match p with
  | Ret a => (Returned a, c)
  | Raise e => (Raised e, c)
  | Vis e k =>
      let c1 := interfere e c.1 c.2 in
      let r := perform e c1.2 in
      exec (k r.1) (c1.1, r.2)
  end.

(** Execution without interference. *)
Definition run {A} (p : prog A) (s : sys) : outcome A * sys :=
  let r := exec p ([], s) in (r.1, r.2.2).

(** The states in which a program starts a thread: for each
    [thread.start()] it performs, in order, the state just before it. *)
Fixpoint spawn_states {A} (p : prog A) (c : conf) : list sys :=
  match p with
  | Ret _ | Raise _ => []
  | Vis e k =>
      let c1 := interfere e c.1 c.2 in
      let r := perform e c1.2 in
      (match e with ThreadStart _ => [c1.2] | _ => [] end
       ++ spawn_states (k r.1) (c1.1, r.2))%list
  end.

(** *** The process: the session thread and the update threads *)

Inductive main_state :=
| InLoop
| Exited                       (* [break]: the process ends normally *)
| Crashed (e : exn).           (* uncaught exception in [main] *)

Definition after_turn (r : outcome bool) : main_state :=
  match r with
  | Returned true => InLoop
  | Returned false => Exited
  | Raised e => Crashed e
  end.

(** One atomic step of the process.  Update threads are daemons: they only
    run while the session thread is in its loop. *)
Inductive step : sys * main_state → sys * main_state → Prop :=
| step_main s r s' :
    run main_turn s = (r, s') →
    step (s, InLoop) (s', after_turn r)
| step_thread s t X (e : eff X) k x s' :
    threads s !! t = Some (Running (Vis e k)) →
    perform e s = (x, s') →
    step (s, InLoop) (set_threads (<[t := Running (k x)]> (threads s')) s', InLoop)
| step_thread_return s t :
    threads s !! t = Some (Running (Ret tt)) →
    step (s, InLoop) (set_threads (delete t (threads s)) s, InLoop)
| step_thread_raise s t e :
    threads s !! t = Some (Running (Raise e)) →
    step (s, InLoop) (set_threads (delete t (threads s)) s, InLoop).

End Semantics.

(** ** Vocabulary of the properties *)

Section Vocabulary.

Context (E : environment).

(** What [normalize_path] returns. *)
Definition normalized_path (path : string) : string :=
  if Py.truthy path then expanduser E (expandvars E path) else "".

(** [~/.cjt-helper]. *)
Definition safe_root : string := PosixPath.join (expanduser E "~") ".cjt-helper".

(** [LOG_FILE], the file [write_log] appends to; [logfile] holds its
    lines. *)
Definition LOG_FILE : string := expanduser E "~/.cjt-helper/auto-update.log".


(** The last component of the normalized target is [cjt-helper], whatever
    the case of its letters. *)
Definition name_allowed (target : string) : Prop :=
  Py.lower (PosixPath.basename (PosixPath.normpath target)) = allowed_name.

(** What [zipfile.ZipFile(p).infolist()] gives in state [s]. *)
Definition zip_members (s : sys) (p : string) : result (list zipinfo) :=
  (perform E (ZipInfolist p) s).1.

(** The file opened for the download can be written to. *)
Definition writable (s : sys) (dest : string) : Prop :=
  ∃ k data, Fs.locate (cwd E) dest = Some k ∧ k ≠ [] ∧
            files s !! k = Some (File data).

(** A schedule in which the session thread never sets the flag. *)
Definition quiet (sched : list bool) : Prop := Forall (λ b, b = false) sched.

Definition not_canceled (m : status) : Prop := ∀ text, m ≠ Canceled text.

(** A program is calm when, started with the cancellation flag down and
    under a quiet schedule, it ends with the flag down and the schedule
    quiet, does not raise [UpdateCanceled], and sends no [canceled]
    status. *)
Definition calm {A} (p : prog A) : Prop :=
  ∀ sched s,
    cancel_event s = false → quiet sched →
    cancel_event (exec E p (sched, s)).2.2 = false ∧
    quiet (exec E p (sched, s)).2.1 ∧
    (∀ text, (exec E p (sched, s)).1 ≠ Raised (UpdateCanceled text)) ∧
    ∃ out, stdout (exec E p (sched, s)).2.2 = (stdout s ++ out)%list ∧
           Forall not_canceled out.

(** The state after the [finally] clause of [handle_start_update]. *)
Definition cleaned_up (temp_dir : string) (s : sys) : sys :=
  set_files (Fs.rmtree (cwd E) (locked E) (files s) temp_dir).2 s.

End Vocabulary.

(** The primitives that leave the cancellation flag alone and send no
    [canceled] status. *)
Definition steady {X} (e : eff X) : Prop :=
  match e with
  | EventIsSet | EventSet => False
  | StdoutFrame m => not_canceled m
  | _ => True
  end.

(** The terminal status and the log line of the [except] clauses. *)
Definition terminal_status (e : exn) : status :=
  match e with
  | UpdateCanceled text => Canceled text
  | Error _ text => Failed text
  end.

Definition failure_line (e : exn) : string :=
  match e with
  | UpdateCanceled text => "canceled: " ++ text
  | Error _ text => "error: " ++ text
  end.

Definition reported (e : exn) (s : sys) : sys :=
  set_stdout (stdout s ++ [terminal_status e])
    (set_logfile (logfile s ++ [failure_line e]) s).

(** The progress messages of the two phases. *)
Definition download_event (percent : Z) : status :=
  Progress "download" percent (download_text percent).

Definition extract_event (percent : Z) : status :=
  Progress "extract" percent (extract_text percent).

(** The number of bytes a list of reads delivered. *)
Fixpoint received (chunks : list (result (list byte))) : Z :=
  match chunks with
  | [] => 0
  | inr chunk :: rest => len chunk + received rest
  | inl _ :: rest => received rest
  end.

(** The percentages C6 asks for: after each chunk the percentage is
    [floor(downloaded * 100 / total)] for the bytes received so far, the
    chunk included, and it is reported when it differs from the last one
    reported. *)
Fixpoint reported_percents (total : Z) (chunks : list (list byte))
    (downloaded last_percent : Z) : list Z :=
  match chunks with
  | [] => []
  | chunk :: rest =>
      let downloaded := downloaded + len chunk in
      let percent := downloaded * 100 / total in
      if bool_decide (percent ≠ last_percent)
      then percent :: reported_percents total rest downloaded percent
      else reported_percents total rest downloaded last_percent
  end.

(** The members [archive.extract] takes in turn, up to the first one it
    fails on. *)
Fixpoint extracted_members (wd : path) (fs : gmap path node) (target : string)
    (members : list zipinfo) : list zipinfo :=
  match members with
  | [] => []
  | member :: rest =>
      match Fs.extract wd fs member target with
      | (inr _, fs') => member :: extracted_members wd fs' target rest
      | (inl _, _) => []
      end
  end.

(** The percentages C7 asks for, for the first [k] members of an archive of
    [n]: [floor(i * 100 / n)] for [i] from 1 to [k]. *)
Definition extract_percents (n : Z) (k : nat) : list Z :=
  (λ i, i * 100 / n) <$> seqZ 1 (Z.of_nat k).

(** A name that is a single component, and neither empty nor a dot name. *)
Definition proper_name (b : string) : Prop :=
  PosixPath.plain b = true ∧ b ≠ "" ∧ b ≠ "." ∧ b ≠ "..".

(** Every entry lies in an entry, or at the root. *)
Definition parents_exist (fs : gmap path node) : bool :=
  forallb (λ kv, match removelast kv.1 with
                 | [] => true
                 | parent => bool_decide (is_Some (fs !! parent))
                 end)
          (map_to_list fs).

(** The primitives of the download to [dest]. *)
Definition downloads (dest : string) (X : Type) (e : eff X) : Prop :=
  match e with
  | EventIsSet | UrlOpen _ => True
  | OpenWB p | FileWrite p _ => p = dest
  | StdoutFrame (Progress _ _ _) => True
  | _ => False
  end.

(** The programs whose primitives are all [ok]. *)
Inductive uses (ok : ∀ X, eff X → Prop) {A} : prog A → Prop :=
| uses_ret a : uses ok (Ret a)
| uses_raise e : uses ok (Raise e)
| uses_vis X (e : eff X) k :
    ok X e → (∀ x, uses ok (k x)) → uses ok (Vis e k).

Definition is_progress (m : status) : Prop :=
  match m with Progress _ _ _ => True | _ => False end.

(** What a download to the file at [kz] can do to the state: only that
    file changes, and only progress messages are sent. *)
Definition download_frame (kz : path) (s s' : sys) : Prop :=
  (∀ k, k ≠ kz → files s' !! k = files s !! k) ∧
  ∃ out, stdout s' = (stdout s ++ out)%list ∧ Forall is_progress out.

(** The primitives of the update thread up to the [finally] clause of
    [run_update]: they leave the threads and the slot alone. *)
Definition worker (X : Type) (e : eff X) : Prop :=
  match e with
  | GetUpdateThread | SetUpdateThread _ | ThreadIsAlive _
  | ThreadNew _ | ThreadStart _ => False
  | _ => True
  end.

(** [update_thread = None] under the lock. *)
Definition releases {X} (e : eff X) : Prop :=
  match e with SetUpdateThread None => True | _ => False end.

(** A thread whose function has returned or raised: it is about to end. *)
Definition finished {A} (p : prog A) : Prop :=
  match p with Vis _ _ => False | _ => True end.

(** A thread at work on an update: it calls worker primitives, then frees
    the slot and has finished. *)
Fixpoint at_work (p : prog unit) : Prop :=
  match p with
  | Vis e k =>
      (worker _ e ∧ ∀ x, at_work (k x)) ∨ (releases e ∧ ∀ x, finished (k x))
  | _ => False
  end.

(** At most one update task: a started thread that has not finished is at
    work on an update and is the one the slot holds.  Thread identifiers
    are handed out in order. *)
Definition one_task (s : sys) : Prop :=
  (∀ t, (next_tid s ≤ t)%nat → threads s !! t = None) ∧
  ∀ t p, threads s !! t = Some (Running p) →
    finished p ∨ (update_thread s = Some t ∧ at_work p).

(** What a program without thread primitives leaves as it was. *)
Definition same_threads (s s' : sys) : Prop :=
  threads s' = threads s ∧ update_thread s' = update_thread s ∧
  next_tid s' = next_tid s.

(** ** Vocabulary of the further properties *)

(** One byte of a Python integer: [n & 0xff]. *)
Definition low_byte (n : Z) : byte :=
  default Byte.x00 (Byte.of_N (Z.to_N (n `mod` 256))).

(** [struct.pack('<I', n)]: four bytes, little endian; [None] is the
    [struct.error] raised for a number that does not fit. *)
Definition pack_u32_le (n : Z) : option (list byte) :=
  if ((0 <=? n) && (n <? 2 ^ 32))%bool then
    Some [low_byte n; low_byte (n / 256); low_byte (n / 65536);
          low_byte (n / 16777216)]
  else None.

(** What [send_message] writes to the standard output for a payload that
    encodes as [data]: the length prefix, then the data. *)
Definition frame (data : list byte) : option (list byte) :=
  match pack_u32_le (len data) with
  | Some prefix => Some (prefix ++ data)%list
  | None => None
  end.

(** No update thread is alive: [update_thread and update_thread.is_alive()]
    is false. *)
Definition idle (s : sys) : Prop :=
  ∀ t code, update_thread s = Some t → threads s !! t ≠ Some (Running code).

(** The statuses that end an update. *)
Definition terminal (m : status) : Prop :=
  match m with
  | Complete _ | Canceled _ | Failed _ => True
  | _ => False
  end.

(** The primitives that send no terminal status. *)
Definition sends_no_end (X : Type) (e : eff X) : Prop :=
  match e with
  | StdoutFrame m => ¬ terminal m
  | _ => True
  end.

(** Only messages that are not terminal were sent from [s] to [s']. *)
Definition no_end_sent (s s' : sys) : Prop :=
  ∃ out, stdout s' = (stdout s ++ out)%list ∧ Forall (λ m, ¬ terminal m) out.

(** The end of the response body: no read is left, or the next one returns
    no byte. *)
Definition at_eof (reads : list (result (list byte))) : Prop :=
  match reads with
  | [] | inr [] :: _ => True
  | _ => False
  end.

(** [int(response.headers.get('Content-Length') or 0)] when it is a
    number. *)
Definition declared_total (h : header) : option Z :=
  match h with
  | Absent => Some 0
  | Numeric n => Some n
  | Malformed _ => None
  end.

(** The progress message of a download of unknown size. *)
Definition unsized_event : status := Progress "download" 0 "正在下载更新包...".

Section Main.

Context (E : environment).

(** The [while True] loop of [main], run by the session thread alone;
    [None] when the turns allowed are used up. *)
Fixpoint main_loop (turns : nat) (s : sys) : option (outcome unit * sys) :=
  match turns with
  | O => None
  | S turns =>
      match run E main_turn s with
      | (Returned true, s') => main_loop turns s'
      | (Returned false, s') => Some (Returned tt, s')
      | (Raised e, s') => Some (Raised e, s')
      end
  end.

(** [main()]. *)
Definition main (turns : nat) (s : sys) : option (outcome unit * sys) :=
  main_loop turns (run E (write_log "native host started") s).2.

End Main.

(** [proper_name] as a test. *)
Definition proper_nameb (b : string) : bool :=
  (PosixPath.plain b && negb (String.eqb b "") && negb (String.eqb b ".")
   && negb (String.eqb b ".."))%bool.

(** Every entry of the file system is reached through proper names. *)
Definition well_named (fs : gmap path node) : bool :=
  forallb (λ kv, forallb proper_nameb kv.1) (map_to_list fs).

(** The guard of [ensure_clean_target_dir] lets the cleaning run. *)
Definition guard_passes (safe_root target : string) : Prop :=
  ∃ common, PosixPath.commonpath target safe_root = Some common ∧
            (common = safe_root ∨
             Py.lower (PosixPath.basename (PosixPath.normpath target)) = allowed_name).

(** An absolute path written from its components. *)
Definition rooted (comps : list string) : string := "/" ++ Py.join "/" comps.

(** Every entry lies in an entry, or at the root ([parents_exist] as a
    proposition). *)
Definition closed (fs : gmap path node) : Prop :=
  ∀ k n, fs !! k = Some n → removelast k ≠ [] → is_Some (fs !! removelast k).

(** A progress message of the given phase. *)
Definition in_phase (phase : string) (m : status) : Prop :=
  match m with
  | Progress ph _ _ => ph = phase
  | _ => False
  end.

(** The primitives that send nothing but progress messages of a phase. *)
Definition sends_phase (phase : string) (X : Type) (e : eff X) : Prop :=
  match e with
  | StdoutFrame m => in_phase phase m
  | _ => True
  end.

(** Only progress messages of the phase were sent from [s] to [s']. *)
Definition phase_sent (phase : string) (s s' : sys) : Prop :=
  ∃ out, stdout s' = (stdout s ++ out)%list ∧ Forall (in_phase phase) out.

(** The primitives that send nothing. *)
Definition silent (X : Type) (e : eff X) : Prop :=
  match e with
  | StdoutFrame _ => False
  | _ => True
  end.

(** The primitives of a thread that leaves the cancellation flag and the
    input alone. *)
Definition keeps_flag_and_input (X : Type) (e : eff X) : Prop :=
  match e with
  | EventSet | EventClear | StdinRead _ => False
  | _ => True
  end.

Definition same_flag_and_input (s s' : sys) : Prop :=
  cancel_event s' = cancel_event s ∧ stdin s' = stdin s.

(** ** A small concrete environment

    Used to run the definitions on examples. *)

Module Demo.

Definition home : string := "/home/u".

Definition demo_expanduser (p : string) : string :=
  if String.eqb p "~" then home
  else if Py.startswith p "~/" then home ++ String.substring 1 (String.length p - 1) p
  else p.

(** A decoder that knows two bodies: [{}] and [null]. *)
Definition demo_json_loads (data : list byte) : result json :=
  let text := string_of_list_byte data in
  if String.eqb text "{}" then inr (JObject ∅)
  else if String.eqb text "null" then inr JNull
  else inl (OsError "JSONDecodeError" "Expecting value").

Definition good_response : response :=
  Response (Numeric 3) [inr [Byte.x50; Byte.x4b]; inr [Byte.x05]].

Definition demo_urlopen (url : string) : result response :=
  if String.eqb url "http://x/good.zip" then inr good_response
  else inl (OsError "URLError" "<urlopen error unreachable>").

(** Every downloaded file reads as an archive without members. *)
Definition demo_zip_infolist (data : list byte) : result (list zipinfo) := inr [].

Definition env : environment :=
  Environment demo_json_loads demo_expanduser (λ p, p) demo_urlopen
              demo_zip_infolist ["home"; "u"] "/tmp" [].

Definition demo_files : gmap path node :=
  list_to_map [ (["tmp"], Dir); (["tmp"; "old.zip"], File [Byte.x50; Byte.x4b]);
                (["opt"], Dir); (["opt"; "CJT-Helper"], Dir);
                (["opt"; "CJT-Helper"; "old.txt"], File [Byte.x6f]);
                (["home"], Dir); (["home"; "u"], Dir) ].

Definition start : sys :=
  Sys [] [] [] false None ∅ 0 demo_files ["k3x9q2ab"; "z7m1n0pd"].


Definition start_msg : message :=
  {[ "cmd" := "start_update"; "downloadUrl" := "http://x/good.zip";
     "targetDir" := "/opt/CJT-Helper" ]}.

(** A state in which an update thread is running: it has not taken a step
    yet. *)
Definition busy : sys :=
  Sys [] [] [] false (Some 0%nat) {[ 0%nat := Running (run_update start_msg) ]} 1
      demo_files ["k3x9q2ab"; "z7m1n0pd"].

(** An archive of two members. *)
Definition two_members : list zipinfo :=
  [ZipInfo ["a.txt"] false [Byte.x61]; ZipInfo ["d"; "b.txt"] false []].
Definition zip_env : environment :=
  Environment demo_json_loads demo_expanduser (λ p, p) demo_urlopen
              (λ _, inr two_members) ["home"; "u"] "/tmp" [].

(** An idle state whose cancellation flag is still set from an earlier
    [cancel_update]. *)
Definition idle_flagged : sys := set_cancel_event true start.

(** An update from an address that does not answer. *)
Definition unreachable_msg : message :=
  {[ "cmd" := "start_update"; "downloadUrl" := "http://x/missing.zip";
     "targetDir" := "/opt/CJT-Helper" ]}.

(** An update without a download address. *)
Definition no_url_msg : message := {[ "cmd" := "start_update" ]}.

(** An update whose target directory is an existing file. *)
Definition bad_target_msg : message :=
  {[ "cmd" := "start_update"; "downloadUrl" := "http://x/good.zip";
     "targetDir" := "/tmp/old.zip" ]}.

(** An update to the default target directory. *)
Definition default_target_msg : message :=
  {[ "cmd" := "start_update"; "downloadUrl" := "http://x/good.zip" ]}.

(** A response that declares no size. *)
Definition unsized_response : response :=
  Response Absent [inr [Byte.x50; Byte.x4b]; inr [Byte.x05]].

Definition unsized_env : environment :=
  Environment demo_json_loads demo_expanduser (λ p, p) (λ _, inr unsized_response)
              demo_zip_infolist ["home"; "u"] "/tmp" [].

(** A home directory with the safe root and, beside it, a directory of
    documents. *)
Definition docs_files : gmap path node :=
  list_to_map [ (["tmp"], Dir); (["home"], Dir); (["home"; "u"], Dir);
                (["home"; "u"; ".cjt-helper"], Dir);
                (["home"; "u"; "docs"], Dir);
                (["home"; "u"; "docs"; "a.txt"], File [Byte.x61]) ].

Definition with_docs : sys :=
  Sys [] [] [] false None ∅ 0 docs_files ["k3x9q2ab"; "z7m1n0pd"].

(** A session that has logged its start, and an update into the directory
    of the log file, from an address that does not answer. *)
Definition logged : sys :=
  Sys [] [] ["native host started"] false None ∅ 0 docs_files
      ["k3x9q2ab"; "z7m1n0pd"].

Definition log_dir_msg : message :=
  {[ "cmd" := "start_update"; "downloadUrl" := "http://x/missing.zip";
     "targetDir" := "~/.cjt-helper" ]}.

End Demo.

(** * Properties *)

(** ** Arithmetic of [int(a / b)] *)

Module PyFloatFacts.

Import PyFloat.
#[local] Open Scope Z_scope.

Lemma pow2_pos k : 0 < 2 ^ k ∨ (k < 0 ∧ 2 ^ k = 0).
Proof.
  destruct (Z.lt_ge_cases k 0) as [H|H].
  - right. split; [done|]. by apply Z.pow_neg_r.
  - left. by apply Z.pow_pos_nonneg.
Qed.

Lemma pow2_gt0 k : 0 ≤ k → 0 < 2 ^ k.
Proof. intros. by apply Z.pow_pos_nonneg. Qed.

Lemma pow2_add j k : 0 ≤ j → 0 ≤ k → 2 ^ (j + k) = 2 ^ j * 2 ^ k.
Proof. intros. by apply Z.pow_add_r. Qed.

Lemma pow2_le j k : 0 ≤ j ≤ k → 2 ^ j ≤ 2 ^ k.
Proof. intros. apply Z.pow_le_mono_r; lia. Qed.


Lemma quot_ge_pow2_spec a b k : quot_ge_pow2 a b k = true ↔ ge_pow2 a b k.
Proof.
  unfold quot_ge_pow2, ge_pow2.
  destruct (0 <=? k) eqn:Hk.
  - apply Z.leb_le in Hk. rewrite Z.leb_le.
    rewrite (Z.max_l k 0), (Z.max_r (- k) 0) by lia. simpl. lia.
  - apply Z.leb_gt in Hk. rewrite Z.leb_le.
    rewrite (Z.max_r k 0), (Z.max_l (- k) 0) by lia. simpl. lia.
Qed.

Lemma ge_pow2_anti a b k k' :
  0 < a → 0 < b → k' ≤ k → ge_pow2 a b k → ge_pow2 a b k'.
Proof.
  unfold ge_pow2. intros Ha Hb Hk H.
  assert (H1 : 2 ^ Z.max k' 0 ≤ 2 ^ Z.max k 0) by (apply pow2_le; lia).
  assert (H2 : 2 ^ Z.max (- k) 0 ≤ 2 ^ Z.max (- k') 0) by (apply pow2_le; lia).
  assert (0 < 2 ^ Z.max k' 0) by (apply pow2_gt0; lia).
  assert (0 < 2 ^ Z.max (- k) 0) by (apply pow2_gt0; lia).
  nia.
Qed.

Lemma ge_pow2_mono a a' b k :
  0 < b → a ≤ a' → ge_pow2 a b k → ge_pow2 a' b k.
Proof.
  unfold ge_pow2. intros Hb Ha H.
  assert (0 < 2 ^ Z.max (- k) 0) by (apply pow2_gt0; lia). nia.
Qed.

(** What [floor_log2_quot] computes. *)
Lemma floor_log2_quot_spec a b :
  0 < a → 0 < b →
  ge_pow2 a b (floor_log2_quot a b) ∧ ¬ ge_pow2 a b (floor_log2_quot a b + 1).
Proof.
  intros Ha Hb. unfold floor_log2_quot.
  pose proof (Z.log2_spec a Ha) as [HA1 HA2].
  pose proof (Z.log2_spec b Hb) as [HB1 HB2].
  pose proof (Z.log2_nonneg a) as Hla. pose proof (Z.log2_nonneg b) as Hlb.
  set (la := Z.log2 a) in *. set (lb := Z.log2 b) in *.
  rewrite Z.pow_succ_r in HA2, HB2 by done.
  assert (HA0 : 0 < 2 ^ la) by (by apply pow2_gt0).
  assert (HB0 : 0 < 2 ^ lb) by (by apply pow2_gt0).
  assert (Hup : ¬ ge_pow2 a b (la - lb + 1)).
  { unfold ge_pow2. destruct (Z.le_gt_cases 0 (la - lb + 1)) as [Hd|Hd].
    - rewrite (Z.max_l _ 0), (Z.max_r (- _) 0) by lia.
      replace (la - lb + 1) with ((la + 1) - lb) by lia.
      assert (Hp : 2 ^ (la + 1 - lb) * 2 ^ lb = 2 * 2 ^ la).
      { rewrite <- pow2_add by lia. replace (la + 1 - lb + lb) with (Z.succ la) by lia.
        by rewrite Z.pow_succ_r. }
      assert (0 < 2 ^ (la + 1 - lb)) by (apply pow2_gt0; lia).
      simpl. nia.
    - rewrite (Z.max_r _ 0), (Z.max_l (- _) 0) by lia.
      assert (Hp : 2 ^ (- (la - lb + 1)) * (2 * 2 ^ la) = 2 ^ lb).
      { rewrite <- Z.pow_succ_r, <- pow2_add by lia. f_equal. lia. }
      assert (0 < 2 ^ (- (la - lb + 1))) by (apply pow2_gt0; lia).
      simpl. nia. }
  assert (Hlow : ge_pow2 a b (la - lb - 1)).
  { unfold ge_pow2. destruct (Z.le_gt_cases 0 (la - lb - 1)) as [Hd|Hd].
    - rewrite (Z.max_l _ 0), (Z.max_r (- _) 0) by lia.
      assert (Hp : 2 ^ (la - lb - 1) * (2 * 2 ^ lb) = 2 ^ la).
      { rewrite <- Z.pow_succ_r, <- pow2_add by lia. f_equal. lia. }
      assert (0 < 2 ^ (la - lb - 1)) by (apply pow2_gt0; lia).
      simpl. nia.
    - rewrite (Z.max_r _ 0), (Z.max_l (- _) 0) by lia.
      assert (Hp : 2 ^ (- (la - lb - 1)) * 2 ^ la = 2 * 2 ^ lb).
      { rewrite <- pow2_add by lia.
        replace (- (la - lb - 1) + la) with (Z.succ lb) by lia.
        by rewrite Z.pow_succ_r. }
      assert (0 < 2 ^ (- (la - lb - 1))) by (apply pow2_gt0; lia).
      simpl. nia. }
  destruct (quot_ge_pow2 a b (la - lb)) eqn:Hq.
  - apply quot_ge_pow2_spec in Hq. done.
  - split; [done|]. replace (la - lb - 1 + 1) with (la - lb) by lia.
    intros Hge. apply quot_ge_pow2_spec in Hge. congruence.
Qed.


Lemma den_pos b e : 0 < b → 0 < den b e.
Proof. intros. unfold den. assert (0 < 2 ^ Z.max e 0) by (apply pow2_gt0; lia). nia. Qed.

Lemma num_pos a e : 0 < a → 0 < num a e.
Proof. intros. unfold num. assert (0 < 2 ^ Z.max (- e) 0) by (apply pow2_gt0; lia). nia. Qed.

Lemma num_mono a a' e : a ≤ a' → num a e ≤ num a' e.
Proof. intros. unfold num. assert (0 < 2 ^ Z.max (- e) 0) by (apply pow2_gt0; lia). nia. Qed.

Lemma ge_pow2_scaled a b e t :
  0 ≤ t → ge_pow2 a b (e + t) ↔ 2 ^ t * den b e ≤ num a e.
Proof.
  intros Ht. unfold ge_pow2, num, den.
  assert (Ht0 : 0 < 2 ^ t) by (by apply pow2_gt0).
  destruct (Z.le_gt_cases 0 e) as [He|He].
  - rewrite (Z.max_l (e + t) 0), (Z.max_r (- (e + t)) 0) by lia.
    rewrite (Z.max_l e 0), (Z.max_r (- e) 0) by lia.
    rewrite pow2_add by lia. simpl. lia.
  - rewrite (Z.max_r e 0), (Z.max_l (- e) 0) by lia.
    destruct (Z.le_gt_cases 0 (e + t)) as [Het|Het].
    + rewrite (Z.max_l (e + t) 0), (Z.max_r (- (e + t)) 0) by lia.
      assert (Hp : 2 ^ t = 2 ^ (e + t) * 2 ^ (- e)).
      { rewrite <- pow2_add by lia. f_equal. lia. }
      assert (0 < 2 ^ (e + t)) by (apply pow2_gt0; lia).
      assert (0 < 2 ^ (- e)) by (apply pow2_gt0; lia).
      simpl. rewrite Hp. nia.
    + rewrite (Z.max_r (e + t) 0), (Z.max_l (- (e + t)) 0) by lia.
      assert (Hp : 2 ^ (- e) = 2 ^ t * 2 ^ (- (e + t))).
      { rewrite <- pow2_add by lia. f_equal. lia. }
      assert (0 < 2 ^ (- (e + t))) by (apply pow2_gt0; lia).
      simpl. rewrite Hp. nia.
Qed.

(** *** Rounding to nearest, ties to even *)

Lemma rne_cases n d :
  0 < d →
  round_half_even n d = n / d ∧ 2 * (n mod d) ≤ d
  ∨ round_half_even n d = n / d + 1 ∧ d ≤ 2 * (n mod d).
Proof.
  intros Hd. unfold round_half_even.
  destruct (2 * (n mod d) <? d) eqn:H1; [apply Z.ltb_lt in H1; left; lia|].
  apply Z.ltb_ge in H1.
  destruct (d <? 2 * (n mod d)) eqn:H2; [apply Z.ltb_lt in H2; right; lia|].
  apply Z.ltb_ge in H2. destruct (Z.even (n / d)); [left|right]; lia.
Qed.

Lemma rne_lower n d x : 0 < d → x * d ≤ n → x ≤ round_half_even n d.
Proof.
  intros Hd Hx.
  assert (x ≤ n / d) by (apply Z.div_le_lower_bound; lia).
  destruct (rne_cases n d Hd) as [[-> _]|[-> _]]; lia.
Qed.

Lemma rne_upper n d x : 0 < d → n ≤ x * d → round_half_even n d ≤ x.
Proof.
  intros Hd Hx.
  pose proof (Z.div_mod n d ltac:(lia)) as Hdm.
  pose proof (Z.mod_pos_bound n d Hd) as Hm.
  destruct (rne_cases n d Hd) as [[-> _]|[-> Hr]]; nia.
Qed.

Lemma rne_mono n n' d :
  0 < d → n ≤ n' → round_half_even n d ≤ round_half_even n' d.
Proof.
  intros Hd Hn.
  pose proof (Z.div_mod n d ltac:(lia)) as Hdm.
  pose proof (Z.div_mod n' d ltac:(lia)) as Hdm'.
  pose proof (Z.mod_pos_bound n d Hd) as Hm.
  pose proof (Z.mod_pos_bound n' d Hd) as Hm'.
  assert (Hq : n / d ≤ n' / d) by (apply Z.div_le_mono; lia).
  destruct (Z.eq_dec (n / d) (n' / d)) as [Heq|Hne].
  - unfold round_half_even. rewrite <- Heq.
    assert (n mod d ≤ n' mod d) by nia.
    repeat match goal with
           | |- context [?x <? ?y] => destruct (Z.ltb_spec x y)
           end; destruct (Z.even (n / d)); lia.
  - destruct (rne_cases n d Hd) as [[-> _]|[-> _]];
      destruct (rne_cases n' d Hd) as [[-> _]|[-> _]]; lia.
Qed.


(** *** The significand and the exponent of [a / b] *)


Lemma true_div_unfold a b :
  a ≠ 0 →
  true_div a b =
  if overflows (significand a b) (ulp_exp a b) then None
  else Some (Float (significand a b) (ulp_exp a b)).
Proof.
  intros Ha. unfold true_div, significand, overflows, num, den.
  rewrite (proj2 (Z.eqb_neq a 0) Ha).
  destruct (0 <=? ulp_exp a b) eqn:He.
  - apply Z.leb_le in He.
    rewrite (Z.max_r (- _) 0), (Z.max_l _ 0) by lia.
    rewrite Z.pow_0_r, Z.mul_1_r. reflexivity.
  - apply Z.leb_gt in He.
    rewrite (Z.max_l (- _) 0), (Z.max_r _ 0) by lia.
    rewrite Z.pow_0_r, Z.mul_1_r. reflexivity.
Qed.

(** The scaled quotient is below [2^53]. *)
Lemma scaled_below a b :
  0 < a → 0 < b → num a (ulp_exp a b) < 2 ^ 53 * den b (ulp_exp a b).
Proof.
  intros Ha Hb. destruct (floor_log2_quot_spec a b Ha Hb) as [_ Hup].
  apply Z.nle_gt. intros Hge. apply Hup.
  apply (ge_pow2_scaled a b (ulp_exp a b) 53) in Hge; [|lia].
  apply (ge_pow2_anti a b (ulp_exp a b + 53)); [done|done| |done].
  unfold ulp_exp. lia.
Qed.

(** A normal quotient, scaled, is at least [2^52]. *)
Lemma scaled_above a b :
  0 < a → 0 < b → - 1074 ≤ floor_log2_quot a b - 52 →
  2 ^ 52 * den b (ulp_exp a b) ≤ num a (ulp_exp a b).
Proof.
  intros Ha Hb Hn. destruct (floor_log2_quot_spec a b Ha Hb) as [Hlow _].
  apply (ge_pow2_scaled a b (ulp_exp a b) 52); [lia|].
  unfold ulp_exp. rewrite Z.max_l by lia.
  by replace (floor_log2_quot a b - 52 + 52) with (floor_log2_quot a b) by lia.
Qed.

(** A subnormal quotient, scaled, is below [2^52]. *)
Lemma scaled_subnormal a b :
  0 < a → 0 < b → floor_log2_quot a b - 52 < - 1074 →
  ulp_exp a b = - 1074 ∧ num a (- 1074) < 2 ^ 52 * den b (- 1074).
Proof.
  intros Ha Hb Hn. destruct (floor_log2_quot_spec a b Ha Hb) as [_ Hup].
  split; [unfold ulp_exp; lia|].
  apply Z.nle_gt. intros Hge. apply Hup.
  apply (ge_pow2_scaled a b (- 1074) 52) in Hge; [|lia].
  apply (ge_pow2_anti a b (- 1074 + 52)); [done|done|lia|done].
Qed.

Lemma significand_le a b : 0 < a → 0 < b → significand a b ≤ 2 ^ 53.
Proof.
  intros Ha Hb. apply rne_upper; [by apply den_pos|].
  pose proof (scaled_below a b Ha Hb). lia.
Qed.

Lemma significand_ge a b :
  0 < a → 0 < b → - 1074 ≤ floor_log2_quot a b - 52 → 2 ^ 52 ≤ significand a b.
Proof.
  intros Ha Hb Hn. apply rne_lower; [by apply den_pos|].
  by apply scaled_above.
Qed.

Lemma significand_nonneg a b : 0 < a → 0 < b → 0 ≤ significand a b.
Proof.
  intros Ha Hb. apply rne_lower; [by apply den_pos|].
  pose proof (num_pos a (ulp_exp a b) Ha). lia.
Qed.

Lemma floor_log2_quot_mono a a' b :
  0 < a → a ≤ a' → 0 < b → floor_log2_quot a b ≤ floor_log2_quot a' b.
Proof.
  intros Ha Haa Hb.
  destruct (floor_log2_quot_spec a b Ha Hb) as [Hlow _].
  destruct (floor_log2_quot_spec a' b ltac:(lia) Hb) as [_ Hup'].
  apply Z.nlt_ge. intros Hlt. apply Hup'.
  apply (ge_pow2_anti a' b (floor_log2_quot a b)); [lia|done|lia|].
  by apply (ge_pow2_mono a a' b).
Qed.

(** *** Truncation *)

Lemma to_int_nonneg_exp m e : 0 ≤ e → to_int (Float m e) = m * 2 ^ e.
Proof. intros He. unfold to_int. simpl. by rewrite (proj2 (Z.leb_le 0 e) He). Qed.

Lemma to_int_neg_exp m e : e < 0 → to_int (Float m e) = m / 2 ^ (- e).
Proof. intros He. unfold to_int. simpl. by rewrite (proj2 (Z.leb_gt 0 e) He). Qed.

(** Truncation is monotone in the value [m * 2^e]. *)
Lemma to_int_mono m e m' e' :
  0 ≤ m → e ≤ e' → m ≤ m' * 2 ^ (e' - e) →
  to_int (Float m e) ≤ to_int (Float m' e').
Proof.
  intros Hm He Hle.
  assert (Hd : 0 < 2 ^ (e' - e)) by (apply pow2_gt0; lia).
  destruct (Z.le_gt_cases 0 e) as [H0|H0].
  - rewrite !to_int_nonneg_exp by lia.
    replace e' with ((e' - e) + e) at 1 by lia.
    rewrite pow2_add by lia.
    assert (0 < 2 ^ e) by (by apply pow2_gt0). nia.
  - rewrite (to_int_neg_exp m e) by lia.
    assert (Hpe : 0 < 2 ^ (- e)) by (apply pow2_gt0; lia).
    destruct (Z.le_gt_cases 0 e') as [H1|H1].
    + rewrite to_int_nonneg_exp by lia.
      apply Z.div_le_upper_bound; [done|].
      assert (Hp : 2 ^ (e' - e) = 2 ^ (- e) * 2 ^ e').
      { rewrite <- pow2_add by lia. f_equal. lia. }
      rewrite Hp in Hle. lia.
    + rewrite to_int_neg_exp by lia.
      assert (Hp : 2 ^ (- e) = 2 ^ (e' - e) * 2 ^ (- e')).
      { rewrite <- pow2_add by lia. f_equal. lia. }
      assert (Hpe' : 0 < 2 ^ (- e')) by (apply pow2_gt0; lia).
      rewrite Hp, <- Z.div_div by lia.
      apply Z.div_le_mono; [lia|].
      apply Z.div_le_upper_bound; lia.
Qed.


(** *** [int(a / b)] *)

Lemma int_true_div_zero b : int_true_div 0 b = Some 0.
Proof. reflexivity. Qed.

Lemma int_true_div_unfold a b p :
  0 < a → int_true_div a b = Some p →
  p = to_int (Float (significand a b) (ulp_exp a b)).
Proof.
  intros Ha. unfold int_true_div. rewrite true_div_unfold by lia.
  destruct (overflows _ _); simpl; congruence.
Qed.

Lemma to_int_nonneg m e : 0 ≤ m → 0 ≤ to_int (Float m e).
Proof.
  intros Hm. destruct (Z.le_gt_cases 0 e).
  - rewrite to_int_nonneg_exp by done.
    assert (0 < 2 ^ e) by (by apply pow2_gt0). nia.
  - rewrite to_int_neg_exp by done. apply Z.div_pos; [done|].
    apply pow2_gt0. lia.
Qed.

Lemma int_true_div_nonneg a b p :
  0 ≤ a → 0 < b → int_true_div a b = Some p → 0 ≤ p.
Proof.
  intros Ha Hb Hp. destruct (Z.eq_dec a 0) as [->|Hne].
  - rewrite int_true_div_zero in Hp. by simplify_eq.
  - rewrite (int_true_div_unfold a b p) by (done || lia).
    apply to_int_nonneg, significand_nonneg; lia.
Qed.

(** [int(a / b)] is monotone in [a]. *)
Lemma int_true_div_mono a a' b p p' :
  0 ≤ a → a ≤ a' → 0 < b →
  int_true_div a b = Some p → int_true_div a' b = Some p' → p ≤ p'.
Proof.
  intros Ha Haa Hb Hp Hp'.
  destruct (Z.eq_dec a 0) as [->|Hne].
  { rewrite int_true_div_zero in Hp. simplify_eq.
    by apply (int_true_div_nonneg a' b). }
  rewrite (int_true_div_unfold a b p), (int_true_div_unfold a' b p')
    by (done || lia).
  assert (HL : floor_log2_quot a b ≤ floor_log2_quot a' b)
    by (apply floor_log2_quot_mono; lia).
  assert (He : ulp_exp a b ≤ ulp_exp a' b) by (unfold ulp_exp; lia).
  apply to_int_mono; [apply significand_nonneg; lia|done|].
  destruct (Z.eq_dec (ulp_exp a b) (ulp_exp a' b)) as [Heq|Hlt].
  - rewrite Heq, Z.sub_diag, Z.pow_0_r, Z.mul_1_r.
    unfold significand. rewrite Heq.
    apply rne_mono; [by apply den_pos|by apply num_mono].
  - assert (Hm : significand a b ≤ 2 ^ 53) by (apply significand_le; lia).
    assert (Hm' : 2 ^ 52 ≤ significand a' b).
    { apply significand_ge; [lia|done|]. unfold ulp_exp in *. lia. }
    assert (Hpow : 2 ^ 1 ≤ 2 ^ (ulp_exp a' b - ulp_exp a b))
      by (apply pow2_le; lia).
    change (2 ^ 53) with (2 ^ 52 * 2 ^ 1) in Hm. nia.
Qed.

(** [int(a / b)] never overflows for a quotient below [2^1000]. *)
Lemma int_true_div_defined a b :
  0 ≤ a → 0 < b → a < b * 2 ^ 1000 → is_Some (int_true_div a b).
Proof.
  intros Ha Hb Hlt. destruct (Z.eq_dec a 0) as [->|Hne]; [by eexists|].
  unfold int_true_div. rewrite true_div_unfold by done.
  assert (HL : floor_log2_quot a b < 1000).
  { destruct (floor_log2_quot_spec a b ltac:(lia) Hb) as [Hlow _].
    apply Z.nle_gt. intros Hge.
    apply (ge_pow2_anti a b _ 1000) in Hlow; [|lia|done|done].
    unfold ge_pow2 in Hlow.
    rewrite Z.max_l, Z.max_r, Z.pow_0_r in Hlow by lia. lia. }
  unfold overflows.
  assert (He : ulp_exp a b < 971) by (unfold ulp_exp; lia).
  rewrite (proj2 (Z.ltb_ge 971 _)) by lia.
  rewrite (proj2 (Z.eqb_neq _ 971)) by lia. by eexists.
Qed.

(** Below [2^53] the division is exact: [int(a / b)] is the floor. *)
Lemma int_true_div_exact a b :
  0 ≤ a → a < 2 ^ 53 → 0 < b → int_true_div a b = Some (a / b).
Proof.
  intros Ha Hsmall Hb. destruct (Z.eq_dec a 0) as [->|Hne]; [done|].
  assert (Ha' : 0 < a) by lia.
  assert (HL : floor_log2_quot a b ≤ 52).
  { destruct (floor_log2_quot_spec a b Ha' Hb) as [Hlow _].
    apply Z.nlt_ge. intros Hge.
    apply (ge_pow2_anti a b _ 53) in Hlow; [|done|done|lia].
    unfold ge_pow2 in Hlow.
    rewrite Z.max_l, Z.max_r, Z.pow_0_r in Hlow by lia. lia. }
  assert (He : ulp_exp a b ≤ 0) by (unfold ulp_exp; lia).
  assert (He' : - 1074 ≤ ulp_exp a b) by (unfold ulp_exp; lia).
  unfold int_true_div. rewrite true_div_unfold by done.
  unfold overflows.
  rewrite (proj2 (Z.ltb_ge 971 _)) by lia.
  rewrite (proj2 (Z.eqb_neq _ 971)) by lia. simpl. f_equal.
  set (s := - ulp_exp a b).
  assert (Hs : 0 ≤ s) by (unfold s; lia).
  assert (Hps : 0 < 2 ^ s) by (by apply pow2_gt0).
  assert (Hnum : num a (ulp_exp a b) = a * 2 ^ s).
  { unfold num. by rewrite Z.max_l by lia. }
  assert (Hden : den b (ulp_exp a b) = b).
  { unfold den. rewrite Z.max_r by lia. rewrite Z.pow_0_r. lia. }
  assert (Hint : to_int (Float (significand a b) (ulp_exp a b))
                 = significand a b / 2 ^ s).
  { destruct (Z.eq_dec (ulp_exp a b) 0) as [H0|H0].
    - rewrite to_int_nonneg_exp by lia. unfold s. rewrite H0. simpl.
      by rewrite Z.div_1_r, Z.mul_1_r.
    - rewrite to_int_neg_exp by lia. reflexivity. }
  rewrite Hint. clear Hint.
  pose proof (Z.div_mod a b ltac:(lia)) as Hab.
  pose proof (Z.mod_pos_bound a b Hb) as Hr.
  set (k := a / b) in *. set (r := a mod b) in *.
  assert (Hlow : k * 2 ^ s ≤ significand a b).
  { unfold significand. rewrite Hnum, Hden. apply rne_lower; [done|]. nia. }
  assert (Hup : significand a b < (k + 1) * 2 ^ s).
  { unfold significand. rewrite Hnum, Hden.
    pose proof (Z.div_mod (a * 2 ^ s) b ltac:(lia)) as Hxb.
    pose proof (Z.mod_pos_bound (a * 2 ^ s) b Hb) as Hrho.
    set (x := (a * 2 ^ s) / b) in *. set (rho := (a * 2 ^ s) mod b) in *.
    assert (Hx : x < (k + 1) * 2 ^ s) by nia.
    destruct (rne_cases (a * 2 ^ s) b Hb) as [[-> _]|[-> Hround]]; [done|].
    fold rho in Hround. fold x.
    destruct (Z.eq_dec x ((k + 1) * 2 ^ s - 1)) as [Hedge|Hin]; [|lia].
    exfalso.
    assert (Hrho' : rho = b - 2 ^ s * (b - r)) by nia.
    assert (Hbig : 2 * 2 ^ s ≤ b) by nia.
    destruct (Z.le_gt_cases (- 1074) (floor_log2_quot a b - 52)) as [Hnorm|Hsub].
    - pose proof (scaled_above a b Ha' Hb Hnorm) as Habove.
      rewrite Hnum, Hden in Habove.
      change (2 ^ 53) with (2 * 2 ^ 52) in Hsmall. nia.
    - destruct (scaled_subnormal a b Ha' Hb Hsub) as [He0 Hbelow].
      rewrite He0 in Hnum, Hden. rewrite Hnum, Hden in Hbelow.
      assert (Hs' : s = 1074) by (unfold s; lia).
      assert (Hx52 : x < 2 ^ 52) by nia.
      assert (Hpow : 2 ^ 53 ≤ 2 ^ s) by (apply pow2_le; lia).
      assert (0 ≤ k) by (apply Z.div_pos; lia).
      assert (2 ^ s ≤ (k + 1) * 2 ^ s) by nia.
      lia. }
  symmetry. apply Z.div_unique with (r := significand a b - k * 2 ^ s); lia.
Qed.

End PyFloatFacts.

(** ** Execution of compound programs *)

Section ExecFacts.

Context (E : environment).

Lemma exec_bind {A B} (p : prog A) (f : A → prog B) c :
  exec E (bind p f) c =
  match exec E p c with
  | (Returned a, c') => exec E (f a) c'
  | (Raised e, c') => (Raised e, c')
  end.
Proof. revert c. induction p as [a|e|X e k IH]; intros c; simpl; auto. Qed.

Lemma exec_try_except {A} (p : prog A) h c :
  exec E (try_except p h) c =
  match exec E p c with
  | (Returned a, c') => (Returned a, c')
  | (Raised e, c') => exec E (h e) c'
  end.
Proof. revert c. induction p as [a|e|X e k IH]; intros c; simpl; auto. Qed.

Lemma exec_try_finally {A} (p : prog A) q c :
  exec E (try_finally p q) c =
  match exec E p c with
  | (Returned a, c') =>
      match exec E q c' with
      | (Returned _, c'') => (Returned a, c'')
      | (Raised e, c'') => (Raised e, c'')
      end
  | (Raised e, c') =>
      match exec E q c' with
      | (Returned _, c'') => (Raised e, c'')
      | (Raised e', c'') => (Raised e', c'')
      end
  end.
Proof.
  revert c. induction p as [a|e|X e k IH]; intros c; simpl; auto.
  - rewrite exec_bind. destruct (exec E q c) as [[]]; reflexivity.
  - rewrite exec_bind. destruct (exec E q c) as [[]]; reflexivity.
Qed.

Lemma interfere_nil {X} (e : eff X) s : interfere e [] s = ([], s).
Proof. destruct e; reflexivity. Qed.

(** Without interference there is none later either. *)
Lemma exec_nil {A} (p : prog A) s : (exec E p ([], s)).2.1 = [].
Proof.
  revert s. induction p as [a|e|X e k IH]; intros s; simpl; auto.
  rewrite interfere_nil. simpl. apply IH.
Qed.

Lemma exec_run {A} (p : prog A) s :
  exec E p ([], s) = ((run E p s).1, ([], (run E p s).2)).
Proof.
  unfold run. simpl. pose proof (exec_nil p s) as H.
  destruct (exec E p ([], s)) as [r [sched s']]. simpl in *. by subst.
Qed.

Lemma run_bind {A B} (p : prog A) (f : A → prog B) s :
  run E (bind p f) s =
  match run E p s with
  | (Returned a, s') => run E (f a) s'
  | (Raised e, s') => (Raised e, s')
  end.
Proof.
  unfold run at 1. rewrite exec_bind, exec_run.
  destruct (run E p s) as [[a|e] s']; reflexivity.
Qed.

Lemma exec_send m c :
  exec E (send_message m) c = (Returned tt, (c.1, set_stdout (stdout c.2 ++ [m]) c.2)).
Proof. reflexivity. Qed.

Lemma exec_log t c :
  exec E (write_log t) c = (Returned tt, (c.1, set_logfile (logfile c.2 ++ [t]) c.2)).
Proof. reflexivity. Qed.

End ExecFacts.

(** ** Framed channel: [read_message] and the end of the session loop *)

Section Channel.

Context (E : environment).

Lemma firstn_app_exact {A} (l1 l2 : list A) n :
  length l1 = n → take n (l1 ++ l2) = l1 ∧ drop n (l1 ++ l2) = l2.
Proof.
  intros <-. split; [apply take_app_length | apply drop_app_length].
Qed.

(** What [read_message] does on a frame whose body is cut short: the four
    bytes of the prefix are there, they declare [n] bytes, and only
    [data], shorter than [n], follows before the stream ends. *)
Lemma read_message_short raw data n s :
  stdin s = (raw ++ data)%list →
  unpack_u32_le raw = Some n →
  len data < n →
  run E read_message s =
  (match data with
   | [] => Returned JNull
   | _ => match json_loads E data with
          | inl e => Raised (library e)
          | inr v => Returned v
          end
   end, set_stdin [] s).
Proof.
  intros Hin Hraw Hlen.
  assert (Hr : length raw = 4%nat).
  { destruct raw as [|? [|? [|? [|? [|? ?]]]]]; simpl in Hraw;
      try discriminate Hraw; reflexivity. }
  destruct (firstn_app_exact raw data 4 Hr) as [Ht Hd].
  unfold run, read_message. simpl. rewrite Hin.
  change (Z.to_nat 4) with 4%nat. rewrite Ht, Hd.
  destruct raw as [|b0 raw]; [discriminate Hr|].
  rewrite bool_decide_eq_false_2 by discriminate.
  rewrite Hraw. simpl.
  assert (Hn : (length data ≤ Z.to_nat n)%nat) by (unfold len in Hlen; lia).
  rewrite take_ge, drop_ge by exact Hn.
  destruct data as [|d data]; simpl; [reflexivity|].
  destruct (json_loads E (d :: data)); reflexivity.
Qed.

End Channel.

Section ChannelClaims.

Context (E : environment).

Lemma run_main_turn_read s r s' :
  run E read_message s = (r, s') →
  run E main_turn s =
  match r with
  | Returned JNull => (Returned false, s')
  | Returned JOther =>
      (Raised (Error "AttributeError" "object has no attribute 'get'"), s')
  | Returned (JObject m) => run E (dispatch m) s'
  | Raised e => (Raised e, s')
  end.
Proof.
  intros Hrun. unfold main_turn. rewrite run_bind, Hrun.
  destruct r as [[| |]|]; reflexivity.
Qed.

(** C3, as the code has it.  When the length prefix is read in full and the
    body that follows is shorter than declared, [read_message] does not
    compare lengths: with no body byte at all it returns the end-of-stream
    value; otherwise it hands the bytes it got to the JSON decoder, fails
    exactly when they do not decode (the exception is not caught in [main]:
    the process ends), and returns what they decode to when they do. *)
Theorem C3_short_body_goes_to_decoder raw data n s :
  stdin s = (raw ++ data)%list →
  unpack_u32_le raw = Some n →
  len data < n →
  (data = [] → run E read_message s = (Returned JNull, set_stdin [] s)) ∧
  (data ≠ [] → ∀ e, json_loads E data = inl e →
     run E read_message s = (Raised (library e), set_stdin [] s) ∧
     step E (s, InLoop) (set_stdin [] s, Crashed (library e))) ∧
  (data ≠ [] → ∀ v, json_loads E data = inr v →
     run E read_message s = (Returned v, set_stdin [] s)).
Proof.
  intros Hin Hraw Hlen.
  pose proof (read_message_short E raw data n s Hin Hraw Hlen) as Hrun.
  split; [|split].
  - intros ->. exact Hrun.
  - intros Hne e He. destruct data as [|d data]; [done|].
    rewrite He in Hrun. split; [exact Hrun|].
    apply (step_main E s (Raised (library e))).
    rewrite (run_main_turn_read _ _ _ Hrun). reflexivity.
  - intros Hne v Hv. destruct data as [|d data]; [done|].
    rewrite Hv in Hrun. exact Hrun.
Qed.


(** C9.  A frame whose prefix declares length zero reads as the end of the
    stream: [read_message] returns the end-of-stream value, the loop of
    [main] breaks, and the process has ended normally. *)
Theorem C9_zero_length_frame_ends_session rest s :
  stdin s = (Byte.x00 :: Byte.x00 :: Byte.x00 :: Byte.x00 :: rest) →
  run E read_message s = (Returned JNull, set_stdin rest s) ∧
  run E main_turn s = (Returned false, set_stdin rest s) ∧
  step E (s, InLoop) (set_stdin rest s, Exited) ∧
  (∀ x, ¬ step E (set_stdin rest s, Exited) x).
Proof.
  intros Hin.
  assert (Hrun : run E read_message s = (Returned JNull, set_stdin rest s)).
  { unfold run, read_message. simpl. rewrite Hin. reflexivity. }
  split; [exact Hrun|]. split; [|split].
  - rewrite (run_main_turn_read _ _ _ Hrun). reflexivity.
  - apply (step_main E s (Returned false)).
    rewrite (run_main_turn_read _ _ _ Hrun). reflexivity.
  - intros x Hstep. inversion Hstep.
Qed.


End ChannelClaims.

Lemma C3_short_body_goes_to_decoder_witness :
  let s := set_stdin [Byte.x05; Byte.x00; Byte.x00; Byte.x00; Byte.x7b] Demo.start in
  run Demo.env read_message s
  = (Raised (Error "JSONDecodeError" "Expecting value"), set_stdin [] s).
Proof.
  intros s.
  refine (proj1 (proj1 (proj2 (C3_short_body_goes_to_decoder Demo.env
            [Byte.x05; Byte.x00; Byte.x00; Byte.x00] [Byte.x7b] 5 s _ _ _))
            _ (OsError "JSONDecodeError" "Expecting value") _)).
  - reflexivity.
  - reflexivity.
  - unfold len. simpl. lia.
  - discriminate.
  - reflexivity.
Defined.

Lemma C9_zero_length_frame_ends_session_witness :
  let s := set_stdin [Byte.x00; Byte.x00; Byte.x00; Byte.x00; Byte.x7b; Byte.x7d]
                     Demo.start in
  run Demo.env main_turn s = (Returned false, set_stdin [Byte.x7b; Byte.x7d] s).
Proof.
  intros s.
  exact (proj1 (proj2 (C9_zero_length_frame_ends_session Demo.env
                         [Byte.x7b; Byte.x7d] s eq_refl))).
Defined.

(** C3 as stated fails: a prefix declaring five bytes followed by the end of
    the stream reads as a clean end of stream, and a prefix declaring five
    bytes followed by the two bytes [{}] reads as the object [{}]. *)
Lemma C3_counterexample :
  let prefix := [Byte.x05; Byte.x00; Byte.x00; Byte.x00] in
  let s1 := set_stdin prefix Demo.start in
  let s2 := set_stdin (prefix ++ [Byte.x7b; Byte.x7d]) Demo.start in
  unpack_u32_le prefix = Some 5 ∧
  len (@nil byte) < 5 ∧ len [Byte.x7b; Byte.x7d] < 5 ∧
  run Demo.env read_message s1 = (Returned JNull, set_stdin [] s1) ∧
  run Demo.env read_message s2 = (Returned (JObject ∅), set_stdin [] s2) ∧
  ¬ (∀ raw data n s, stdin s = (raw ++ data)%list → unpack_u32_le raw = Some n →
       len data < n → ∃ e, (run Demo.env read_message s).1 = Raised e).
Proof.
  repeat split; try reflexivity.
  intros H.
  destruct (H [Byte.x05; Byte.x00; Byte.x00; Byte.x00] [] 5
              (set_stdin [Byte.x05; Byte.x00; Byte.x00; Byte.x00] Demo.start)
              eq_refl eq_refl eq_refl) as [e He].
  discriminate He.
Qed.

(** ** What the operating system finds at a path *)

Section OsLookup.

Lemma tail_rev {A} (l : list A) : tail (rev l) = rev (removelast l).
Proof.
  induction l as [|x l _] using rev_ind; [done|].
  by rewrite rev_unit, removelast_last.
Qed.

(** Where the operating system finds something, the path string leads
    there. *)
Lemma os_walk_found fs comps : ∀ cur k n,
  Fs.os_walk fs cur comps = Fs.Found k n →
  Fs.walk (rev cur) comps = k ∧ Fs.node_at fs k = Some n.
Proof.
  induction comps as [|c cs IH]; intros cur k n; simpl.
  - rewrite rev_involutive.
    destruct (Fs.node_at fs cur) as [[| |]|] eqn:Hnode; try discriminate.
    all: by intros [= <- <-].
  - destruct (Fs.node_at fs cur) as [[| |]|]; try discriminate.
    destruct (String.eqb c "" || String.eqb c ".")%bool; [apply IH|].
    destruct (String.eqb c "..").
    + rewrite tail_rev. apply IH.
    + intros H. apply IH in H. by rewrite rev_unit in H.
Qed.

Lemma os_lookup_found fs wd p k n :
  Fs.os_lookup fs wd p = Fs.Found k n →
  Fs.locate wd p = Some k ∧ Fs.node_at fs k = Some n.
Proof.
  unfold Fs.os_lookup, Fs.locate.
  destruct (negb (Py.truthy p)); [discriminate|].
  intros H. apply os_walk_found in H as [Hwalk Hnode].
  split; [|done]. f_equal. rewrite <- Hwalk.
  by destruct (Py.startswith p "/").
Qed.






End OsLookup.

(** ** The session loop: [dispatch] *)

Section Dispatch.

Context (E : environment).


Lemma run_check_install_dir path s :
  run E (check_install_dir path) s =
  (Returned
     (if Py.truthy (normalized_path E path) then
        match node_of E s (normalized_path E path) with
        | Some Dir => (true, normalized_path E path, "")
        | _ => (false, normalized_path E path, "目录不存在或不是文件夹")
        end
      else (false, "", "目录为空")), s).
Proof.
  unfold check_install_dir, normalize_path, normalized_path, run.
  destruct (Py.truthy path); simpl.
  - destruct (Py.truthy (expanduser E (expandvars E path))); simpl; [|reflexivity].
    destruct (node_of E s (expanduser E (expandvars E path))) as [[| |]|];
      reflexivity.
  - reflexivity.
Qed.

Ltac pick_command H :=
  unfold dispatch; rewrite H;
  repeat first
    [ rewrite (bool_decide_eq_true_2 _ eq_refl)
    | rewrite bool_decide_eq_false_2 by discriminate ].


(** A [start_update] received while the update thread is alive is
    answered by one error status and one log line, and nothing else
    changes. *)
Lemma start_update_rejected msg s t code :
  msg !! "cmd" = Some "start_update" →
  update_thread s = Some t →
  threads s !! t = Some (Running code) →
  ∃ s',
    run E (dispatch msg) s = (Returned true, s') ∧
    stdout s' = (stdout s ++ [Failed "已有更新任务正在执行"])%list ∧
    logfile s' = (logfile s ++ ["reject: update already running"])%list ∧
    threads s' = threads s ∧
    next_tid s' = next_tid s ∧
    update_thread s' = Some t ∧
    cancel_event s' = cancel_event s ∧
    files s' = files s ∧
    stdin s' = stdin s.
Proof.
  intros Hcmd Hslot Hthread.
  pick_command Hcmd.
  unfold run. simpl. rewrite Hslot. simpl. rewrite Hthread. simpl.
  eexists. split; [reflexivity|]. simpl. rewrite Hslot. done.
Qed.

(** What [dispatch] does with an accepted [start_update]. *)
Lemma run_start_update_accepted msg s :
  msg !! "cmd" = Some "start_update" →
  (∀ t code, update_thread s = Some t → threads s !! t ≠ Some (Running code)) →
  run E (dispatch msg) s =
  (Returned true,
   set_threads (<[next_tid s := Running (run_update msg)]>
                  (<[next_tid s := Created msg]> (threads s)))
     (set_update_thread (Some (next_tid s))
        (set_next_tid (S (next_tid s))
           (set_logfile (logfile s ++ ["start_update: thread created"])
              (set_cancel_event false s))))).
Proof.
  intros Hcmd Hidle.
  pick_command Hcmd.
  unfold run. simpl.
  assert (Hdead : match update_thread s with
                  | Some t => match threads s !! t with
                              | Some (Running _) => true | _ => false end
                  | None => false
                  end = false).
  { destruct (update_thread s) as [t|] eqn:Hs; [|reflexivity].
    destruct (threads s !! t) as [[|code]|] eqn:Ht; try reflexivity.
    exfalso. exact (Hidle t code eq_refl Ht). }
  destruct (update_thread s) as [t|]; simpl.
  - rewrite Hdead. simpl. rewrite lookup_insert_eq. reflexivity.
  - rewrite lookup_insert_eq. reflexivity.
Qed.

(** The one thread an accepted [start_update] starts is started after
    [cancel_event.clear()]. *)
Lemma spawn_start_update_accepted msg s :
  msg !! "cmd" = Some "start_update" →
  (∀ t code, update_thread s = Some t → threads s !! t ≠ Some (Running code)) →
  spawn_states E (dispatch msg) ([], s) =
  [set_update_thread (Some (next_tid s))
     (set_next_tid (S (next_tid s))
        (set_threads (<[next_tid s := Created msg]> (threads s))
           (set_logfile (logfile s ++ ["start_update: thread created"])
              (set_cancel_event false s))))].
Proof.
  intros Hcmd Hidle.
  pick_command Hcmd.
  simpl.
  assert (Hdead : match update_thread s with
                  | Some t => match threads s !! t with
                              | Some (Running _) => true | _ => false end
                  | None => false
                  end = false).
  { destruct (update_thread s) as [t|] eqn:Hs; [|reflexivity].
    destruct (threads s !! t) as [[|code]|] eqn:Ht; try reflexivity.
    exfalso. exact (Hidle t code eq_refl Ht). }
  destruct (update_thread s) as [t|]; simpl.
  - rewrite Hdead. reflexivity.
  - reflexivity.
Qed.

(** What [dispatch] does with [cancel_update]. *)
Lemma run_cancel_update msg s :
  msg !! "cmd" = Some "cancel_update" →
  run E (dispatch msg) s =
  (Returned true,
   set_stdout (stdout s ++ [Log "已发送取消指令"])
     (set_logfile (logfile s ++ ["cancel_update: received"])
        (set_cancel_event true s))).
Proof. intros Hcmd. pick_command Hcmd. reflexivity. Qed.

End Dispatch.



(** ** Path strings *)

Section PathStrings.

Import PosixPath.

Lemma split_not_nil c s : Py.split c s ≠ [].
Proof.
  destruct s as [|a s]; simpl; [discriminate|].
  destruct (Ascii.eqb a c); [discriminate|].
  destruct (Py.split c s); discriminate.
Qed.

Lemma split_app c a b :
  Py.split c (a ++ String c b) = (Py.split c a ++ Py.split c b)%list.
Proof.
  induction a as [|x a IH]; simpl.
  - rewrite Ascii.eqb_refl. reflexivity.
  - destruct (Ascii.eqb x c); [by rewrite IH|].
    rewrite IH. destruct (Py.split c a) as [|h t] eqn:Hs; [|reflexivity].
    by destruct (split_not_nil c a).
Qed.


Lemma split_plain s : plain s = true → Py.split sep s = [s].
Proof.
  induction s as [|a s IH]; simpl; [done|].
  destruct (Ascii.eqb a sep); simpl; [done|].
  intros H. by rewrite (IH H).
Qed.

Lemma split_parts_plain s x : x ∈ Py.split sep s → plain x = true.
Proof.
  revert x. induction s as [|a s IH]; simpl; intros x Hx.
  - apply list_elem_of_singleton in Hx. by subst.
  - destruct (Ascii.eqb a sep) eqn:Ha.
    + apply elem_of_cons in Hx as [->|Hx]; [done|by apply IH].
    + destruct (Py.split sep s) as [|h t] eqn:Hs.
      * apply list_elem_of_singleton in Hx. subst. simpl. by rewrite Ha.
      * apply elem_of_cons in Hx as [->|Hx].
        -- simpl. rewrite Ha. simpl. apply IH. left.
        -- apply IH. by right.
Qed.

Lemma join_cons_cons p q l :
  Py.join "/" (p :: q :: l) = p ++ String sep (Py.join "/" (q :: l)).
Proof. reflexivity. Qed.

(** Splitting what [join] assembled from separator-free components. *)
Lemma split_join l :
  l ≠ [] → Forall (λ x, plain x = true) l →
  Py.split sep (Py.join "/" l) = l.
Proof.
  induction l as [|p [|q l] IH]; intros Hne Hall; [done| |].
  - simpl. apply split_plain. by inversion Hall.
  - rewrite join_cons_cons, split_app.
    inversion Hall as [|? ? Hp Hrest]; subst.
    rewrite (split_plain p Hp), IH; [done|discriminate|done].
Qed.

Lemma common_prefix_prefix l1 l2 : common_prefix l1 l2 `prefix_of` l1.
Proof.
  revert l2. induction l1 as [|a l1 IH]; intros [|b l2]; simpl;
    try apply prefix_nil.
  destruct (String.eqb a b); [|apply prefix_nil].
  apply prefix_cons, IH.
Qed.

Lemma common_prefix_prefix_r l1 l2 : common_prefix l1 l2 `prefix_of` l2.
Proof.
  revert l2. induction l1 as [|a l1 IH]; intros [|b l2]; simpl;
    try apply prefix_nil.
  destruct (String.eqb a b) eqn:Hab; [|apply prefix_nil].
  apply String.eqb_eq in Hab as ->. apply prefix_cons, IH.
Qed.

Lemma clean_comps_parts p x :
  x ∈ clean_comps p → plain x = true ∧ x ≠ "" ∧ x ≠ ".".
Proof.
  unfold clean_comps. intros Hx. apply list_elem_of_filter in Hx as [[? ?] Hx].
  split; [|done]. by apply split_parts_plain in Hx.
Qed.

(** The components of a path assembled from clean components. *)
Lemma clean_comps_join (rooted : bool) l :
  Forall (λ x, plain x = true ∧ x ≠ "" ∧ x ≠ ".") l →
  clean_comps ((if rooted then "/" else "") ++ Py.join "/" l) = l.
Proof.
  intros Hall.
  assert (Hkeep : filter (λ c, c ≠ "" ∧ c ≠ ".") l = l).
  { induction Hall as [|x l [? [? ?]] _ IH]; [done|].
    rewrite filter_cons_True by done. by rewrite IH. }
  assert (Hsplit : filter (λ c, c ≠ "" ∧ c ≠ ".") (Py.split sep (Py.join "/" l)) = l).
  { destruct l as [|p l]; [done|].
    rewrite split_join; [done|discriminate|].
    eapply Forall_impl; [exact Hall|]. by intros ? [? _]. }
  unfold clean_comps. destruct rooted; [|exact Hsplit].
  change ("/" ++ Py.join "/" l) with ("" ++ String sep (Py.join "/" l)).
  rewrite split_app. simpl. rewrite filter_cons_False by (intros [? _]; done).
  exact Hsplit.
Qed.


(** The test [commonpath([target, root]) == root] only succeeds for a
    target nested under the root. *)
Lemma commonpath_nested target root :
  commonpath target root = Some root → nested_under root target.
Proof.
  unfold commonpath, nested_under.
  destruct (Bool.eqb _ _) eqn:Habs; simpl; [|discriminate].
  apply Bool.eqb_prop in Habs. intros [= Hroot]. split; [done|].
  set (common := common_prefix (clean_comps target) (clean_comps root)) in *.
  assert (Hparts : Forall (λ x, plain x = true ∧ x ≠ "" ∧ x ≠ ".") common).
  { apply Forall_forall. intros x Hx. apply (clean_comps_parts target).
    destruct (common_prefix_prefix (clean_comps target) (clean_comps root))
      as [k Hk]. fold common in Hk. rewrite Hk. apply elem_of_app. by left. }
  pose proof (clean_comps_join (Py.startswith target "/") common Hparts) as Hcc.
  rewrite Hroot in Hcc. rewrite Hcc. apply common_prefix_prefix.
Qed.

End PathStrings.

(** ** Safety guard: [ensure_clean_target_dir] *)


(** C1 does not hold of the code.  [ensure_clean_target_dir] compares path
    strings: it takes [/home/u/.cjt-helper/../docs] for a path under the
    safe root [/home/u/.cjt-helper].  What the operating system finds
    there is the directory [/home/u/docs]: it lies outside the safe root,
    its name is not [cjt-helper] in any letter case, and the function
    removes its entry [a.txt]. *)
Lemma C1_cleaning_escapes_safe_root :
  let target := "/home/u/.cjt-helper/../docs" in
  let s := Demo.with_docs in
  let r := exec Demo.env (ensure_clean_target_dir target) ([], s) in
  Fs.os_lookup (files s) (cwd Demo.env) target
  = Fs.Found ["home"; "u"; "docs"] Dir ∧
  Fs.os_lookup (files s) (cwd Demo.env) (safe_root Demo.env)
  = Fs.Found ["home"; "u"; ".cjt-helper"] Dir ∧
  ¬ ["home"; "u"; ".cjt-helper"] `prefix_of` ["home"; "u"; "docs"] ∧
  Py.lower (PosixPath.basename (PosixPath.normpath target)) ≠ allowed_name ∧
  files s !! ["home"; "u"; "docs"; "a.txt"] = Some (File [Byte.x61]) ∧
  r.1 = Returned tt ∧
  files r.2.2 !! ["home"; "u"; "docs"; "a.txt"] = None.
Proof.
  split; [|split; [|split; [|split; [|split; [|split]]]]].
  - vm_compute. reflexivity.
  - vm_compute. reflexivity.
  - intros [l Hl]. discriminate Hl.
  - vm_compute. discriminate.
  - vm_compute. reflexivity.
  - vm_compute. reflexivity.
  - vm_compute. reflexivity.
Qed.

(** The name test of [ensure_clean_target_dir] ignores the case of the
    letters: [/opt/CJT-Helper] is not nested under the safe root, its last
    component is not [cjt-helper] letter for letter, and its entry
    [old.txt] is removed. *)
Lemma allowed_name_ignores_case :
  let target := "/opt/CJT-Helper" in
  let s' := (exec Demo.env (ensure_clean_target_dir target) ([], Demo.start)).2.2 in
  Fs.os_lookup (files Demo.start) (cwd Demo.env) target
  = Fs.Found ["opt"; "CJT-Helper"] Dir ∧
  ¬ PosixPath.nested_under (safe_root Demo.env) target ∧
  PosixPath.basename (PosixPath.normpath target) ≠ allowed_name ∧
  files Demo.start !! ["opt"; "CJT-Helper"; "old.txt"] = Some (File [Byte.x6f]) ∧
  files s' !! ["opt"; "CJT-Helper"; "old.txt"] = None.
Proof.
  split; [|split; [|split; [|split]]].
  - vm_compute. reflexivity.
  - intros [_ Hpre]. vm_compute in Hpre. destruct Hpre as [k Hk]. discriminate Hk.
  - vm_compute. discriminate.
  - vm_compute. reflexivity.
  - vm_compute. reflexivity.
Qed.

(** ** Downloader: the progress percentages *)

Section DownloadProgress.

Context (E : environment).

Import PyFloat.

Lemma received_nonneg chunks : 0 ≤ received chunks.
Proof.
  induction chunks as [|[e|ch] rest IH]; simpl; [lia|lia|]. unfold len. lia.
Qed.

(** One turn of the loop. *)
Lemma exec_download_loop_cons dest total ch rest d lp sched s :
  exec E (download_loop dest total (ch :: rest) d lp) (sched, s) =
  let s1 := if hd false sched then set_cancel_event true s else s in
  if cancel_event s1 then (Raised (UpdateCanceled canceled_text), (tail sched, s1))
  else
    match ch with
    | inl err => (Raised (library err), (tail sched, s1))
    | inr chunk =>
        if bool_decide (chunk = []) then (Returned tt, (tail sched, s1))
        else
          let w := Fs.write (cwd E) (files s1) dest chunk in
          let s2 := set_files w.2 s1 in
          match w.1 with
          | inl err => (Raised (library err), (tail sched, s2))
          | inr _ =>
              let d' := d + len chunk in
              if 0 <? total then
                match int_true_div (d' * 100) total with
                | None =>
                    (Raised (Error "OverflowError"
                               "integer division result too large for a float"),
                     (tail sched, s2))
                | Some p =>
                    if bool_decide (p ≠ lp) then
                      exec E (download_loop dest total rest d' p)
                        (tail sched,
                         set_stdout (stdout s2 ++ [download_event p]) s2)
                    else exec E (download_loop dest total rest d' lp) (tail sched, s2)
                end
              else if d' `mod` (CHUNK_SIZE * 20) =? 0 then
                exec E (download_loop dest total rest d' lp)
                  (tail sched,
                   set_stdout (stdout s2 ++ [Progress "download" 0 "正在下载更新包..."]) s2)
              else exec E (download_loop dest total rest d' lp) (tail sched, s2)
          end
    end.
Proof.
  simpl.
  destruct (cancel_event (if hd false sched then set_cancel_event true s else s));
    [reflexivity|].
  destruct ch as [err|chunk]; [reflexivity|].
  destruct (bool_decide (chunk = [])); [reflexivity|]. simpl.
  destruct (Fs.write _ _ dest chunk) as [[err|[]] fs']; [reflexivity|]. simpl.
  destruct (0 <? total).
  - unfold percent_of. destruct (int_true_div _ total); [|reflexivity]. simpl.
    destruct (bool_decide (z ≠ lp)); reflexivity.
  - destruct (_ =? 0); reflexivity.
Qed.

Lemma exec_download_loop_nil dest total d lp sched s :
  exec E (download_loop dest total [] d lp) (sched, s) =
  let s1 := if hd false sched then set_cancel_event true s else s in
  (if cancel_event s1 then Raised (UpdateCanceled canceled_text) else Returned tt,
   (tail sched, s1)).
Proof.
  simpl.
  destruct (cancel_event (if hd false sched then set_cancel_event true s else s));
    reflexivity.
Qed.

(** Every progress message of the loop carries [int(x * 100 / total)] for
    the number [x] of bytes received so far, and the percentages go up
    strictly, starting above the last one reported. *)
Lemma download_loop_progress dest total chunks :
  0 < total →
  ∀ d lp c,
    0 ≤ d →
    lp = -1 ∨ int_true_div (d * 100) total = Some lp →
    ∃ ps : list (Z * Z),
      stdout (exec E (download_loop dest total chunks d lp) c).2.2
      = (stdout c.2 ++ map (λ xp, download_event xp.2) ps)%list ∧
      Forall (λ xp, (∃ n, xp.1 = d + received (take n chunks)) ∧
                    int_true_div (xp.1 * 100) total = Some xp.2) ps ∧
      StronglySorted Z.lt (lp :: map snd ps).
Proof.
  intros Htotal.
  induction chunks as [|ch rest IH]; intros d lp [sched s] Hd Hlp.
  - exists []. rewrite exec_download_loop_nil. simpl. rewrite app_nil_r.
    split; [by destruct (hd false sched)|]. split; repeat constructor.
  - rewrite exec_download_loop_cons. cbv zeta.
    set (s1 := if hd false sched then set_cancel_event true s else s).
    assert (Hout1 : stdout s1 = stdout s)
      by (subst s1; destruct (hd false sched); reflexivity).
    assert (Hstop : ∀ s2 : sys, stdout s2 = stdout s1 →
              ∃ ps : list (Z * Z),
                stdout s2 = (stdout s ++ map (λ xp, download_event xp.2) ps)%list ∧
                Forall (λ xp, (∃ n, xp.1 = d + received (take n (ch :: rest))) ∧
                              int_true_div (xp.1 * 100) total = Some xp.2) ps ∧
                StronglySorted Z.lt (lp :: map snd ps)).
    { intros s2 Hs2. exists []. simpl. rewrite app_nil_r, Hs2, Hout1.
      split; [done|]. split; repeat constructor. }
    destruct (cancel_event s1); [by apply Hstop|].
    destruct ch as [err|chunk]; [by apply Hstop|].
    case_bool_decide; [by apply Hstop|].
    destruct (Fs.write (cwd E) (files s1) dest chunk) as [[err|[]] fs'] eqn:Hw;
      simpl; [by apply Hstop|].
    rewrite (proj2 (Z.ltb_lt 0 total) Htotal).
    assert (Hlen : 0 ≤ len chunk) by (unfold len; lia).
    destruct (int_true_div ((d + len chunk) * 100) total) as [p|] eqn:Hp;
      [|by apply Hstop].
    assert (Hshift : ∀ ps : list (Z * Z),
              Forall (λ xp, (∃ n, xp.1 = d + len chunk + received (take n rest)) ∧
                            int_true_div (xp.1 * 100) total = Some xp.2) ps →
              Forall (λ xp, (∃ n, xp.1 = d + received (take n (inr chunk :: rest))) ∧
                            int_true_div (xp.1 * 100) total = Some xp.2) ps).
    { intros ps Hps. eapply Forall_impl; [exact Hps|].
      intros xp [[n Hn] Hx]. split; [|done]. exists (S n). simpl.
      by rewrite Hn, Z.add_assoc. }
    case_bool_decide as Hne.
    + destruct (IH (d + len chunk) p
                  (tail sched,
                   set_stdout (stdout (set_files fs' s1) ++ [download_event p])
                     (set_files fs' s1)))
        as (ps & Hout & Hall & Hsorted); [lia|by right|].
      exists ((d + len chunk, p) :: ps). split; [|split].
      * etrans; [exact Hout|]. simpl. rewrite Hout1, <- app_assoc. reflexivity.
      * constructor; [|by apply Hshift]. simpl. split; [|done].
        exists 1%nat. simpl. by rewrite Z.add_0_r.
      * assert (Hlt : lp < p).
        { destruct Hlp as [->|Hlp].
          - assert (Hnn : 0 ≤ (d + len chunk) * 100) by lia.
            pose proof (PyFloatFacts.int_true_div_nonneg _ _ _ Hnn Htotal Hp).
            lia.
          - assert (Hnn : 0 ≤ d * 100) by lia.
            assert (Hle : d * 100 ≤ (d + len chunk) * 100) by lia.
            pose proof (PyFloatFacts.int_true_div_mono _ _ _ _ _
                          Hnn Hle Htotal Hlp Hp).
            lia. }
        constructor; [done|]. constructor; [done|].
        apply StronglySorted_inv in Hsorted as [_ Hall'].
        eapply Forall_impl; [exact Hall'|]. simpl. lia.
    + assert (p = lp) as -> by (by destruct (decide (p = lp))).
      destruct (IH (d + len chunk) lp (tail sched, set_files fs' s1))
        as (ps & Hout & Hall & Hsorted); [lia|by right|].
      exists ps. split; [|split]; [|by apply Hshift|done].
      etrans; [exact Hout|]. simpl. by rewrite Hout1.
Qed.

Lemma sorted_lt_nodup (l : list Z) : StronglySorted Z.lt l → NoDup l.
Proof.
  induction 1 as [|x l _ IH Hall]; constructor; [|done].
  intros Hin. rewrite Forall_forall in Hall. specialize (Hall x Hin). lia.
Qed.

End DownloadProgress.

Section DownloadPercentages.

Context (E : environment).

Lemma reported_percents_sorted total chunks :
  0 < total →
  ∀ d lp, 0 ≤ d → lp ≤ d * 100 / total →
    StronglySorted Z.lt (lp :: reported_percents total chunks d lp).
Proof.
  intros Htotal. induction chunks as [|chunk rest IH]; intros d lp Hd Hlp.
  - repeat constructor.
  - simpl. assert (Hlen : 0 ≤ len chunk) by (unfold len; lia).
    assert (Hle : d * 100 / total ≤ (d + len chunk) * 100 / total)
      by (apply Z.div_le_mono; lia).
    case_bool_decide as Hne.
    + specialize (IH (d + len chunk) ((d + len chunk) * 100 / total)
                    ltac:(lia) ltac:(lia)).
      constructor; [done|]. constructor; [lia|].
      apply StronglySorted_inv in IH as [_ Hall].
      eapply Forall_impl; [exact Hall|]. simpl. lia.
    + apply IH; lia.
Qed.

(** The loop reports, for the chunks it stores, the percentages C6 asks
    for; when it returns, what is left of the body is its end. *)
Lemma download_loop_reports dest total chunks :
  0 < total →
  ∀ d lp c,
    0 ≤ d →
    (d + received chunks) * 100 < 2 ^ 53 →
    ∃ (got : list (list byte)) rest,
      chunks = (map inr got ++ rest)%list ∧
      Forall (λ chunk, chunk ≠ []) got ∧
      stdout (exec E (download_loop dest total chunks d lp) c).2.2
      = (stdout c.2 ++ map download_event (reported_percents total got d lp))%list ∧
      ((exec E (download_loop dest total chunks d lp) c).1 = Returned tt →
       at_eof rest).
Proof.
  intros Htotal.
  induction chunks as [|ch rest IH]; intros d lp [sched s] Hd Hsmall.
  - exists [], []. rewrite exec_download_loop_nil. simpl. rewrite app_nil_r.
    split; [done|]. split; [constructor|]. split; [by destruct (hd false sched)|done].
  - rewrite exec_download_loop_cons. cbv zeta.
    set (s1 := if hd false sched then set_cancel_event true s else s).
    assert (Hout1 : stdout s1 = stdout s)
      by (subst s1; destruct (hd false sched); reflexivity).
    assert (Hstop : ∀ (e : exn) (s2 : sys), stdout s2 = stdout s1 →
              ∃ (got : list (list byte)) rest',
                ch :: rest = (map inr got ++ rest')%list ∧
                Forall (λ chunk, chunk ≠ []) got ∧
                stdout (@Raised unit e, (tail sched, s2)).2.2
                = (stdout s ++ map download_event (reported_percents total got d lp))%list ∧
                ((@Raised unit e, (tail sched, s2)).1 = Returned tt → at_eof rest')).
    { intros e s2 Hs2. exists [], (ch :: rest). simpl. rewrite app_nil_r, Hs2, Hout1.
      split; [done|]. split; [constructor|]. split; [done|]. intros; discriminate. }
    destruct (cancel_event s1); [by apply Hstop|].
    destruct ch as [err|chunk]; [by apply Hstop|].
    case_bool_decide as Hempty.
    { subst chunk. exists [], (inr [] :: rest). simpl. rewrite app_nil_r, Hout1.
      split; [done|]. split; [constructor|]. done. }
    destruct (Fs.write (cwd E) (files s1) dest chunk) as [[err|[]] fs'] eqn:Hw;
      simpl; [by apply Hstop|].
    rewrite (proj2 (Z.ltb_lt 0 total) Htotal).
    assert (Hlen : 0 ≤ len chunk) by (unfold len; lia).
    pose proof (received_nonneg rest) as Hrest.
    simpl in Hsmall.
    rewrite PyFloatFacts.int_true_div_exact by lia.
    assert (Hcons : ∀ c',
              (∃ (got : list (list byte)) rest',
                 rest = (map inr got ++ rest')%list ∧
                 Forall (λ chunk, chunk ≠ []) got ∧
                 stdout (exec E (download_loop dest total rest (d + len chunk)
                           (if bool_decide ((d + len chunk) * 100 / total ≠ lp)
                            then (d + len chunk) * 100 / total else lp)) c').2.2
                 = (stdout c'.2 ++ map download_event
                      (reported_percents total got (d + len chunk)
                         (if bool_decide ((d + len chunk) * 100 / total ≠ lp)
                          then (d + len chunk) * 100 / total else lp)))%list ∧
                 ((exec E (download_loop dest total rest (d + len chunk)
                           (if bool_decide ((d + len chunk) * 100 / total ≠ lp)
                            then (d + len chunk) * 100 / total else lp)) c').1
                  = Returned tt → at_eof rest'))).
    { intros c'. apply IH; lia. }
    case_bool_decide as Hne.
    + destruct (Hcons (tail sched,
                       set_stdout (stdout (set_files fs' s1)
                                   ++ [download_event ((d + len chunk) * 100 / total)])
                         (set_files fs' s1)))
        as (got & rest' & -> & Hgot & Hout & Hret).
      exists (chunk :: got), rest'. split; [done|]. split; [by constructor|].
      split; [|exact Hret].
      etrans; [exact Hout|]. simpl. rewrite Hout1, <- app_assoc.
      rewrite (bool_decide_eq_true_2 _ Hne). reflexivity.
    + destruct (Hcons (tail sched, set_files fs' s1))
        as (got & rest' & -> & Hgot & Hout & Hret).
      exists (chunk :: got), rest'. split; [done|]. split; [by constructor|].
      split; [|exact Hret].
      etrans; [exact Hout|]. simpl. rewrite Hout1.
      rewrite bool_decide_eq_false_2 by (intros H; exact (H Hne)). reflexivity.
Qed.

(** C6.  For a download whose declared total size is positive, the chunks
    stored are the first ones of the body, and the progress messages are
    exactly the percentages [floor(downloaded * 100 / total)], taken after
    each chunk for the bytes received so far and reported when they differ
    from the last one reported.  They go up strictly, so none is reported
    twice.  When the download returns, every chunk before the end of the
    body was stored.  The body is shorter than [2^53 / 100] bytes, as every
    transfer is: the float division of Python is exact there. *)
Theorem C6_download_percentages url dest resp total c :
  urlopen E url = inr resp →
  content_length resp = Numeric total →
  0 < total →
  received (body resp) * 100 < 2 ^ 53 →
  ∃ (got : list (list byte)) rest,
    body resp = (map inr got ++ rest)%list ∧
    Forall (λ chunk, chunk ≠ []) got ∧
    stdout (exec E (download_with_progress url dest) c).2.2
    = (stdout c.2 ++ map download_event (reported_percents total got 0 (-1)))%list ∧
    ((exec E (download_with_progress url dest) c).1 = Returned tt → at_eof rest) ∧
    StronglySorted Z.lt (reported_percents total got 0 (-1)) ∧
    NoDup (reported_percents total got 0 (-1)).
Proof.
  intros Hopen Hlen Htotal Hsmall. destruct c as [sched s].
  assert (Hsorted : ∀ got,
            StronglySorted Z.lt (reported_percents total got 0 (-1)) ∧
            NoDup (reported_percents total got 0 (-1))).
  { intros got.
    assert (H : StronglySorted Z.lt (-1 :: reported_percents total got 0 (-1))).
    { apply reported_percents_sorted; [done|lia|].
      rewrite Z.mul_0_l, Z.div_0_l by lia. lia. }
    apply StronglySorted_inv in H as [H' _].
    split; [done|by apply sorted_lt_nodup]. }
  unfold download_with_progress. simpl. rewrite Hopen. simpl.
  destruct (Fs.open_wb (cwd E) (files s) dest) as [[err|[]] fs'] eqn:Hw; simpl.
  { exists [], (body resp). simpl. rewrite app_nil_r.
    split; [done|]. split; [constructor|]. split; [done|].
    split; [intros; discriminate|]. split; constructor. }
  rewrite Hlen. simpl.
  destruct (download_loop_reports dest total (body resp) Htotal 0 (-1)
              (sched, set_files fs' s) ltac:(lia) ltac:(lia))
    as (got & rest & Hbody & Hgot & Hout & Hret).
  exists got, rest. split; [done|]. split; [done|]. split; [exact Hout|].
  split; [exact Hret|]. apply Hsorted.
Qed.

End DownloadPercentages.

Lemma C6_download_percentages_witness :
  ∃ (got : list (list byte)) rest,
    body Demo.good_response = (map inr got ++ rest)%list ∧
    Forall (λ chunk, chunk ≠ []) got ∧
    stdout (exec Demo.env (download_with_progress "http://x/good.zip" "/tmp/u.zip")
              ([], Demo.start)).2.2
    = (stdout Demo.start ++ map download_event (reported_percents 3 got 0 (-1)))%list ∧
    ((exec Demo.env (download_with_progress "http://x/good.zip" "/tmp/u.zip")
        ([], Demo.start)).1 = Returned tt → at_eof rest) ∧
    StronglySorted Z.lt (reported_percents 3 got 0 (-1)) ∧
    NoDup (reported_percents 3 got 0 (-1)).
Proof.
  apply (C6_download_percentages Demo.env "http://x/good.zip" "/tmp/u.zip"
           Demo.good_response 3 ([], Demo.start)).
  - reflexivity.
  - reflexivity.
  - lia.
  - vm_compute. reflexivity.
Defined.

Lemma received_take_le chunks n : received (take n chunks) ≤ received chunks.
Proof.
  revert n. induction chunks as [|x rest IH]; intros n.
  - by destruct n.
  - destruct n as [|n].
    + apply (received_nonneg (x :: rest)).
    + pose proof (IH n). destruct x; simpl; lia.
Qed.

(** ** Extractor *)

Section Extractor.

Context (E : environment).

Import PyFloat.

(** One turn of the loop. *)
Lemma exec_extract_loop_cons target total m rest index sched s :
  exec E (extract_loop target total (m :: rest) index) (sched, s) =
  let s1 := if hd false sched then set_cancel_event true s else s in
  if cancel_event s1 then (Raised (UpdateCanceled canceled_text), (tail sched, s1))
  else
    let w := Fs.extract (cwd E) (files s1) m target in
    let s2 := set_files w.2 s1 in
    match w.1 with
    | inl err => (Raised (library err), (tail sched, s2))
    | inr _ =>
        match int_true_div (index * 100) total with
        | None =>
            (Raised (Error "OverflowError"
                       "integer division result too large for a float"),
             (tail sched, s2))
        | Some p =>
            exec E (extract_loop target total rest (index + 1))
              (tail sched, set_stdout (stdout s2 ++ [extract_event p]) s2)
        end
    end.
Proof.
  simpl.
  destruct (cancel_event (if hd false sched then set_cancel_event true s else s));
    [reflexivity|].
  simpl.
  destruct (Fs.extract _ _ m target) as [[err|[]] fs']; [reflexivity|]. simpl.
  unfold percent_of. destruct (int_true_div _ total); reflexivity.
Qed.

(** The messages of the loop: one for each member extracted, in order, the
    [i]-th carrying [int(i * 100 / total)]; all members when the loop
    returns. *)
Lemma extract_loop_progress target total members :
  ∀ index c,
    ∃ ps,
      stdout (exec E (extract_loop target total members index) c).2.2
      = (stdout c.2 ++ map extract_event ps)%list ∧
      Forall2 (λ i p, index ≤ i < index + Z.of_nat (length ps) ∧
                      int_true_div (i * 100) total = Some p)
              (seqZ index (Z.of_nat (length ps))) ps ∧
      (length ps ≤ length members)%nat ∧
      ((exec E (extract_loop target total members index) c).1 = Returned tt →
       length ps = length members).
Proof.
  induction members as [|m rest IH]; intros index [sched s].
  - exists []. simpl. rewrite app_nil_r. repeat split; constructor.
  - rewrite exec_extract_loop_cons. cbv zeta.
    set (s1 := if hd false sched then set_cancel_event true s else s).
    assert (Hout1 : stdout s1 = stdout s)
      by (subst s1; destruct (hd false sched); reflexivity).
    assert (Hstop : ∀ (e : exn) (s2 : sys), stdout s2 = stdout s1 →
              ∃ ps,
                stdout s2 = (stdout s ++ map extract_event ps)%list ∧
                Forall2 (λ i p, index ≤ i < index + Z.of_nat (length ps) ∧
                                int_true_div (i * 100) total = Some p)
                        (seqZ index (Z.of_nat (length ps))) ps ∧
                (length ps ≤ length (m :: rest))%nat ∧
                (@Raised unit e = Returned tt → length ps = length (m :: rest))).
    { intros e s2 Hs2. exists []. simpl. rewrite app_nil_r, Hs2, Hout1.
      repeat split; try constructor; try lia. discriminate. }
    destruct (cancel_event s1); [by apply Hstop|].
    destruct (Fs.extract (cwd E) (files s1) m target) as [[err|[]] fs'] eqn:Hx;
      simpl; [by apply Hstop|].
    destruct (int_true_div (index * 100) total) as [p|] eqn:Hp; [|by apply Hstop].
    destruct (IH (index + 1)
                (tail sched,
                 set_stdout (stdout (set_files fs' s1) ++ [extract_event p])
                   (set_files fs' s1)))
      as (ps & Hout & Hall & Hlen & Hret).
    exists (p :: ps). split; [|split; [|split]].
    + etrans; [exact Hout|]. simpl. by rewrite Hout1, <- app_assoc.
    + simpl length. rewrite Nat2Z.inj_succ, seqZ_cons by lia.
      constructor; [split; [lia|done]|].
      replace (Z.succ index) with (index + 1) by lia.
      replace (Z.pred (Z.succ (Z.of_nat (length ps))))
        with (Z.of_nat (length ps)) by lia.
      eapply Forall2_impl; [exact Hall|]. simpl. intros i q [? ?].
      split; [lia|done].
    + simpl. lia.
    + intros Hr. simpl. f_equal. by apply Hret.
Qed.

Lemma exec_extract_with_progress zip target members c :
  zip_members E c.2 zip = inr members →
  exec E (extract_with_progress zip target) c =
  if len members =? 0 then (Returned tt, c)
  else exec E (extract_loop target (len members) members 1) c.
Proof.
  intros Hzip. destruct c as [sched s]. unfold extract_with_progress.
  unfold zip_members in Hzip. simpl in *. rewrite Hzip. simpl.
  destruct (len members =? 0); reflexivity.
Qed.

(** The [try ... except ... finally] statement around any steps. *)
Lemma exec_guarded temp steps c :
  exec E (guarded temp steps) c =
  match exec E steps c with
  | (Returned _, c1) => (Returned tt, (c1.1, cleaned_up E temp c1.2))
  | (Raised e, c1) => (Returned tt, (c1.1, cleaned_up E temp (reported e c1.2)))
  end.
Proof.
  unfold guarded. rewrite exec_try_finally, exec_try_except.
  destruct (exec E steps c) as [[[]|e] [sched s]].
  - simpl. unfold cleaned_up, lift_fs.
    by destruct (Fs.rmtree _ _ _ temp) as [[err|[]] fs'].
  - destruct e as [text|class text]; simpl; unfold cleaned_up, lift_fs; simpl.
    all: by destruct (Fs.rmtree _ _ _ temp) as [[err|[]] fs'].
Qed.

End Extractor.

Section ExtractPercentages.

Context (E : environment).

(** The messages of the loop: one after each member extracted, in order,
    the [i]-th carrying [floor(i * 100 / total)]; all members when the loop
    returns. *)
Lemma extract_loop_reports target total members :
  ∀ index c,
    0 < total → 0 ≤ index →
    (index + len members - 1) * 100 < 2 ^ 53 →
    ∃ done rest,
      members = (done ++ rest)%list ∧
      done `prefix_of` extracted_members (cwd E) (files c.2) target members ∧
      stdout (exec E (extract_loop target total members index) c).2.2
      = (stdout c.2 ++ map extract_event
           ((λ i, i * 100 / total) <$> seqZ index (Z.of_nat (length done))))%list ∧
      ((exec E (extract_loop target total members index) c).1 = Returned tt →
       rest = []).
Proof.
  induction members as [|m rest IH]; intros index [sched s] Htotal Hindex Hsmall.
  - exists [], []. simpl. rewrite app_nil_r. done.
  - rewrite exec_extract_loop_cons. cbv zeta.
    set (s1 := if hd false sched then set_cancel_event true s else s).
    assert (Hout1 : stdout s1 = stdout s)
      by (subst s1; destruct (hd false sched); reflexivity).
    assert (Hfiles1 : files s1 = files s)
      by (subst s1; destruct (hd false sched); reflexivity).
    assert (Hstop : ∀ (e : exn) (s2 : sys) (l : list zipinfo),
              stdout s2 = stdout s1 →
              ∃ done rest',
                m :: rest = (done ++ rest')%list ∧
                done `prefix_of` l ∧
                stdout (@Raised unit e, (tail sched, s2)).2.2
                = (stdout s ++ map extract_event
                     ((λ i, i * 100 / total)
                        <$> seqZ index (Z.of_nat (length done))))%list ∧
                ((@Raised unit e, (tail sched, s2)).1 = Returned tt → rest' = [])).
    { intros e s2 l Hs2. exists [], (m :: rest). simpl.
      rewrite app_nil_r, Hs2, Hout1.
      split; [done|]. split; [apply prefix_nil|]. split; [done|].
      intros; discriminate. }
    destruct (cancel_event s1); [by apply Hstop|].
    simpl extracted_members. rewrite <- Hfiles1.
    destruct (Fs.extract (cwd E) (files s1) m target) as [[err|[]] fs'] eqn:Hx;
      simpl; [by apply Hstop|].
    assert (Hlen : 0 ≤ len rest) by (unfold len; lia).
    assert (Hlen' : len (m :: rest) = 1 + len rest)
      by (unfold len; simpl length; lia).
    rewrite Hlen' in Hsmall.
    rewrite PyFloatFacts.int_true_div_exact by lia.
    destruct (IH (index + 1)
                (tail sched,
                 set_stdout (stdout (set_files fs' s1)
                             ++ [extract_event (index * 100 / total)])
                   (set_files fs' s1)) Htotal ltac:(lia) ltac:(lia))
      as (done & rest' & -> & Hpre & Hout & Hret).
    exists (m :: done), rest'. split; [done|]. split; [|split; [|exact Hret]].
    + apply prefix_cons. exact Hpre.
    + etrans; [exact Hout|]. simpl stdout. rewrite Hout1, <- app_assoc.
      simpl length. rewrite Nat2Z.inj_succ, (seqZ_cons index) by lia.
      replace (Z.succ index) with (index + 1) by lia.
      replace (Z.pred (Z.succ (Z.of_nat (length done))))
        with (Z.of_nat (length done)) by lia.
      reflexivity.
Qed.

(** C7.  With an archive without members, [extract_with_progress] returns
    at once, leaving the state as it was, and the update that got this far
    (download done, target directory cleaned) ends with the log message and
    the [complete] status, which carries the target path and is sent when
    that path is encodable in UTF-8.  With an archive of [n > 0] members,
    the progress messages are exactly [floor(i * 100 / n)] for [i = 1, 2, ...], one after
    each member extracted, in the order of the archive, and for no member
    whose extraction failed; when the extraction returns, there is one for
    every member.  The archive has fewer than [2^53 / 100] members, as every
    list in memory has: the float division of Python is exact there. *)
Theorem C7_extract_progress zip target members c :
  zip_members E c.2 zip = inr members →
  len members * 100 < 2 ^ 53 →
  (members = [] →
     exec E (extract_with_progress zip target) c = (Returned tt, c) ∧
     ∀ url temp c0 c1,
       Py.encodable target = true →
       exec E (download_with_progress url zip) c0 = (Returned tt, c1) →
       exec E (ensure_clean_target_dir target) c1 = (Returned tt, c) →
       ∃ s',
         exec E (guarded temp (update_steps url zip target)) c0
         = (Returned tt, (c.1, cleaned_up E temp s')) ∧
         stdout s' = (stdout c.2 ++ [Log "下载完成，开始解压..."; Complete target])%list) ∧
  (members ≠ [] →
     ∃ done rest,
       members = (done ++ rest)%list ∧
       done `prefix_of` extracted_members (cwd E) (files c.2) target members ∧
       stdout (exec E (extract_with_progress zip target) c).2.2
       = (stdout c.2
          ++ map extract_event (extract_percents (len members) (length done)))%list ∧
       ((exec E (extract_with_progress zip target) c).1 = Returned tt →
        rest = [])).
Proof.
  intros Hzip Hsmall. split.
  - intros ->. split.
    { by rewrite (exec_extract_with_progress E zip target [] c Hzip). }
    intros url temp c0 c1 _ Hdown Hclean.
    rewrite exec_guarded. unfold update_steps, after_download.
    rewrite exec_bind, Hdown, exec_bind, Hclean.
    rewrite exec_bind, exec_log, exec_bind, exec_send, exec_bind.
    rewrite (exec_extract_with_progress E zip target []) by exact Hzip.
    simpl. eexists. split; [reflexivity|]. simpl. by rewrite <- app_assoc.
  - intros Hne. rewrite (exec_extract_with_progress E zip target members c Hzip).
    assert (Hlen : 0 < len members).
    { unfold len. destruct members; [done|]. simpl. lia. }
    rewrite (proj2 (Z.eqb_neq _ 0)) by lia.
    apply extract_loop_reports; lia.
Qed.

End ExtractPercentages.

Lemma C7_extract_progress_witness :
  let c : conf := ([], Demo.start) in
  let zip := "/tmp/old.zip" in
  let target := "/opt/CJT-Helper" in
  ∃ done rest,
    Demo.two_members = (done ++ rest)%list ∧
    done `prefix_of`
      extracted_members (cwd Demo.zip_env) (files c.2) target Demo.two_members ∧
    stdout (exec Demo.zip_env (extract_with_progress zip target) c).2.2
    = (stdout c.2
       ++ map extract_event
            (extract_percents (len Demo.two_members) (length done)))%list ∧
    ((exec Demo.zip_env (extract_with_progress zip target) c).1 = Returned tt →
     rest = []).
Proof.
  intros c zip target.
  refine (proj2 (C7_extract_progress Demo.zip_env zip target Demo.two_members c _ _) _).
  - vm_compute. reflexivity.
  - vm_compute. reflexivity.
  - discriminate.
Defined.

(** ** Cancellation *)

Section Cancellation.

Context (E : environment).

(** A download loop that finds the flag set at its checkpoint raises
    [UpdateCanceled] there and does nothing else. *)
Lemma download_loop_canceled dest total chunks d lp sched s :
  hd false sched = true ∨ cancel_event s = true →
  ∃ s1,
    exec E (download_loop dest total chunks d lp) (sched, s)
    = (Raised (UpdateCanceled canceled_text), (tail sched, s1)) ∧
    cancel_event s1 = true ∧ stdout s1 = stdout s ∧ logfile s1 = logfile s ∧
    files s1 = files s ∧ threads s1 = threads s ∧
    update_thread s1 = update_thread s.
Proof.
  intros Hset.
  exists (if hd false sched then set_cancel_event true s else s).
  assert (Hflag : cancel_event (if hd false sched then set_cancel_event true s else s)
                  = true).
  { destruct Hset as [->|Hc]; [done|]. by destruct (hd false sched). }
  split.
  - destruct chunks as [|ch rest].
    + rewrite exec_download_loop_nil. cbv zeta. by rewrite Hflag.
    + rewrite exec_download_loop_cons. cbv zeta. by rewrite Hflag.
  - split; [done|]. by destruct (hd false sched).
Qed.

End Cancellation.

(** ** A stale cancellation does not reach the next update *)

Section Calm.

Context (E : environment).

Lemma raised_other {A B} (e : exn) :
  (∀ text, @Raised A e ≠ Raised (UpdateCanceled text)) →
  ∀ text, @Raised B e ≠ Raised (UpdateCanceled text).
Proof. intros H text [= ->]. by destruct (H text). Qed.

Lemma calm_ret {A} (a : A) : calm E (Ret a).
Proof.
  intros sched s Hflag Hq. simpl. (split; [|split; [|split]]); try done; try (by eapply raised_other).
  exists []. by rewrite app_nil_r.
Qed.

Lemma calm_raise {A} class text : calm E (@Raise A (Error class text)).
Proof.
  intros sched s Hflag Hq. simpl. (split; [|split; [|split]]); try done; try (by eapply raised_other).
  exists []. by rewrite app_nil_r.
Qed.

Lemma calm_bind {A B} (p : prog A) (f : A → prog B) :
  calm E p → (∀ a, calm E (f a)) → calm E (bind p f).
Proof.
  intros Hp Hf sched s Hflag Hq. rewrite exec_bind.
  destruct (Hp sched s Hflag Hq) as (Hflag1 & Hq1 & Hne1 & out1 & Hout1 & Hall1).
  destruct (exec E p (sched, s)) as [[a|e] [sched1 s1]]; simpl in *.
  - destruct (Hf a sched1 s1 Hflag1 Hq1) as (Hflag2 & Hq2 & Hne2 & out2 & Hout2 & Hall2).
    (split; [|split; [|split]]); try done; try (by eapply raised_other).
    exists (out1 ++ out2)%list. rewrite Hout2, Hout1, app_assoc.
    split; [done|]. by apply Forall_app.
  - (split; [|split; [|split]]); try done; try (by eapply raised_other). by exists out1.
Qed.

Lemma calm_try_except {A} (p : prog A) h :
  calm E p → (∀ class text, calm E (h (Error class text))) →
  calm E (try_except p h).
Proof.
  intros Hp Hh sched s Hflag Hq. rewrite exec_try_except.
  destruct (Hp sched s Hflag Hq) as (Hflag1 & Hq1 & Hne1 & out1 & Hout1 & Hall1).
  destruct (exec E p (sched, s)) as [[a|e] [sched1 s1]]; simpl in *.
  - (split; [|split; [|split]]); try done; try (by eapply raised_other). by exists out1.
  - destruct e as [text|class text]; [by destruct (Hne1 text)|].
    destruct (Hh class text sched1 s1 Hflag1 Hq1)
      as (Hflag2 & Hq2 & Hne2 & out2 & Hout2 & Hall2).
    (split; [|split; [|split]]); try done; try (by eapply raised_other).
    exists (out1 ++ out2)%list. rewrite Hout2, Hout1, app_assoc.
    split; [done|]. by apply Forall_app.
Qed.

Lemma calm_try_finally {A} (p : prog A) q :
  calm E p → calm E q → calm E (try_finally p q).
Proof.
  intros Hp Hq' sched s Hflag Hq. rewrite exec_try_finally.
  destruct (Hp sched s Hflag Hq) as (Hflag1 & Hq1 & Hne1 & out1 & Hout1 & Hall1).
  destruct (exec E p (sched, s)) as [[a|e] [sched1 s1]]; simpl in *.
  all: destruct (Hq' sched1 s1 Hflag1 Hq1)
    as (Hflag2 & Hq2 & Hne2 & out2 & Hout2 & Hall2).
  all: destruct (exec E q (sched1, s1)) as [[[]|e'] [sched2 s2]]; simpl in *.
  all: (split; [|split; [|split]]); try done; try (by eapply raised_other).
  all: try (exists (out1 ++ out2)%list; rewrite Hout2, Hout1, app_assoc;
            split; [done|]; by apply Forall_app).
Qed.

Lemma perform_steady {X} (e : eff X) s :
  steady e → cancel_event s = false →
  cancel_event (perform E e s).2 = false ∧
  ∃ out, stdout (perform E e s).2 = (stdout s ++ out)%list ∧ Forall not_canceled out.
Proof.
  intros He Hflag.
  destruct e; simpl in *; unfold lift_fs; simpl; try done;
    try (split; [done|]; exists []; by rewrite app_nil_r).
  - split; [done|]. eexists [_]. split; [done|]. by constructor.
  - destruct (threads s !! _) as [[|]|];
      (split; [done|]; exists []; by rewrite app_nil_r).
  - unfold mkdtemp.
    repeat case_match; simpl;
      (split; [done|]; exists []; by rewrite app_nil_r).
Qed.

Lemma interfere_steady {X} (e : eff X) sched s :
  steady e → interfere e sched s = (sched, s).
Proof. by destruct e. Qed.

Lemma calm_vis {A X} (e : eff X) (k : X → prog A) :
  steady e → (∀ x, calm E (k x)) → calm E (Vis e k).
Proof.
  intros He Hk sched s Hflag Hq. simpl.
  rewrite (interfere_steady e sched s He). simpl.
  destruct (perform_steady e s He Hflag) as (Hflag1 & out1 & Hout1 & Hall1).
  destruct (Hk (perform E e s).1 sched (perform E e s).2 Hflag1 Hq)
    as (Hflag2 & Hq2 & Hne2 & out2 & Hout2 & Hall2).
  (split; [|split; [|split]]); try done; try (by eapply raised_other).
  exists (out1 ++ out2)%list. rewrite Hout2, Hout1, app_assoc.
  split; [done|]. by apply Forall_app.
Qed.

Lemma calm_call {X} (e : eff X) : steady e → calm E (call e).
Proof. intros He. apply calm_vis; [done|]. intros. apply calm_ret. Qed.

Lemma calm_call_r {X} (e : eff (result X)) : steady e → calm E (call_r e).
Proof.
  intros He. apply calm_vis; [done|]. intros [err|x];
    [apply calm_raise|apply calm_ret].
Qed.

(** A checkpoint passes when the flag is down. *)
Lemma calm_checkpoint {A} text (q : prog A) :
  calm E q →
  calm E (bind (call EventIsSet)
            (λ canceled : bool, if canceled then Raise (UpdateCanceled text) else q)).
Proof.
  intros Hq' sched s Hflag Hq. simpl.
  assert (Hhd : hd false sched = false).
  { destruct sched as [|b sched]; [done|]. by inversion Hq. }
  assert (Htl : quiet (tail sched)).
  { destruct sched as [|b sched]; [done|]. by inversion Hq. }
  rewrite Hhd, Hflag. exact (Hq' (tail sched) s Hflag Htl).
Qed.

End Calm.

Section CalmProgram.

Context (E : environment).

Lemma steady_progress phase percent text : not_canceled (Progress phase percent text).
Proof. intros t. discriminate. Qed.

Lemma calm_send m : not_canceled m → calm E (send_message m).
Proof. intros Hm. by apply calm_call. Qed.

Lemma calm_log text : calm E (write_log text).
Proof. by apply calm_call. Qed.

Lemma calm_percent_of x total : calm E (percent_of x total).
Proof.
  unfold percent_of. destruct (PyFloat.int_true_div _ _);
    [apply calm_ret|apply calm_raise].
Qed.

Ltac calm_step :=
  first
    [ apply calm_ret
    | apply calm_raise
    | apply calm_log
    | apply calm_percent_of
    | apply calm_send; intros ?; discriminate
    | apply calm_call; exact I
    | apply calm_call_r; exact I
    | apply calm_checkpoint
    | apply calm_bind; [|intro]
    | apply calm_try_except; [|intro; intro]
    | apply calm_try_finally
    | assumption ].

Ltac calm_case :=
  match goal with
  | |- calm _ (if ?b then _ else _) => destruct b
  | |- calm _ (match ?x with _ => _ end) => destruct x
  | |- calm _ (let '(_, _) := ?x in _) => destruct x
  end.

Ltac calm_auto := repeat (calm_step || calm_case).

Lemma calm_download_loop dest total chunks :
  ∀ d lp, calm E (download_loop dest total chunks d lp).
Proof.
  induction chunks as [|ch rest IH]; intros d lp.
  - apply (calm_checkpoint E canceled_text (Ret tt)). apply calm_ret.
  - apply (calm_checkpoint E canceled_text
             (match ch with inl error => Raise (library error) | inr chunk => _ end)).
    destruct ch as [err|chunk]; [apply calm_raise|].
    calm_auto; apply IH.
Qed.

Lemma calm_download_with_progress url dest : calm E (download_with_progress url dest).
Proof.
  unfold download_with_progress, content_length_int.
  calm_auto. apply calm_download_loop.
Qed.

Lemma calm_extract_loop target total members :
  ∀ index, calm E (extract_loop target total members index).
Proof.
  induction members as [|m rest IH]; intros index.
  - apply calm_ret.
  - apply (calm_checkpoint E canceled_text (_ ;; _)). calm_auto. apply IH.
Qed.

Lemma calm_extract_with_progress zip target : calm E (extract_with_progress zip target).
Proof.
  unfold extract_with_progress. calm_auto. apply calm_extract_loop.
Qed.

Lemma calm_remove_items target names : calm E (remove_items target names).
Proof.
  induction names as [|name rest IH]; [apply calm_ret|].
  change (remove_items target (name :: rest))
    with (remove_item (PosixPath.join target name);; remove_items target rest).
  unfold remove_item. calm_auto.
Qed.

Lemma calm_ensure_clean target : calm E (ensure_clean_target_dir target).
Proof.
  unfold ensure_clean_target_dir. calm_auto. apply calm_remove_items.
Qed.

Lemma calm_update_steps url zip target : calm E (update_steps url zip target).
Proof.
  unfold update_steps, after_download.
  apply calm_bind; [apply calm_download_with_progress|intro].
  apply calm_bind; [apply calm_ensure_clean|intro].
  apply calm_bind; [apply calm_log|intro].
  apply calm_bind; [apply calm_send; intros ?; discriminate|intro].
  apply calm_bind; [apply calm_extract_with_progress|intro].
  calm_auto.
Qed.

Lemma calm_guarded temp steps : calm E steps → calm E (guarded temp steps).
Proof.
  intros Hsteps. unfold guarded.
  apply calm_try_finally.
  - apply calm_try_except; [done|]. intros class text. simpl. calm_auto.
  - calm_auto.
Qed.

Lemma calm_prepare msg : calm E (prepare msg).
Proof. unfold prepare, resolve_target_dir. calm_auto. Qed.

Lemma calm_handle_start_update msg : calm E (handle_start_update msg).
Proof.
  unfold handle_start_update.
  destruct (msg !! "downloadUrl") as [url|]; [|calm_auto].
  destruct (Py.truthy url); [|calm_auto].
  apply calm_bind; [apply calm_prepare|]. intros [target temp].
  apply calm_guarded, calm_update_steps.
Qed.

Lemma calm_run_update msg : calm E (run_update msg).
Proof.
  unfold run_update. apply calm_try_finally; [apply calm_handle_start_update|].
  calm_auto.
Qed.

End CalmProgram.

Section StaleCancellation.

Context (E : environment).


(** C10.  When [start_update] is accepted, the one thread it starts is
    started in a state in which the cancellation flag is already down,
    whatever it was before: [cancel_event.clear()] comes before
    [thread.start()].  Afterwards the new thread is the current update
    thread, nothing was sent, and the update, run from there without a new
    [cancel_update], sends no [canceled] status. *)
Theorem C10_accept_clears_cancel msg s :
  msg !! "cmd" = Some "start_update" →
  (∀ t code, update_thread s = Some t → threads s !! t ≠ Some (Running code)) →
  (∃ s1,
     spawn_states E (dispatch msg) ([], s) = [s1] ∧
     cancel_event s1 = false ∧
     threads s1 !! next_tid s = Some (Created msg)) ∧
  ∃ s',
    run E (dispatch msg) s = (Returned true, s') ∧
    cancel_event s' = false ∧
    update_thread s' = Some (next_tid s) ∧
    threads s' !! next_tid s = Some (Running (run_update msg)) ∧
    stdout s' = stdout s ∧
    ∃ out,
      stdout (run E (run_update msg) s').2 = (stdout s' ++ out)%list ∧
      Forall not_canceled out.
Proof.
  intros Hcmd Hidle. split.
  { rewrite (spawn_start_update_accepted E msg s Hcmd Hidle).
    eexists. split; [reflexivity|]. split; [done|]. apply lookup_insert_eq. }
  rewrite (run_start_update_accepted E msg s Hcmd Hidle).
  eexists. split; [reflexivity|].
  split; [done|]. split; [done|].
  split; [apply lookup_insert_eq|].
  split; [done|].
  match goal with
  | |- ∃ out, stdout (run E _ ?s').2 = _ ∧ _ =>
      destruct (calm_run_update E msg [] s' eq_refl (Forall_nil_2 _))
        as (_ & _ & _ & out & Hout & Hall)
  end.
  exists out. split; [exact Hout|done].
Qed.

End StaleCancellation.

Lemma C10_accept_clears_cancel_witness :
  (∃ s1,
     spawn_states Demo.env (dispatch Demo.start_msg) ([], Demo.idle_flagged) = [s1] ∧
     cancel_event s1 = false ∧
     threads s1 !! next_tid Demo.idle_flagged = Some (Created Demo.start_msg)) ∧
  ∃ s',
    run Demo.env (dispatch Demo.start_msg) Demo.idle_flagged = (Returned true, s') ∧
    cancel_event s' = false ∧
    update_thread s' = Some (next_tid Demo.idle_flagged) ∧
    threads s' !! next_tid Demo.idle_flagged
    = Some (Running (run_update Demo.start_msg)) ∧
    stdout s' = stdout Demo.idle_flagged ∧
    ∃ out,
      stdout (run Demo.env (run_update Demo.start_msg) s').2 = (stdout s' ++ out)%list ∧
      Forall not_canceled out.
Proof.
  apply (C10_accept_clears_cancel Demo.env Demo.start_msg Demo.idle_flagged).
  - vm_compute. reflexivity.
  - intros t code Hslot. discriminate Hslot.
Defined.

(** ** A failed download leaves the files alone *)

Section Uses.

Context (E : environment) (ok : ∀ X, eff X → Prop).

Lemma uses_bind {A B} (p : prog A) (f : A → prog B) :
  uses ok p → (∀ a, uses ok (f a)) → uses ok (bind p f).
Proof.
  intros Hp Hf. induction Hp as [a|e|X e k Hok Hk IH]; simpl.
  - apply Hf.
  - constructor.
  - constructor; [done|]. intros x. apply IH.
Qed.

Lemma uses_call {X} (e : eff X) : ok X e → uses ok (call e).
Proof. intros He. constructor; [done|]. intros x. constructor. Qed.

Lemma uses_call_r {X} (e : eff (result X)) : ok _ e → uses ok (call_r e).
Proof. intros He. constructor; [done|]. intros [err|x]; constructor. Qed.

(** A relation between states that every [ok] primitive respects, and
    that the session thread respects when it sets the flag, holds between
    the state a program starts in and the one it ends in. *)
Lemma exec_uses {A} (R : sys → sys → Prop) (p : prog A) :
  (∀ s, R s s) →
  (∀ s1 s2 s3, R s1 s2 → R s2 s3 → R s1 s3) →
  (∀ X (e : eff X) s, ok X e → R s (perform E e s).2) →
  (∀ s, R s (set_cancel_event true s)) →
  uses ok p → ∀ c, R c.2 (exec E p c).2.2.
Proof.
  intros Hrefl Htrans Hperform Hset Hp.
  induction Hp as [a|e|X e k Hok Hk IH]; intros [sched s]; simpl; try done.
  eapply Htrans; [|apply IH]. simpl.
  eapply Htrans; [|by apply Hperform].
  destruct e; simpl; try done.
  destruct (hd false sched); done.
Qed.

End Uses.

Section DownloadFrame.

Context (E : environment).

Lemma uses_percent_of ok x total : uses ok (percent_of x total).
Proof. unfold percent_of. destruct (PyFloat.int_true_div _ _); constructor. Qed.

Lemma uses_download_loop dest total chunks :
  ∀ d lp, uses (downloads dest) (download_loop dest total chunks d lp).
Proof.
  induction chunks as [|ch rest IH]; intros d lp.
  - constructor; [done|]. intros []; constructor.
  - constructor; [done|]. intros []; [constructor|].
    destruct ch as [err|chunk]; [constructor|].
    case_bool_decide; [constructor|].
    apply uses_bind; [by apply uses_call_r|]. intros _. cbv zeta.
    destruct (0 <? total).
    + apply uses_bind; [apply uses_percent_of|]. intros percent.
      case_bool_decide; [|apply IH].
      apply uses_bind; [by apply uses_call|]. intros _. apply IH.
    + destruct (_ =? 0); [|apply IH].
      apply uses_bind; [by apply uses_call|]. intros _. apply IH.
Qed.

Lemma uses_download_with_progress url dest :
  uses (downloads dest) (download_with_progress url dest).
Proof.
  unfold download_with_progress.
  apply uses_bind; [by apply uses_call_r|]. intros response.
  apply uses_bind; [by apply uses_call_r|]. intros _.
  apply uses_bind.
  - unfold content_length_int. destruct (content_length response); constructor.
  - intros total. apply uses_download_loop.
Qed.

Lemma download_frame_refl kz s : download_frame kz s s.
Proof. split; [done|]. exists []. by rewrite app_nil_r. Qed.

Lemma download_frame_trans kz s1 s2 s3 :
  download_frame kz s1 s2 → download_frame kz s2 s3 → download_frame kz s1 s3.
Proof.
  intros [Hf1 (out1 & Ho1 & Ha1)] [Hf2 (out2 & Ho2 & Ha2)]. split.
  - intros k Hk. by rewrite Hf2, Hf1.
  - exists (out1 ++ out2)%list. split; [|by apply Forall_app].
    by rewrite Ho2, Ho1, app_assoc.
Qed.

Lemma download_frame_perform dest kz X (e : eff X) s :
  Fs.locate (cwd E) dest = Some kz →
  downloads dest X e → download_frame kz s (perform E e s).2.
Proof.
  intros Hloc He.
  destruct e; simpl in He; try done; try apply download_frame_refl.
  - destruct m; try done. split; [done|]. simpl. eexists. split; [done|].
    by repeat constructor.
  - subst p. simpl. unfold lift_fs, Fs.open_wb. rewrite Hloc.
    repeat case_match; simpl; try apply download_frame_refl.
    all: split; [|exists []; by rewrite app_nil_r].
    all: intros k' Hk'; simpl; by rewrite ?lookup_insert_ne.
  - subst p. simpl. unfold lift_fs, Fs.write. rewrite Hloc.
    repeat case_match; simpl; try apply download_frame_refl.
    all: split; [|exists []; by rewrite app_nil_r].
    all: intros k' Hk'; simpl; by rewrite ?lookup_insert_ne.
Qed.

(** Whatever the server sends, and however the transfer ends, a download
    changes no file but its destination and sends only progress
    messages. *)
Lemma download_footprint url dest kz c :
  Fs.locate (cwd E) dest = Some kz →
  download_frame kz c.2 (exec E (download_with_progress url dest) c).2.2.
Proof.
  intros Hloc.
  apply (exec_uses E (downloads dest) (download_frame kz)).
  - apply download_frame_refl.
  - apply download_frame_trans.
  - intros X e s. by apply download_frame_perform.
  - intros s. split; [done|]. exists []. by rewrite app_nil_r.
  - apply uses_download_with_progress.
Qed.

End DownloadFrame.

Section Locations.

Import PosixPath.

Lemma walk_app l1 : ∀ acc l2,
  Fs.walk acc (l1 ++ l2) = Fs.walk (rev (Fs.walk acc l1)) l2.
Proof.
  induction l1 as [|c l1 IH]; intros acc l2; simpl.
  - by rewrite rev_involutive.
  - repeat case_match; apply IH.
Qed.

Lemma endswith_char_split a c :
  Py.endswith_char a c = true → ∃ a', a = (a' ++ String c "")%string.
Proof.
  induction a as [|x a IH]; simpl; [done|].
  destruct a as [|y a].
  - intros Hx. apply Ascii.eqb_eq in Hx as ->. by exists ""%string.
  - intros H. destruct (IH H) as [a' Ha']. exists (String x a').
    change (String x (String y a) = String x (a' ++ String c "")%string).
    by rewrite <- Ha'.
Qed.

Lemma string_app_assoc (a b c : string) : ((a ++ b) ++ c = a ++ (b ++ c))%string.
Proof.
  induction a as [|x a IH]; [done|].
  change (String x ((a ++ b) ++ c) = String x (a ++ (b ++ c)))%string.
  by rewrite IH.
Qed.

Lemma startswith_slash x s : Py.startswith (String x s) "/" = Ascii.eqb x sep.
Proof.
  unfold Py.startswith.
  change (String.prefix "/" (String x s))
    with (if Ascii.ascii_dec "/"%char x then String.prefix "" s else false).
  destruct (Ascii.ascii_dec "/"%char x) as [<-|Hne].
  - by destruct s.
  - symmetry. apply Ascii.eqb_neq. unfold sep. congruence.
Qed.

Lemma startswith_app a b :
  Py.truthy a = true → Py.startswith (a ++ b) "/" = Py.startswith a "/".
Proof.
  destruct a as [|x a]; [done|]. intros _.
  change (String x a ++ b)%string with (String x (a ++ b)%string).
  by rewrite !startswith_slash.
Qed.

Lemma truthy_app a b : Py.truthy a = true → Py.truthy (a ++ b) = true.
Proof. by destruct a. Qed.

Lemma plain_not_absolute b : plain b = true → Py.startswith b "/" = false.
Proof.
  destruct b as [|x b]; [done|]. rewrite startswith_slash. simpl.
  by destruct (Ascii.eqb x sep).
Qed.

Lemma walk_proper acc b : proper_name b → Fs.walk acc [b] = (rev acc ++ [b])%list.
Proof.
  intros (_ & H1 & H2 & H3). simpl.
  apply String.eqb_neq in H1, H2, H3. by rewrite H1, H2, H3.
Qed.

Lemma join_proper a b :
  Py.truthy a = true → plain b = true →
  PosixPath.join a b
  = (if Py.endswith_char a sep then a ++ b else a ++ String sep b)%string.
Proof.
  intros Ha Hb. unfold PosixPath.join.
  rewrite (plain_not_absolute b Hb), Ha. simpl.
  by destruct (Py.endswith_char a sep).
Qed.

(** Where [os.path.join(a, b)] leads, for a proper name [b]. *)
Lemma locate_join wd a b d :
  Fs.locate wd a = Some d → proper_name b →
  Fs.locate wd (PosixPath.join a b) = Some (d ++ [b])%list.
Proof.
  unfold Fs.locate. intros Ha Hb.
  destruct (Py.truthy a) eqn:Hta; [|done]. simpl in Ha.
  injection Ha as <-.
  pose proof Hb as (Hplain & _).
  rewrite (join_proper a b Hta Hplain).
  set (acc := if Py.startswith a "/" then [] else rev wd).
  assert (Hjoined : ∀ x,
    (if negb (Py.truthy (a ++ x)) then None
     else Some (Fs.walk (if Py.startswith (a ++ x) "/" then [] else rev wd)
                        (Py.split sep (a ++ x))))
    = Some (Fs.walk acc (Py.split sep (a ++ x)))).
  { intros x. by rewrite truthy_app, startswith_app. }
  destruct (Py.endswith_char a sep) eqn:Hend; rewrite Hjoined; f_equal.
  - destruct (endswith_char_split _ _ Hend) as [a' ->].
    rewrite string_app_assoc.
    change (String sep "" ++ b)%string with (String sep b).
    rewrite !split_app, (split_plain b Hplain), !walk_app, walk_proper by done.
    simpl. by rewrite !rev_involutive.
  - rewrite split_app, (split_plain b Hplain), walk_app, walk_proper by done.
    by rewrite rev_involutive.
Qed.

End Locations.

Section FilesKept.

Lemma mkdirs_keeps todo : ∀ fs done fs' k n,
  Fs.mkdirs fs done todo = inr fs' → fs !! k = Some n → fs' !! k = Some n.
Proof.
  induction todo as [|c cs IH]; intros fs done fs' k n; simpl.
  - by intros [= <-].
  - destruct (Fs.node_at fs (done ++ [c])) as [[]|] eqn:Hnode; try done.
    + apply IH.
    + intros Hmk Hk. eapply IH; [exact Hmk|].
      rewrite lookup_insert_ne; [done|].
      intros <-. destruct done; simpl in *; congruence.
Qed.

Lemma makedirs_keeps wd fs p k n :
  fs !! k = Some n → (Fs.makedirs wd fs p).2 !! k = Some n.
Proof.
  unfold Fs.makedirs. intros Hk.
  destruct (Fs.locate wd p) as [kp|]; [|done].
  destruct (Fs.mkdirs fs [] kp) as [err|fs'] eqn:Hmk; [done|].
  by eapply mkdirs_keeps.
Qed.

Lemma pick_temp_fresh fs d prefix names name rest :
  Fs.pick_temp fs d prefix names = Some (name, rest) →
  fs !! (d ++ [name])%list = None ∧
  ∃ n, n ∈ names ∧ name = (prefix ++ n)%string.
Proof.
  induction names as [|n names IH]; simpl; [done|].
  destruct (Fs.node_at fs (d ++ [(prefix ++ n)%string])) eqn:Hnode.
  - intros H. destruct (IH H) as (Hfresh & n' & Hin & Hname).
    split; [done|]. exists n'. split; [by apply elem_of_cons; right|done].
  - intros [= <- <-]. split.
    + destruct d; simpl in Hnode; done.
    + exists n. split; [apply elem_of_cons; by left|done].
Qed.

Lemma plain_app a b :
  PosixPath.plain a = true → PosixPath.plain b = true →
  PosixPath.plain (a ++ b) = true.
Proof.
  intros Ha Hb. induction a as [|x a IH]; [done|].
  change (String x a ++ b)%string with (String x (a ++ b)%string).
  simpl in *. apply andb_true_iff in Ha as [Hx Ha].
  by rewrite Hx, IH.
Qed.

Lemma proper_temp_name n :
  PosixPath.plain n = true → proper_name ("cjt_helper_update_" ++ n).
Proof.
  intros Hn. split; [by apply plain_app|]. by repeat split.
Qed.

Lemma proper_zip_name : proper_name zip_name.
Proof. by repeat split. Qed.

(** In a file system where every entry lies in an entry, every entry lies
    below existing entries only. *)
Lemma parents_exist_lookup fs k n :
  parents_exist fs = true → fs !! k = Some n →
  removelast k ≠ [] → is_Some (fs !! removelast k).
Proof.
  unfold parents_exist. rewrite forallb_forall. intros Hall Hk Hne.
  specialize (Hall (k, n)). simpl in Hall.
  destruct (removelast k) as [|c parent] eqn:Hrl; [done|].
  eapply bool_decide_eq_true_1, Hall.
  apply list_elem_of_In, elem_of_map_to_list. exact Hk.
Qed.

Lemma ancestors_exist fs kt l : ∀ n,
  parents_exist fs = true → kt ≠ [] →
  fs !! (kt ++ l)%list = Some n → is_Some (fs !! kt).
Proof.
  induction l as [|c l IH] using rev_ind; intros n Hfs Hkt.
  - rewrite app_nil_r. by intros ->.
  - rewrite app_assoc. intros Hk.
    pose proof (parents_exist_lookup _ _ _ Hfs Hk) as Hparent.
    rewrite removelast_last in Hparent.
    destruct Hparent as [n' Hn']; [by destruct kt|].
    by eapply IH.
Qed.

Lemma rmtree_frame wd lk fs p kt k :
  Fs.locate wd p = Some kt → ¬ kt `prefix_of` k →
  (Fs.rmtree wd lk fs p).2 !! k = fs !! k.
Proof.
  unfold Fs.rmtree. intros Hloc Hk. rewrite Hloc.
  destruct (Fs.node_at fs kt) as [[]|]; try done. simpl.
  apply option_eq. intros n. rewrite map_lookup_filter_Some. simpl.
  split; [by intros [Hn _]|]. intros Hn. split; [done|by left].
Qed.

End FilesKept.

Section FailedDownload.

Context (E : environment).

Lemma exec_resolve_target_dir msg c :
  ∃ target, exec E (resolve_target_dir msg) c = (Returned target, c).
Proof.
  unfold resolve_target_dir. destruct c as [sched s].
  repeat case_match; simpl; eauto.
Qed.

(** What [handle_start_update] has done when it enters its [try]
    statement. *)
Lemma prepare_keeps msg sched s target temp c1 :
  exec E (prepare msg) (sched, s) = (Returned (target, temp), c1) →
  Forall (λ n, PosixPath.plain n = true) (tmp_names s) →
  ∃ kt,
    Fs.locate (cwd E) temp = Some kt ∧ kt ≠ [] ∧
    files s !! kt = None ∧
    (∀ k n, files s !! k = Some n → files c1.2 !! k = Some n) ∧
    stdout c1.2 = (stdout s ++ [Log "开始下载更新包..."])%list.
Proof.
  intros Hexec Hnames. unfold prepare in Hexec.
  rewrite exec_bind in Hexec.
  destruct (exec_resolve_target_dir msg (sched, s)) as [t Ht].
  rewrite Ht in Hexec. simpl in Hexec.
  pose proof (λ k n, makedirs_keeps (cwd E) (files s) t k n) as Hkeep.
  destruct (Fs.makedirs (cwd E) (files s) t) as [[err|[]] fs1];
    simpl in Hexec, Hkeep; [done|].
  unfold mkdtemp in Hexec. simpl in Hexec.
  destruct (Fs.locate (cwd E) (tmpdir E)) as [d|] eqn:Hd; [|done].
  destruct (Fs.node_at fs1 d) as [[]|]; try done.
  destruct (Fs.pick_temp fs1 d "cjt_helper_update_" (tmp_names s))
    as [[name rest]|] eqn:Hpick; [|done].
  simpl in Hexec. injection Hexec as <- <- <-.
  destruct (pick_temp_fresh _ _ _ _ _ _ Hpick) as (Hfresh & n & Hin & ->).
  exists (d ++ [("cjt_helper_update_" ++ n)%string])%list.
  split; [|split; [|split; [|split]]].
  - apply locate_join; [done|]. apply proper_temp_name.
    by eapply Forall_forall in Hnames.
  - by destruct d.
  - destruct (files s !! _) as [x|] eqn:Hx; [|done].
    apply Hkeep in Hx. congruence.
  - intros k x Hk. simpl. rewrite lookup_insert_ne; [by apply Hkeep|].
    intros <-. apply Hkeep in Hk. congruence.
  - done.
Qed.

End FailedDownload.

Section FailedDownloadLog.

Context (E : environment).

(** The download writes no log line. *)
Lemma download_keeps_log url dest c :
  logfile (exec E (download_with_progress url dest) c).2.2 = logfile c.2.
Proof.
  apply (exec_uses E (downloads dest) (λ s s', logfile s' = logfile s)).
  - done.
  - intros s1 s2 s3 H12 H23. congruence.
  - intros X e s Hok. by destruct e.
  - done.
  - apply uses_download_with_progress.
Qed.

(** [handle_start_update] logs one line before its [try] statement. *)
Lemma prepare_log msg sched s target temp c1 :
  exec E (prepare msg) (sched, s) = (Returned (target, temp), c1) →
  logfile c1.2 = (logfile s ++ ["start_update: 开始下载更新包"])%list.
Proof.
  intros Hexec. unfold prepare in Hexec.
  rewrite exec_bind in Hexec.
  destruct (exec_resolve_target_dir E msg (sched, s)) as [t Ht].
  rewrite Ht in Hexec. simpl in Hexec.
  destruct (Fs.makedirs (cwd E) (files s) t) as [[err|[]] fs1];
    simpl in Hexec; [done|].
  unfold mkdtemp in Hexec. simpl in Hexec.
  repeat case_match; simpl in Hexec; try done.
  by injection Hexec as <- <- <-.
Qed.

(** C4, as the code has it.  An update whose download fails, or is
    canceled, ends with the status of that failure, [error] or [canceled],
    sent once; before it the update sent its opening log message and
    progress messages only.  (The text of the failure has to be encodable
    in UTF-8 for the status to be sent, and the target path is without
    [..], so that [os.makedirs] makes what the path string says.)  The
    target directory has not
    been cleaned: every file and directory that was there when the update
    began is there at the end, unchanged, and so is every other entry of
    the file system, with one exception: the log file [LOG_FILE], which got
    two lines more, the one of the start and the one of the failure. *)
Theorem C4_failed_download_keeps_files msg url sched s target temp c1 e c2 :
  msg !! "downloadUrl" = Some url → Py.truthy url = true →
  Forall (λ n, PosixPath.plain n = true) (tmp_names s) →
  parents_exist (files s) = true →
  exec E (prepare msg) (sched, s) = (Returned (target, temp), c1) →
  exec E (download_with_progress url (PosixPath.join temp zip_name)) c1
  = (Raised e, c2) →
  Fs.dotdot_free target = true →
  Py.encodable (exn_text e) = true →
  ∃ c3 progress,
    exec E (handle_start_update msg) (sched, s) = (Returned tt, c3) ∧
    stdout c3.2
    = (stdout s ++ Log "开始下载更新包..." :: progress ++ [terminal_status e])%list ∧
    Forall is_progress progress ∧
    logfile c3.2
    = (logfile s ++ ["start_update: 开始下载更新包"; failure_line e])%list ∧
    ∀ k n, files s !! k = Some n →
           Fs.locate (cwd E) (LOG_FILE E) ≠ Some k →
           files c3.2 !! k = Some n.
Proof.
  intros Hurl Htruthy Hnames Hfs Hprep Hdl _ _.
  destruct (prepare_keeps _ _ _ _ _ _ _ Hprep Hnames)
    as (kt & Hkt & Hne & Hnew & Hkeep & Hout).
  pose proof (prepare_log _ _ _ _ _ _ Hprep) as Hlog.
  pose proof (download_keeps_log url (PosixPath.join temp zip_name) c1) as Hlog2.
  pose proof (download_footprint E url _ _ c1
                (locate_join _ _ _ _ Hkt proper_zip_name))
    as [Hframe (progress & Hprogress & Hall)].
  rewrite Hdl in Hframe, Hprogress, Hlog2. simpl in Hframe, Hprogress, Hlog2.
  unfold handle_start_update. rewrite Hurl, Htruthy, exec_bind, Hprep.
  rewrite exec_guarded. unfold update_steps. rewrite exec_bind, Hdl.
  eexists _, progress. split; [reflexivity|]. simpl.
  split; [|split; [done|split]].
  - rewrite Hprogress, Hout, <- !app_assoc. reflexivity.
  - rewrite Hlog2, Hlog, <- app_assoc. reflexivity.
  - intros k n Hk _.
    assert (Hout_of_temp : ¬ kt `prefix_of` k).
    { intros [l ->]. destruct (ancestors_exist _ _ _ _ Hfs Hne Hk). congruence. }
    rewrite (rmtree_frame _ _ _ _ _ _ Hkt Hout_of_temp).
    rewrite Hframe; [by apply Hkeep|].
    intros ->. apply Hout_of_temp. by exists [zip_name].
Qed.

End FailedDownloadLog.

Lemma C4_failed_download_keeps_files_witness :
  ∃ c3 progress,
    exec Demo.env (handle_start_update Demo.unreachable_msg) ([], Demo.start)
    = (Returned tt, c3) ∧
    stdout c3.2
    = (stdout Demo.start
       ++ Log "开始下载更新包..." :: progress
       ++ [terminal_status (Error "URLError" "<urlopen error unreachable>")])%list ∧
    Forall is_progress progress ∧
    logfile c3.2
    = (logfile Demo.start
       ++ ["start_update: 开始下载更新包";
           failure_line (Error "URLError" "<urlopen error unreachable>")])%list ∧
    ∀ k n, files Demo.start !! k = Some n →
           Fs.locate (cwd Demo.env) (LOG_FILE Demo.env) ≠ Some k →
           files c3.2 !! k = Some n.
Proof.
  set (c1 := (exec Demo.env (prepare Demo.unreachable_msg) ([], Demo.start)).2).
  set (c2 := (exec Demo.env
                (download_with_progress "http://x/missing.zip"
                   (PosixPath.join "/tmp/cjt_helper_update_k3x9q2ab" zip_name))
                c1).2).
  apply (C4_failed_download_keeps_files Demo.env Demo.unreachable_msg
           "http://x/missing.zip" [] Demo.start "/opt/CJT-Helper"
           "/tmp/cjt_helper_update_k3x9q2ab" c1
           (Error "URLError" "<urlopen error unreachable>") c2).
  - vm_compute. reflexivity.
  - reflexivity.
  - by repeat constructor.
  - vm_compute. reflexivity.
  - vm_compute. reflexivity.
  - vm_compute. reflexivity.
  - vm_compute. reflexivity.
  - vm_compute. reflexivity.
Defined.

(** C4 as stated fails when the target directory is the one of the log
    file.  [~/.cjt-helper] exists and the log file in it holds one line; the
    download fails, and the log file holds three lines. *)
Lemma C4_counterexample :
  let s := Demo.logged in
  let r := exec Demo.env (handle_start_update Demo.log_dir_msg) ([], s) in
  exec Demo.env (resolve_target_dir Demo.log_dir_msg) ([], s)
  = (Returned "/home/u/.cjt-helper", ([], s)) ∧
  Fs.os_lookup (files s) (cwd Demo.env) "/home/u/.cjt-helper"
  = Fs.Found ["home"; "u"; ".cjt-helper"] Dir ∧
  Fs.locate (cwd Demo.env) (LOG_FILE Demo.env)
  = Some ["home"; "u"; ".cjt-helper"; "auto-update.log"] ∧
  logfile s = ["native host started"] ∧
  stdout r.2.2 = [Log "开始下载更新包..."; Failed "<urlopen error unreachable>"] ∧
  logfile r.2.2 = ["native host started"; "start_update: 开始下载更新包";
                   "error: <urlopen error unreachable>"].
Proof. repeat split; vm_compute; reflexivity. Qed.

(** ** At most one update task *)

Section WorkerCode.

Context (ok : ∀ X, eff X → Prop).

Lemma uses_try_except {A} (p : prog A) h :
  uses ok p → (∀ e, uses ok (h e)) → uses ok (try_except p h).
Proof.
  intros Hp Hh. induction Hp as [a|e|X e k Hok Hk IH]; simpl.
  - constructor.
  - apply Hh.
  - constructor; [done|]. intros x. apply IH.
Qed.

Lemma uses_try_finally {A} (p : prog A) q :
  uses ok p → uses ok q → uses ok (try_finally p q).
Proof.
  intros Hp Hq. induction Hp as [a|e|X e k Hok Hk IH]; simpl.
  - apply uses_bind; [done|]. intros _. constructor.
  - apply uses_bind; [done|]. intros _. constructor.
  - constructor; [done|]. intros x. apply IH.
Qed.

End WorkerCode.

Ltac uses_step :=
  first
    [ apply uses_ret
    | apply uses_raise
    | apply uses_percent_of
    | apply uses_call; exact I
    | apply uses_call_r; exact I
    | apply uses_bind; [|intro]
    | apply uses_vis; [exact I|intro]
    | apply uses_try_except; [|intro]
    | apply uses_try_finally
    | assumption ].

Ltac uses_case :=
  match goal with
  | |- uses _ (let _ := _ in _) => progress cbv zeta
  | |- uses _ (if ?b then _ else _) => destruct b
  | |- uses _ (match ?x with _ => _ end) => destruct x
  | |- uses _ (let '(_, _) := ?x in _) => destruct x
  end.

Ltac uses_auto := repeat (uses_step || uses_case).

Section OneTask.

Context (E : environment).

Lemma worker_read_message : uses worker read_message.
Proof. unfold read_message. uses_auto. Qed.

Lemma worker_download_loop dest total chunks :
  ∀ d lp, uses worker (download_loop dest total chunks d lp).
Proof.
  induction chunks as [|ch rest IH]; intros d lp.
  - constructor; [done|]. intros []; constructor.
  - constructor; [done|]. intros []; [constructor|].
    destruct ch as [err|chunk]; [constructor|].
    uses_auto; apply IH.
Qed.

Lemma worker_extract_loop target total members :
  ∀ index, uses worker (extract_loop target total members index).
Proof.
  induction members as [|m rest IH]; intros index; [constructor|].
  constructor; [done|]. intros []; [constructor|].
  uses_auto. apply IH.
Qed.

Lemma worker_remove_items target names : uses worker (remove_items target names).
Proof.
  induction names as [|name rest IH]; [constructor|].
  change (remove_items target (name :: rest))
    with (remove_item (PosixPath.join target name);; remove_items target rest).
  unfold remove_item. uses_auto.
Qed.

Lemma worker_handle_start_update msg : uses worker (handle_start_update msg).
Proof.
  unfold handle_start_update.
  destruct (msg !! "downloadUrl") as [url|]; [|uses_auto].
  destruct (Py.truthy url); [|uses_auto].
  apply uses_bind; [unfold prepare, resolve_target_dir; uses_auto|].
  intros [target temp]. unfold guarded.
  apply uses_try_finally; [|uses_auto].
  apply uses_try_except; [|intros []; simpl; uses_auto].
  unfold update_steps, after_download.
  apply uses_bind.
  { unfold download_with_progress, content_length_int. uses_auto.
    apply worker_download_loop. }
  intros _. apply uses_bind.
  { unfold ensure_clean_target_dir. uses_auto. apply worker_remove_items. }
  intros _. apply uses_bind; [uses_auto|]. intros _.
  apply uses_bind; [uses_auto|]. intros _.
  apply uses_bind; [|intros _; uses_auto].
  unfold extract_with_progress. uses_auto. apply worker_extract_loop.
Qed.

Lemma worker_dispatch msg :
  msg !! "cmd" ≠ Some "start_update" → uses worker (dispatch msg).
Proof.
  intros Hcmd. unfold dispatch.
  rewrite (bool_decide_eq_false_2 _ Hcmd).
  case_bool_decide; [uses_auto|].
  case_bool_decide; [|uses_auto].
  unfold check_install_dir, normalize_path. uses_auto.
Qed.

Lemma at_work_try_finally q :
  uses worker q → at_work (try_finally q (call (SetUpdateThread None))).
Proof.
  intros Hq. induction Hq as [a|e|X e k Hok Hk IH]; simpl.
  - right. by split.
  - right. by split.
  - left. by split.
Qed.

Lemma at_work_run_update msg : at_work (run_update msg).
Proof. apply at_work_try_finally, worker_handle_start_update. Qed.

Lemma same_threads_perform X (e : eff X) s :
  worker X e → same_threads s (perform E e s).2.
Proof.
  intros He. destruct e; simpl in He; try done; simpl; try done.
  unfold mkdtemp. by repeat case_match.
Qed.

(** A program without thread primitives leaves the threads and the slot
    as they were. *)
Lemma same_threads_exec {A} (p : prog A) c :
  uses worker p → same_threads c.2 (exec E p c).2.2.
Proof.
  intros Hp. apply (exec_uses E worker same_threads); try done.
  - intros s1 s2 s3 (H1 & H2 & H3) (H4 & H5 & H6). unfold same_threads.
    by rewrite H4, H5, H6.
  - intros X e s. apply same_threads_perform.
Qed.

Lemma one_task_same_threads s s' : same_threads s s' → one_task s → one_task s'.
Proof. intros (Ht & Hu & Hn) Hs. unfold one_task. by rewrite Ht, Hu, Hn. Qed.

End OneTask.

Section OneTaskInvariant.

Context (E : environment).

Lemma one_task_initial s : threads s = ∅ → one_task s.
Proof.
  intros Hempty. unfold one_task. rewrite Hempty. split.
  - intros t _. apply lookup_empty.
  - intros t p Hp. by rewrite lookup_empty in Hp.
Qed.

Lemma one_task_lt s t th : one_task s → threads s !! t = Some th → (t < next_tid s)%nat.
Proof.
  intros [Hfresh _] Ht. destruct (decide (t < next_tid s)%nat); [done|].
  rewrite Hfresh in Ht by lia. done.
Qed.

Lemma one_task_dispatch msg s r s' :
  one_task s → run E (dispatch msg) s = (r, s') → one_task s'.
Proof.
  intros Hs Hrun.
  destruct (decide (msg !! "cmd" = Some "start_update")) as [Hcmd|Hcmd].
  - assert (Hcases :
      (∃ t code, update_thread s = Some t ∧ threads s !! t = Some (Running code)) ∨
      (∀ t code, update_thread s = Some t → threads s !! t ≠ Some (Running code))).
    { destruct (update_thread s) as [t|]; [|right; done].
      destruct (threads s !! t) as [[m|code]|] eqn:Ht.
      - right. intros ? ? [= <-]. by rewrite Ht.
      - left. eauto.
      - right. intros ? ? [= <-]. by rewrite Ht. }
    destruct Hcases as [(t & code & Hslot & Hthread)|Hidle].
    + destruct (start_update_rejected E msg s t code Hcmd Hslot Hthread)
        as (s1 & Hrun1 & _ & _ & Hth & Hn & Hu & _).
      rewrite Hrun1 in Hrun. injection Hrun as _ <-.
      apply (one_task_same_threads s); [|done].
      unfold same_threads. by rewrite Hth, Hn, Hu, Hslot.
    + rewrite (run_start_update_accepted E msg s Hcmd Hidle) in Hrun.
      injection Hrun as _ <-. destruct Hs as [Hfresh Hthreads].
      split; simpl.
      * intros t Ht. rewrite !lookup_insert_ne by lia. apply Hfresh. lia.
      * intros t p. destruct (decide (t = next_tid s)) as [->|Hne].
        -- rewrite lookup_insert_eq. intros [= <-]. right.
           split; [done|]. apply at_work_run_update.
        -- rewrite !lookup_insert_ne by done. intros Hp.
           destruct (Hthreads t p Hp) as [Hfin|[Hslot _]]; [by left|].
           by destruct (Hidle t p Hslot).
  - apply (one_task_same_threads s); [|done].
    pose proof (same_threads_exec E (dispatch msg) ([], s) (worker_dispatch msg Hcmd))
      as Hsame.
    unfold run in Hrun. injection Hrun as _ <-. exact Hsame.
Qed.

Lemma one_task_main_turn s r s' :
  one_task s → run E main_turn s = (r, s') → one_task s'.
Proof.
  intros Hs Hrun.
  destruct (run E read_message s) as [r1 s1] eqn:Hread.
  assert (Hs1 : one_task s1).
  { apply (one_task_same_threads s); [|done].
    pose proof (same_threads_exec E read_message ([], s) worker_read_message)
      as Hsame.
    unfold run in Hread. injection Hread as _ <-. exact Hsame. }
  rewrite (run_main_turn_read E s r1 s1 Hread) in Hrun.
  destruct r1 as [[|m|]|e].
  - by injection Hrun as _ <-.
  - by eapply one_task_dispatch.
  - by injection Hrun as _ <-.
  - by injection Hrun as _ <-.
Qed.

(** Every step of the process keeps at most one update task. *)
Lemma one_task_step c c' : one_task c.1 → step E c c' → one_task c'.1.
Proof.
  intros Hs Hstep.
  destruct Hstep as [s r s' Hrun|s t X e k x s' Ht Hperform|s t Ht|s t e Ht];
    simpl in *.
  - by eapply one_task_main_turn.
  - pose proof (one_task_lt _ _ _ Hs Ht) as Hlt.
    destruct Hs as [Hfresh Hthreads].
    destruct (Hthreads _ _ Ht) as [[]|[Hslot [[Hw Hk]|[Hrel Hk]]]].
    + pose proof (same_threads_perform E X e s Hw) as (Hth & Hu & Hn).
      rewrite Hperform in Hth, Hu, Hn. simpl in Hth, Hu, Hn.
      split; simpl.
      * intros t' Ht'. rewrite lookup_insert_ne by lia.
        rewrite Hth. apply Hfresh. lia.
      * intros t' p. destruct (decide (t' = t)) as [->|Hne].
        -- rewrite lookup_insert_eq. intros [= <-]. right.
           split; [congruence|apply Hk].
        -- rewrite lookup_insert_ne, Hth, Hu by done. apply Hthreads.
    + destruct e; try done. destruct t0; [done|].
      simpl in Hperform. injection Hperform as <- <-.
      split; simpl.
      * intros t' Ht'. rewrite lookup_insert_ne by lia. apply Hfresh. lia.
      * intros t' p. destruct (decide (t' = t)) as [->|Hne].
        -- rewrite lookup_insert_eq. intros [= <-]. left. apply Hk.
        -- rewrite lookup_insert_ne by done. intros Hp.
           destruct (Hthreads t' p Hp) as [Hfin|[Hslot' _]]; [by left|].
           congruence.
  - destruct Hs as [Hfresh Hthreads]. split; simpl.
    + intros t' Ht'. apply lookup_delete_None. right. by apply Hfresh.
    + intros t' p Hp. apply lookup_delete_Some in Hp as [_ Hp].
      by apply Hthreads.
  - destruct Hs as [Hfresh Hthreads]. split; simpl.
    + intros t' Ht'. apply lookup_delete_None. right. by apply Hfresh.
    + intros t' p Hp. apply lookup_delete_Some in Hp as [_ Hp].
      by apply Hthreads.
Qed.

Lemma one_task_reachable c c' : one_task c.1 → rtc (step E) c c' → one_task c'.1.
Proof.
  intros Hs Hsteps. induction Hsteps as [c|c c1 c2 Hstep _ IH]; [done|].
  apply IH. by eapply one_task_step.
Qed.

(** C2.  At most one update task is running at any time.  In every state
    the process reaches, a started thread that has not finished its work is
    the thread the slot holds.  A [start_update] received while that thread
    is alive is answered by exactly one error status and one log line, and
    nothing else changes: no thread is created, the slot still holds the
    running thread, the thread's code has not moved, and the cancellation
    flag is as it was. *)
Theorem C2_at_most_one_update_task s0 s m msg t code :
  one_task s0 →
  rtc (step E) (s0, InLoop) (s, m) →
  msg !! "cmd" = Some "start_update" →
  update_thread s = Some t →
  threads s !! t = Some (Running code) →
  (∀ t' code', threads s !! t' = Some (Running code') → t' = t ∨ finished code') ∧
  ∃ s',
    run E (dispatch msg) s = (Returned true, s') ∧
    stdout s' = (stdout s ++ [Failed "已有更新任务正在执行"])%list ∧
    logfile s' = (logfile s ++ ["reject: update already running"])%list ∧
    threads s' = threads s ∧
    next_tid s' = next_tid s ∧
    update_thread s' = Some t ∧
    cancel_event s' = cancel_event s ∧
    files s' = files s ∧
    stdin s' = stdin s.
Proof.
  intros Hs0 Hreach Hcmd Hslot Hthread. split.
  - pose proof (one_task_reachable (s0, InLoop) (s, m) Hs0 Hreach) as [_ Hthreads].
    intros t' code' Ht'.
    destruct (Hthreads t' code' Ht') as [Hfin|[Hslot' _]]; [by right|].
    left. simpl in Hslot'. congruence.
  - by eapply start_update_rejected.
Qed.

End OneTaskInvariant.

Lemma C2_at_most_one_update_task_witness :
  (∀ t' code',
     threads Demo.busy !! t' = Some (Running code') → t' = 0%nat ∨ finished code') ∧
  ∃ s',
    run Demo.env (dispatch Demo.start_msg) Demo.busy = (Returned true, s') ∧
    stdout s' = (stdout Demo.busy ++ [Failed "已有更新任务正在执行"])%list ∧
    logfile s' = (logfile Demo.busy ++ ["reject: update already running"])%list ∧
    threads s' = threads Demo.busy ∧
    next_tid s' = next_tid Demo.busy ∧
    update_thread s' = Some 0%nat ∧
    cancel_event s' = cancel_event Demo.busy ∧
    files s' = files Demo.busy ∧
    stdin s' = stdin Demo.busy.
Proof.
  apply (C2_at_most_one_update_task Demo.env Demo.busy Demo.busy InLoop
           Demo.start_msg 0%nat (run_update Demo.start_msg)).
  - split.
    + intros t Ht. apply lookup_singleton_ne. simpl in Ht. lia.
    + intros t p Hp. unfold Demo.busy in Hp. simpl in Hp.
      apply lookup_singleton_Some in Hp as [<- [= <-]].
      right. split; [done|]. apply at_work_run_update.
  - apply rtc_refl.
  - vm_compute. reflexivity.
  - reflexivity.
  - apply lookup_singleton_eq.
Defined.

(** * Further properties *)

Section Wire.

Context (E : environment).

Lemma low_byte_to_N n : Z.of_N (Byte.to_N (low_byte n)) = n `mod` 256.
Proof.
  unfold low_byte.
  pose proof (Z.mod_pos_bound n 256 ltac:(lia)) as Hb.
  destruct (Byte.of_N (Z.to_N (n `mod` 256))) as [b|] eqn:Hof.
  - apply Byte.to_of_N in Hof. simpl. rewrite Hof. lia.
  - apply Byte.of_N_None_iff in Hof. lia.
Qed.

Lemma low_byte_of_to_N b : low_byte (Z.of_N (Byte.to_N b)) = b.
Proof.
  unfold low_byte. pose proof (Byte.to_N_bounded b) as Hb.
  rewrite Z.mod_small by lia. rewrite N2Z.id, Byte.of_to_N. done.
Qed.

Lemma unpack_pack n raw : pack_u32_le n = Some raw → unpack_u32_le raw = Some n.
Proof.
  unfold pack_u32_le. case_match eqn:Hr; [|done]. intros [= <-].
  apply andb_true_iff in Hr as [H0 H1].
  apply Z.leb_le in H0. apply Z.ltb_lt in H1.
  unfold unpack_u32_le. rewrite !low_byte_to_N. f_equal.
  change (2 ^ 32) with 4294967296 in H1.
  pose proof (Z.div_mod n 256 ltac:(lia)).
  pose proof (Z.div_mod (n / 256) 256 ltac:(lia)).
  assert (Hd2 : n / 65536 = n / 256 / 256).
  { rewrite Z.div_div by lia. reflexivity. }
  assert (Hd3 : n / 16777216 = n / 256 / 256 / 256).
  { rewrite !Z.div_div by lia. reflexivity. }
  rewrite Hd3, Hd2.
  pose proof (Z.div_mod (n / 256 / 256) 256 ltac:(lia)).
  pose proof (Z.mod_pos_bound (n / 256 / 256) 256 ltac:(lia)).
  assert (n / 256 / 256 / 256 < 256).
  { rewrite <- Hd3. apply Z.div_lt_upper_bound; lia. }
  assert (0 ≤ n / 256 / 256 / 256).
  { rewrite <- Hd3. apply Z.div_pos; lia. }
  rewrite (Z.mod_small (n / 256 / 256 / 256)) by lia.
  lia.
Qed.

Lemma pack_unpack raw n : unpack_u32_le raw = Some n → pack_u32_le n = Some raw.
Proof.
  destruct raw as [|b0 [|b1 [|b2 [|b3 [|? ?]]]]]; try discriminate.
  unfold unpack_u32_le. intros [= <-].
  pose proof (Byte.to_N_bounded b0). pose proof (Byte.to_N_bounded b1).
  pose proof (Byte.to_N_bounded b2). pose proof (Byte.to_N_bounded b3).
  set (x0 := Z.of_N (Byte.to_N b0)) in *. set (x1 := Z.of_N (Byte.to_N b1)) in *.
  set (x2 := Z.of_N (Byte.to_N b2)) in *. set (x3 := Z.of_N (Byte.to_N b3)) in *.
  assert (0 ≤ x0 < 256 ∧ 0 ≤ x1 < 256 ∧ 0 ≤ x2 < 256 ∧ 0 ≤ x3 < 256)
    as (? & ? & ? & ?) by (subst x0 x1 x2 x3; lia).
  set (n := x0 + 256 * x1 + 65536 * x2 + 16777216 * x3).
  unfold pack_u32_le. change (2 ^ 32) with 4294967296.
  rewrite (proj2 (Z.leb_le 0 n)), (proj2 (Z.ltb_lt n 4294967296)) by (subst n; lia).
  simpl andb. cbv iota.
  assert (H256 : n / 256 = x1 + 256 * x2 + 65536 * x3).
  { symmetry. apply (Z.div_unique n 256 _ x0); subst n; lia. }
  assert (H65536 : n / 65536 = x2 + 256 * x3).
  { symmetry. apply (Z.div_unique n 65536 _ (x0 + 256 * x1)); subst n; lia. }
  assert (H16 : n / 16777216 = x3).
  { symmetry. apply (Z.div_unique n 16777216 _ (x0 + 256 * x1 + 65536 * x2));
      subst n; lia. }
  assert (Hl0 : low_byte n = b0).
  { rewrite <- (low_byte_of_to_N b0). unfold low_byte. fold x0.
    replace (n `mod` 256) with (x0 `mod` 256); [done|].
    symmetry. rewrite (Z.mod_small x0) by lia.
    symmetry. apply (Z.mod_unique n 256 (x1 + 256 * x2 + 65536 * x3)); subst n; lia. }
  assert (Hl1 : low_byte (n / 256) = b1).
  { rewrite H256, <- (low_byte_of_to_N b1). unfold low_byte. fold x1.
    replace ((x1 + 256 * x2 + 65536 * x3) `mod` 256) with (x1 `mod` 256); [done|].
    rewrite (Z.mod_small x1) by lia.
    apply (Z.mod_unique _ 256 (x2 + 256 * x3)); lia. }
  assert (Hl2 : low_byte (n / 65536) = b2).
  { rewrite H65536, <- (low_byte_of_to_N b2). unfold low_byte. fold x2.
    replace ((x2 + 256 * x3) `mod` 256) with (x2 `mod` 256); [done|].
    rewrite (Z.mod_small x2) by lia.
    apply (Z.mod_unique _ 256 x3); lia. }
  assert (Hl3 : low_byte (n / 16777216) = b3).
  { rewrite H16. apply low_byte_of_to_N. }
  by rewrite Hl0, Hl1, Hl2, Hl3.
Qed.

(** X1.  [struct.unpack('<I', ...)] and [struct.pack('<I', ...)] are inverse
    of each other between the four-byte strings and the numbers from 0 to
    [2^32 - 1]; [pack] fails on every other number, [unpack] on every other
    string. *)
Theorem length_prefix_round_trip raw n :
  unpack_u32_le raw = Some n ↔ pack_u32_le n = Some raw.
Proof. split; [apply pack_unpack|apply unpack_pack]. Qed.

Lemma pack_u32_le_range n :
  is_Some (pack_u32_le n) ↔ 0 ≤ n < 2 ^ 32.
Proof.
  unfold pack_u32_le. destruct (0 <=? n) eqn:H0, (n <? 2 ^ 32) eqn:H1; simpl.
  all: try apply Z.leb_le in H0; try apply Z.ltb_lt in H1.
  all: try apply Z.leb_gt in H0; try apply Z.ltb_ge in H1.
  all: split; [intros [x Hx]; try done; lia|intros; try lia; eauto].
Qed.

Lemma unpack_length raw n : unpack_u32_le raw = Some n → length raw = 4%nat.
Proof.
  destruct raw as [|? [|? [|? [|? [|? ?]]]]]; simpl; try discriminate; done.
Qed.

Lemma frame_split data bytes :
  frame data = Some bytes →
  ∃ prefix, pack_u32_le (len data) = Some prefix ∧ bytes = (prefix ++ data)%list.
Proof.
  unfold frame. destruct (pack_u32_le (len data)) as [prefix|]; [|done].
  intros [= <-]. eauto.
Qed.

(** [read_message] on an input that starts with a frame. *)
Lemma read_message_frame data bytes rest s :
  frame data = Some bytes →
  data ≠ [] →
  stdin s = (bytes ++ rest)%list →
  run E read_message s =
  (match json_loads E data with
   | inl e => Raised (library e)
   | inr v => Returned v
   end, set_stdin rest s).
Proof.
  intros Hframe Hdata Hin.
  destruct (frame_split _ _ Hframe) as (prefix & Hpack & ->).
  pose proof (unpack_pack _ _ Hpack) as Hunpack.
  pose proof (unpack_length _ _ Hunpack) as Hlen.
  rewrite <- app_assoc in Hin.
  destruct (firstn_app_exact prefix (data ++ rest) 4 Hlen) as [Ht Hd].
  unfold run, read_message. simpl. rewrite Hin.
  change (Z.to_nat 4) with 4%nat. rewrite Ht, Hd.
  destruct prefix as [|b0 prefix]; [discriminate Hlen|].
  rewrite bool_decide_eq_false_2 by discriminate.
  rewrite Hunpack. simpl.
  assert (Hn : Z.to_nat (len data) = length data) by (unfold len; lia).
  rewrite Hn, take_app_length, drop_app_length.
  rewrite bool_decide_eq_false_2 by done. simpl.
  destruct (json_loads E data); reflexivity.
Qed.

(** X2.  What [send_message] frames, [read_message] reads: on an input
    that starts with the frame of a non-empty [data], [read_message] takes
    exactly the frame, hands [data] to the JSON decoder, and leaves what
    follows the frame for the next call. *)
Theorem read_message_reads_frame data bytes rest s :
  frame data = Some bytes →
  data ≠ [] →
  stdin s = (bytes ++ rest)%list →
  run E read_message s =
  (match json_loads E data with
   | inl e => Raised (library e)
   | inr v => Returned v
   end, set_stdin rest s).
Proof. apply read_message_frame. Qed.

(** X3.  An input that ends inside the length prefix, after one to three
    bytes, makes [read_message] raise [struct.error]; [main] does not catch
    it, and the process ends with that exception. *)
Theorem truncated_prefix_crashes s :
  (0 < length (stdin s) < 4)%nat →
  run E read_message s
  = (Raised (Error "struct.error" "unpack requires a buffer of 4 bytes"),
     set_stdin [] s) ∧
  step E (s, InLoop)
    (set_stdin [] s,
     Crashed (Error "struct.error" "unpack requires a buffer of 4 bytes")).
Proof.
  intros Hlen.
  assert (Hrun : run E read_message s
    = (Raised (Error "struct.error" "unpack requires a buffer of 4 bytes"),
       set_stdin [] s)).
  { unfold run, read_message. simpl. change (Z.to_nat 4) with 4%nat.
    rewrite take_ge, drop_ge by lia.
    destruct (stdin s) as [|b0 [|b1 [|b2 [|b3 l]]]]; simpl in Hlen; try lia.
    all: rewrite bool_decide_eq_false_2 by discriminate; reflexivity. }
  split; [exact Hrun|].
  apply (step_main E s (Raised _)).
  rewrite (run_main_turn_read _ _ _ _ Hrun). reflexivity.
Qed.

(** X4.  A frame whose body decodes to [null] ends the session as the end
    of the input does: the loop of [main] breaks and the process ends
    normally, whatever follows on the input.  A frame whose body decodes to
    a value that is neither [null] nor an object ends the process with
    [AttributeError]. *)
Theorem non_object_message_ends_session data bytes rest s v :
  frame data = Some bytes →
  data ≠ [] →
  stdin s = (bytes ++ rest)%list →
  json_loads E data = inr v →
  match v with
  | JNull => step E (s, InLoop) (set_stdin rest s, Exited)
  | JOther =>
      step E (s, InLoop)
        (set_stdin rest s,
         Crashed (Error "AttributeError" "object has no attribute 'get'"))
  | JObject m => run E main_turn s = run E (dispatch m) (set_stdin rest s)
  end.
Proof.
  intros Hframe Hdata Hin Hv.
  pose proof (read_message_frame data bytes rest s Hframe Hdata Hin) as Hrun.
  rewrite Hv in Hrun.
  pose proof (run_main_turn_read _ _ _ _ Hrun) as Hturn.
  destruct v.
  - apply (step_main E s (Returned false)). exact Hturn.
  - exact Hturn.
  - apply (step_main E s (Raised _)). exact Hturn.
Qed.

End Wire.

Section Replies.

Context (E : environment).

Lemma idle_dec s : idle s ∨ ∃ t code, update_thread s = Some t ∧ threads s !! t = Some (Running code).
Proof.
  unfold idle. destruct (update_thread s) as [t|]; [|left; done].
  destruct (threads s !! t) as [[m|code]|] eqn:Ht.
  - left. intros ? ? [= <-]. by rewrite Ht.
  - right. eauto.
  - left. intros ? ? [= <-]. by rewrite Ht.
Qed.

(** What [dispatch] does with a command, whatever it is. *)
Lemma dispatch_outcome msg s :
  ∃ s' out,
    run E (dispatch msg) s = (Returned true, s') ∧
    stdout s' = (stdout s ++ out)%list ∧
    stdin s' = stdin s ∧
    files s' = files s ∧
    (msg !! "cmd" = Some "start_update" ∧ idle s → out = []) ∧
    (¬ (msg !! "cmd" = Some "start_update" ∧ idle s) → ∃ m, out = [m]).
Proof.
  destruct (decide (msg !! "cmd" = Some "start_update")) as [Hstart|Hstart].
  { destruct (idle_dec s) as [Hidle|(t & code & Hslot & Hthread)].
    - rewrite (run_start_update_accepted E msg s Hstart Hidle).
      eexists _, []. split; [reflexivity|]. simpl. rewrite app_nil_r.
      repeat split; try done. intros []. by split.
    - destruct (start_update_rejected E msg s t code Hstart Hslot Hthread)
        as (s' & Hrun & Hout & _ & _ & _ & _ & _ & Hfiles & Hstdin).
      exists s', [Failed "已有更新任务正在执行"].
      repeat split; try done.
      + intros [_ Hidle]. by destruct (Hidle t code Hslot).
      + intros _. eauto. }
  destruct (decide (msg !! "cmd" = Some "cancel_update")) as [Hcancel|Hcancel].
  { rewrite (run_cancel_update E msg s Hcancel).
    eexists _, [_]. repeat split; try done.
    - by intros [? _].
    - intros _. eauto. }
  unfold dispatch.
  rewrite (bool_decide_eq_false_2 _ Hstart), (bool_decide_eq_false_2 _ Hcancel).
  case_bool_decide as Hcheck.
  - rewrite run_bind, run_check_install_dir.
    destruct (Py.truthy _); [destruct (node_of E s _) as [[| |]|]|].
    all: eexists _, [_]; split; [reflexivity|].
    all: repeat split; try done; [by intros [? _]|intros _; eauto].
  - eexists _, [_]. split; [reflexivity|].
    repeat split; try done; [by intros [? _]|intros _; eauto].
Qed.

(** X6.  An update started without a download address (the key is
    missing, or its value is empty) sends one error status and does nothing
    else: no log line, no directory, no download; the slot is freed when
    the thread function returns. *)
Theorem start_update_without_url msg c :
  default "" (msg !! "downloadUrl") = "" →
  exec E (run_update msg) c
  = (Returned tt,
     (c.1, set_update_thread None
             (set_stdout (stdout c.2 ++ [Failed "缺少下载地址"]) c.2))).
Proof.
  intros Hurl. destruct c as [sched s].
  unfold run_update, handle_start_update.
  destruct (msg !! "downloadUrl") as [url|]; simpl in Hurl; [subst url|];
    reflexivity.
Qed.

Lemma no_end_sent_refl s : no_end_sent s s.
Proof. exists []. by rewrite app_nil_r. Qed.

Lemma no_end_sent_trans s1 s2 s3 :
  no_end_sent s1 s2 → no_end_sent s2 s3 → no_end_sent s1 s3.
Proof.
  intros (out1 & Ho1 & Ha1) (out2 & Ho2 & Ha2).
  exists (out1 ++ out2)%list. split; [|by apply Forall_app].
  by rewrite Ho2, Ho1, app_assoc.
Qed.

Lemma no_end_sent_perform X (e : eff X) s :
  sends_no_end X e → no_end_sent s (perform E e s).2.
Proof.
  intros He.
  destruct e; simpl in *; unfold lift_fs, mkdtemp; simpl;
    try (exists []; by rewrite app_nil_r).
  - eexists [_]. split; [reflexivity|]. by constructor.
  - repeat case_match; exists []; by rewrite app_nil_r.
  - repeat case_match; exists []; by rewrite app_nil_r.
Qed.

Lemma no_end_sent_exec {A} (p : prog A) c :
  uses sends_no_end p → no_end_sent c.2 (exec E p c).2.2.
Proof.
  intros Hp. apply (exec_uses E sends_no_end no_end_sent); try done.
  - apply no_end_sent_refl.
  - apply no_end_sent_trans.
  - apply no_end_sent_perform.
  - intros s. exists []. by rewrite app_nil_r.
Qed.

Ltac quiet_step :=
  first
    [ apply uses_ret
    | apply uses_raise
    | apply uses_percent_of
    | apply uses_call; first [exact I | intros []]
    | apply uses_call_r; exact I
    | apply uses_bind; [|intro]
    | apply uses_vis; [first [exact I | intros []]|intro]
    | apply uses_try_except; [|intro]
    | apply uses_try_finally
    | assumption ].

Ltac quiet_auto := repeat (quiet_step || uses_case).

Lemma quiet_prepare msg : uses sends_no_end (prepare msg).
Proof. unfold prepare, resolve_target_dir. quiet_auto. Qed.







(** X7.  When [handle_start_update] fails before its [try] statement
    (the target directory or the temporary directory cannot be created),
    the exception ends the update thread: the slot is freed, and no
    [complete], [error] or [canceled] status is ever sent for this
    update. *)
Theorem failed_preparation_is_silent msg url c e c1 :
  msg !! "downloadUrl" = Some url → Py.truthy url = true →
  exec E (prepare msg) c = (Raised e, c1) →
  exec E (run_update msg) c = (Raised e, (c1.1, set_update_thread None c1.2)) ∧
  no_end_sent c.2 (set_update_thread None c1.2).
Proof.
  intros Hurl Htruthy Hprep. split.
  - unfold run_update, handle_start_update.
    rewrite Hurl, Htruthy, exec_try_finally, exec_bind, Hprep.
    by destruct c1.
  - pose proof (no_end_sent_exec (prepare msg) c (quiet_prepare msg)) as Hq.
    rewrite Hprep in Hq. exact Hq.
Qed.




End Replies.

Section RepliesOfCommands.

Context (E : environment).


End RepliesOfCommands.


Section DownloadData.

Context (E : environment).

Import PyFloat.

Lemma quiet_hd sched : quiet sched → hd false sched = false.
Proof. intros Hq. destruct sched as [|b sched]; [done|]. by inversion Hq. Qed.

Lemma quiet_tail sched : quiet sched → quiet (tail sched).
Proof. intros Hq. destruct sched as [|b sched]; [done|]. by inversion Hq. Qed.

Lemma len_app {A} (l1 l2 : list A) : len (l1 ++ l2) = len l1 + len l2.
Proof. unfold len. rewrite length_app. lia. Qed.

Lemma len_nonneg {A} (l : list A) : 0 ≤ len l.
Proof. unfold len. lia. Qed.

Lemma len_pos {A} (l : list A) : l ≠ [] → 0 < len l.
Proof. unfold len. destruct l; [done|]. simpl. lia. Qed.

(** The loop, without failure or cancellation: every chunk read is
    appended to the file. *)
Lemma download_loop_writes dest total kz chunks rest :
  Forall (λ ch, ch ≠ []) chunks → at_eof rest →
  Fs.locate (cwd E) dest = Some kz → kz ≠ [] →
  ∀ d lp sched s data,
    0 ≤ d → quiet sched → cancel_event s = false →
    files s !! kz = Some (File data) →
    (0 < total → (d + len (concat chunks)) * 100 < total * 2 ^ 1000) →
    ∃ c',
      exec E (download_loop dest total (map inr chunks ++ rest) d lp) (sched, s)
      = (Returned tt, c') ∧
      files c'.2 = <[kz := File (data ++ concat chunks)]> (files s) ∧
      cancel_event c'.2 = false ∧ quiet c'.1.
Proof.
  intros Hchunks Heof Hloc Hkz.
  induction Hchunks as [|ch chunks Hch _ IH];
    intros d lp sched s data Hd Hq Hflag Hfile Hbound.
  - simpl. rewrite app_nil_r.
    assert (Hsame : files s = <[kz := File data]> (files s))
      by (by rewrite insert_id).
    destruct rest as [|[err|[|b chunk]] rest]; try done.
    + rewrite exec_download_loop_nil. cbv zeta. rewrite (quiet_hd _ Hq), Hflag.
      eexists. split; [reflexivity|]. simpl. by split; [|split; [|apply quiet_tail]].
    + rewrite exec_download_loop_cons. cbv zeta. rewrite (quiet_hd _ Hq), Hflag.
      rewrite bool_decide_eq_true_2 by done.
      eexists. split; [reflexivity|]. simpl. by split; [|split; [|apply quiet_tail]].
  - simpl map. simpl app. rewrite exec_download_loop_cons. cbv zeta.
    rewrite (quiet_hd _ Hq), Hflag.
    rewrite bool_decide_eq_false_2 by done.
    assert (Hwrite : Fs.write (cwd E) (files s) dest ch
                     = (inr tt, <[kz := File (data ++ ch)]> (files s))).
    { unfold Fs.write. rewrite Hloc. destruct kz; [done|]. simpl.
      by rewrite Hfile. }
    rewrite Hwrite. simpl fst. simpl snd. cbv iota.
    pose proof (len_pos ch Hch) as Hlen.
    pose proof (len_nonneg (concat chunks)) as Hrest.
    simpl concat in Hbound. rewrite len_app in Hbound.
    assert (Hnext : ∀ lp' s',
      cancel_event s' = false →
      files s' = <[kz := File (data ++ ch)]> (files s) →
      ∃ c',
        exec E (download_loop dest total (map inr chunks ++ rest) (d + len ch) lp')
          (tail sched, s')
        = (Returned tt, c') ∧
        files c'.2 = <[kz := File (data ++ concat (ch :: chunks))]> (files s) ∧
        cancel_event c'.2 = false ∧ quiet c'.1).
    { intros lp' s' Hflag' Hfiles'.
      destruct (IH (d + len ch) lp' (tail sched) s' (data ++ ch)%list)
        as (c' & Hrun & Hfs & Hc & Hq'); [lia|by apply quiet_tail|done| |lia|].
      { rewrite Hfiles'. apply lookup_insert_eq. }
      exists c'. split; [exact Hrun|]. split; [|done].
      rewrite Hfs, Hfiles', insert_insert_eq. simpl concat.
      by rewrite app_assoc. }
    destruct (0 <? total) eqn:Htotal.
    + apply Z.ltb_lt in Htotal.
      destruct (PyFloatFacts.int_true_div_defined ((d + len ch) * 100) total)
        as [p Hp]; [lia|done|lia|].
      rewrite Hp. case_bool_decide; by apply Hnext.
    + destruct (_ =? 0); by apply Hnext.
Qed.

(** X9.  A download that is neither canceled nor interrupted by a failure
    leaves in the destination file exactly the bytes the server sent, in
    the order of the reads, up to the end of the body; no other file is
    touched. *)
Theorem download_stores_received_bytes url dest resp total chunks rest kz sched s :
  urlopen E url = inr resp →
  declared_total (content_length resp) = Some total →
  body resp = (map inr chunks ++ rest)%list →
  Forall (λ ch, ch ≠ []) chunks → at_eof rest →
  (0 < total → len (concat chunks) * 100 < total * 2 ^ 1000) →
  quiet sched → cancel_event s = false →
  Fs.locate (cwd E) dest = Some kz →
  (Fs.open_wb (cwd E) (files s) dest).1 = inr tt →
  ∃ c',
    exec E (download_with_progress url dest) (sched, s) = (Returned tt, c') ∧
    files c'.2 = <[kz := File (concat chunks)]> (files s) ∧
    cancel_event c'.2 = false.
Proof.
  intros Hopen Htotal Hbody Hchunks Heof Hbound Hq Hflag Hloc Hwb.
  assert (Hopened : Fs.open_wb (cwd E) (files s) dest
                    = (inr tt, <[kz := File []]> (files s)) ∧ kz ≠ []).
  { revert Hwb. unfold Fs.open_wb. rewrite Hloc.
    destruct kz as [|x kz]; [simpl; discriminate|].
    repeat case_match; simpl; try discriminate; done. }
  destruct Hopened as [Hopened Hkz].
  unfold download_with_progress. simpl. rewrite Hopen. simpl.
  rewrite Hopened. simpl.
  assert (Hlen : content_length_int (content_length resp) = Ret total).
  { destruct (content_length resp); simpl in Htotal; simplify_eq; reflexivity. }
  rewrite Hlen. simpl. rewrite Hbody.
  destruct (download_loop_writes dest total kz chunks rest Hchunks Heof Hloc Hkz
              0 (-1) sched (set_files (<[kz := File []]> (files s)) s) [])
    as (c' & Hrun & Hfs & Hc & _); [lia|done|done| |intros; specialize (Hbound H); lia|].
  { simpl. apply lookup_insert_eq. }
  exists c'. split; [exact Hrun|]. split; [|done].
  rewrite Hfs. simpl. by rewrite insert_insert_eq.
Qed.

(** Without a positive declared size, the loop reports progress only when
    the number of bytes received is a multiple of twenty chunk sizes. *)
Lemma download_loop_unsized dest total chunks :
  total ≤ 0 →
  ∀ d lp c,
    0 ≤ d →
    ∃ n : nat,
      stdout (exec E (download_loop dest total chunks d lp) c).2.2
      = (stdout c.2 ++ repeat unsized_event n)%list ∧
      d / (CHUNK_SIZE * 20) + Z.of_nat n ≤ (d + received chunks) / (CHUNK_SIZE * 20).
Proof.
  intros Htotal.
  assert (HM : 0 < CHUNK_SIZE * 20) by (unfold CHUNK_SIZE; lia).
  induction chunks as [|ch rest IH]; intros d lp [sched s] Hd.
  - exists 0%nat. rewrite exec_download_loop_nil. simpl. rewrite app_nil_r.
    split; [by destruct (hd false sched)|].
    change (received []) with 0. rewrite !Z.add_0_r. lia.
  - rewrite exec_download_loop_cons. cbv zeta.
    set (s1 := if hd false sched then set_cancel_event true s else s).
    assert (Hout1 : stdout s1 = stdout s)
      by (subst s1; destruct (hd false sched); reflexivity).
    pose proof (received_nonneg (ch :: rest)) as Hrec.
    assert (Hstop : ∀ s2 : sys, stdout s2 = stdout s1 →
              ∃ n : nat,
                stdout s2 = (stdout s ++ repeat unsized_event n)%list ∧
                d / (CHUNK_SIZE * 20) + Z.of_nat n
                ≤ (d + received (ch :: rest)) / (CHUNK_SIZE * 20)).
    { intros s2 Hs2. exists 0%nat. simpl repeat. rewrite app_nil_r.
      split; [congruence|].
      change (Z.of_nat 0) with 0. rewrite Z.add_0_r.
      apply Z.div_le_mono; lia. }
    destruct (cancel_event s1); [by apply Hstop|].
    destruct ch as [err|chunk]; [by apply Hstop|].
    case_bool_decide as Hchunk; [by apply Hstop|].
    destruct (Fs.write (cwd E) (files s1) dest chunk) as [[err|[]] fs'];
      simpl fst; simpl snd; cbv iota; [by apply Hstop|].
    rewrite (proj2 (Z.ltb_ge 0 total)) by lia.
    pose proof (len_pos chunk Hchunk) as Hlen.
    simpl received in *.
    destruct (_ =? 0) eqn:Hmod.
    + apply Z.eqb_eq in Hmod.
      destruct (IH (d + len chunk) lp
                  (tail sched,
                   set_stdout (stdout (set_files fs' s1) ++ [unsized_event])
                     (set_files fs' s1)))
        as (n & Hout & Hn); [lia|].
      exists (S n). split.
      * etrans; [exact Hout|]. simpl. rewrite Hout1, <- app_assoc. reflexivity.
      * assert (Hjump : d / (CHUNK_SIZE * 20) + 1 ≤ (d + len chunk) / (CHUNK_SIZE * 20)).
        { pose proof (Z.div_mod (d + len chunk) (CHUNK_SIZE * 20) ltac:(lia)) as Hdm.
          rewrite Hmod in Hdm.
          pose proof (Z.div_mod d (CHUNK_SIZE * 20) ltac:(lia)) as Hdm'.
          pose proof (Z.mod_pos_bound d (CHUNK_SIZE * 20) HM).
          nia. }
        replace (d + (len chunk + received rest))
          with (d + len chunk + received rest) by lia.
        lia.
    + destruct (IH (d + len chunk) lp (tail sched, set_files fs' s1))
        as (n & Hout & Hn); [lia|].
      exists n. split.
      * etrans; [exact Hout|]. simpl. by rewrite Hout1.
      * assert (d / (CHUNK_SIZE * 20) ≤ (d + len chunk) / (CHUNK_SIZE * 20))
          by (apply Z.div_le_mono; lia).
        replace (d + (len chunk + received rest))
          with (d + len chunk + received rest) by lia.
        lia.
Qed.

(** X10.  When the response declares no size, or a size that is not
    positive, every progress message of the download is the one without a
    percentage, and there is at most one of them for every twenty chunk
    sizes (1 310 720 bytes) received. *)
Theorem unsized_download_progress url dest resp total c :
  urlopen E url = inr resp →
  declared_total (content_length resp) = Some total →
  total ≤ 0 →
  ∃ n : nat,
    stdout (exec E (download_with_progress url dest) c).2.2
    = (stdout c.2 ++ repeat unsized_event n)%list ∧
    Z.of_nat n ≤ received (body resp) / 1310720.
Proof.
  intros Hopen Hdecl Htotal. destruct c as [sched s].
  pose proof (received_nonneg (body resp)) as Hrec.
  unfold download_with_progress. simpl. rewrite Hopen. simpl.
  destruct (Fs.open_wb (cwd E) (files s) dest) as [[err|[]] fs'] eqn:Hw; simpl.
  { exists 0%nat. simpl. rewrite app_nil_r. split; [done|].
    apply Z.div_pos; lia. }
  assert (Hlen : content_length_int (content_length resp) = Ret total).
  { destruct (content_length resp); simpl in Hdecl; simplify_eq; reflexivity. }
  rewrite Hlen. simpl.
  destruct (download_loop_unsized dest total (body resp) Htotal 0 (-1)
              (sched, set_files fs' s) ltac:(lia))
    as (n & Hout & Hn).
  exists n. split; [exact Hout|].
  change (CHUNK_SIZE * 20) with 1310720 in Hn.
  rewrite Z.div_0_l, !Z.add_0_l in Hn by lia. exact Hn.
Qed.

End DownloadData.

Section SessionLoop.

Context (E : environment).

Import PyFloat.

(** A message that is an object took a whole prefix and at least one byte
    of body from the input. *)
Lemma read_message_consumes s m s' :
  run E read_message s = (Returned (JObject m), s') →
  (length (stdin s') + 5 ≤ length (stdin s))%nat.
Proof.
  unfold run, read_message. simpl. change (Z.to_nat 4) with 4%nat.
  case_bool_decide as Hraw; [discriminate|].
  destruct (unpack_u32_le (take 4 (stdin s))) as [n|] eqn:Hn; [|discriminate].
  simpl.
  case_bool_decide as Hdata; [discriminate|]. simpl.
  destruct (json_loads E (take (Z.to_nat n) (drop 4 (stdin s)))) as [err|v];
    [discriminate|].
  intros [= -> <-]. simpl.
  assert (H4 : length (take 4 (stdin s)) = 4%nat).
  { destruct (take 4 (stdin s)) as [|? [|? [|? [|? [|? ?]]]]];
      simpl in Hn; try discriminate; reflexivity. }
  rewrite length_take in H4.
  assert (Hbody : (0 < length (take (Z.to_nat n) (drop 4 (stdin s))))%nat).
  { destruct (take (Z.to_nat n) (drop 4 (stdin s))); [done|simpl; lia]. }
  rewrite length_take, length_drop in Hbody.
  rewrite !length_drop. lia.
Qed.

Lemma main_turn_consumes s s' :
  run E main_turn s = (Returned true, s') →
  (length (stdin s') + 5 ≤ length (stdin s))%nat.
Proof.
  intros Hturn.
  destruct (run E read_message s) as [r s1] eqn:Hread.
  rewrite (run_main_turn_read E s r s1 Hread) in Hturn.
  destruct r as [[|m|]|e]; try discriminate.
  pose proof (read_message_consumes s m s1 Hread) as Hlen.
  destruct (dispatch_outcome E m s1) as (s2 & out & Hrun & _ & Hin & _).
  rewrite Hrun in Hturn. injection Hturn as <-. rewrite Hin. exact Hlen.
Qed.

Lemma main_loop_turn turns s :
  main_loop E (S turns) s =
  match run E main_turn s with
  | (Returned true, s') => main_loop E turns s'
  | (Returned false, s') => Some (Returned tt, s')
  | (Raised e, s') => Some (Raised e, s')
  end.
Proof. reflexivity. Qed.

Lemma main_loop_ends turns : ∀ s,
  (length (stdin s) < 5 * turns)%nat → is_Some (main_loop E turns s).
Proof.
  induction turns as [|turns IH]; intros s Hlen; [lia|].
  rewrite main_loop_turn.
  destruct (run E main_turn s) as [[[]|e] s'] eqn:Hturn; [|by eexists..].
  apply IH. pose proof (main_turn_consumes s s' Hturn). lia.
Qed.

(** X11.  On a finite input [main] ends, normally or with an exception:
    every turn of its loop that does not end it takes at least five bytes
    from the input (a length prefix and a non-empty body), so a session
    over [n] bytes of input has at most [n / 5 + 1] turns. *)
Theorem main_ends_on_finite_input s :
  is_Some (main E (length (stdin s) `div` 5 + 1) s) ∧
  ∀ s', run E main_turn s = (Returned true, s') →
        (length (stdin s') + 5 ≤ length (stdin s))%nat.
Proof.
  split; [|apply main_turn_consumes].
  unfold main. apply main_loop_ends.
  change (stdin (run E (write_log "native host started") s).2) with (stdin s).
  pose proof (Nat.div_mod_eq (length (stdin s)) 5) as Hdm.
  pose proof (Nat.mod_upper_bound (length (stdin s)) 5 ltac:(lia)).
  lia.
Qed.

(** X12.  Cancellation is looked for once before each member of the
    archive.  When it arrives between two members, the members before are
    extracted and reported exactly as without cancellation, no later member
    is extracted, and the extraction ends with [UpdateCanceled]. *)
Theorem extraction_canceled_between_members target total before m rest :
  ∀ index s s' sched,
    cancel_event s = false →
    exec E (extract_loop target total before index)
      (replicate (length before) false, s) = (Returned tt, ([], s')) →
    exec E (extract_loop target total (before ++ m :: rest)%list index)
      ((replicate (length before) false ++ true :: sched)%list, s)
    = (Raised (UpdateCanceled canceled_text), (sched, set_cancel_event true s')).
Proof.
  induction before as [|m0 before IH]; intros index s s' sched Hflag Hrun.
  - simpl in Hrun. injection Hrun as <-.
    simpl app. rewrite exec_extract_loop_cons. reflexivity.
  - simpl length in *. simpl replicate in *. simpl app.
    rewrite exec_extract_loop_cons in Hrun. rewrite exec_extract_loop_cons.
    cbv zeta in *. simpl hd in *. simpl tail in *. cbv iota in *.
    rewrite Hflag in *.
    destruct (Fs.extract (cwd E) (files s) m0 target) as [[err|[]] fs'];
      simpl fst in *; simpl snd in *; cbv iota in *; [discriminate|].
    destruct (int_true_div (index * 100) total) as [p|]; [|discriminate].
    by apply IH.
Qed.

End SessionLoop.

Section Cleaning.

Context (E : environment).

Lemma proper_nameb_spec b : proper_nameb b = true ↔ proper_name b.
Proof.
  unfold proper_nameb, proper_name.
  rewrite !andb_true_iff, !negb_true_iff, !String.eqb_neq. tauto.
Qed.

Lemma well_named_lookup fs k n x :
  well_named fs = true → fs !! k = Some n → x ∈ k → proper_name x.
Proof.
  unfold well_named. rewrite forallb_forall. intros Hall Hk Hx.
  specialize (Hall (k, n)). simpl in Hall.
  rewrite forallb_forall in Hall.
  apply proper_nameb_spec, Hall.
  - apply list_elem_of_In, elem_of_map_to_list. exact Hk.
  - by apply list_elem_of_In.
Qed.

Lemma strip_prefix_spec k : ∀ key l,
  Fs.strip_prefix k key = Some l ↔ key = (k ++ l)%list.
Proof.
  induction k as [|a k IH]; intros key l; simpl.
  - split; [by intros [= ->]|by intros ->].
  - destruct key as [|b key]; [split; discriminate|].
    destruct (String.eqb a b) eqn:Hab.
    + apply String.eqb_eq in Hab as ->. rewrite IH.
      split; [by intros ->|by intros [= ->]].
    + apply String.eqb_neq in Hab. split; [discriminate|]. intros [= -> _]. done.
Qed.

Lemma child_name_spec k key n :
  Fs.child_name k key = Some n ↔ key = (k ++ [n])%list.
Proof.
  unfold Fs.child_name. rewrite <- strip_prefix_spec.
  destruct (Fs.strip_prefix k key) as [[|x [|y l]]|]; split; intros H;
    simplify_eq; done.
Qed.

Lemma elem_of_children fs k n :
  n ∈ Fs.children fs k ↔ is_Some (fs !! (k ++ [n])%list).
Proof.
  unfold Fs.children. rewrite list_elem_of_omap. split.
  - intros ([key x] & Hin & Hchild). simpl in Hchild.
    apply child_name_spec in Hchild as ->.
    apply elem_of_map_to_list in Hin. eauto.
  - intros [x Hx]. exists ((k ++ [n])%list, x). split.
    + by apply elem_of_map_to_list.
    + simpl. by apply child_name_spec.
Qed.

Lemma protected_prefix lk fs k k' :
  k `prefix_of` k' → Fs.protected lk fs k = false → Fs.protected lk fs k' = false.
Proof.
  unfold Fs.protected. intros Hk Hp.
  apply not_true_is_false. intros Hp'.
  apply existsb_exists in Hp' as (l & Hl & Hcond).
  apply andb_true_iff in Hcond as [H1 H2].
  apply bool_decide_eq_true in H1.
  assert (existsb (λ l, bool_decide (k `prefix_of` l) && bool_decide (is_Some (fs !! l)))
            lk = true); [|congruence].
  apply existsb_exists. exists l. split; [done|].
  rewrite H2, andb_true_r. apply bool_decide_eq_true. by etrans.
Qed.

(** What a removal that succeeds has done. *)
Lemma remove_item_success p k sched s c' :
  Fs.locate (cwd E) p = Some k → k ≠ [] →
  exec E (remove_item p) (sched, s) = (Returned tt, c') →
  c'.1 = sched ∧
  files c'.2 !! k = None ∧
  (∀ key x, files c'.2 !! key = Some x → files s !! key = Some x) ∧
  (∀ key, ¬ k `prefix_of` key → files c'.2 !! key = files s !! key).
Proof.
  intros Hloc Hk. unfold remove_item. rewrite exec_try_except.
  simpl.
  assert (Hnode_of : node_of E s p = Fs.node_at (files s) k)
    by (unfold node_of; by rewrite Hloc).
  rewrite Hnode_of.
  destruct (Fs.node_at (files s) k) as [[| |]|] eqn:Hnode; simpl.
  - rewrite Hnode_of. simpl. unfold lift_fs, Fs.rmtree.
    rewrite Hloc, Hnode.
    destruct (Fs.protected (locked E) (files s) k) eqn:Hprot; simpl;
      [discriminate|].
    intros [= <-]. simpl. split; [done|]. split; [|split].
    + apply map_lookup_filter_None. right.
      intros x Hx [Hno|Hp]; simpl in *; [done|congruence].
    + intros key x Hx. by apply map_lookup_filter_Some in Hx as [Hx _].
    + intros key Hkey. apply option_eq. intros x.
      rewrite map_lookup_filter_Some. simpl.
      split; [by intros [Hx _]|]. intros Hx. split; [done|by left].
  - unfold lift_fs, Fs.remove. rewrite Hloc, Hnode.
    destruct (Fs.protected (locked E) (files s) k) eqn:Hprot; simpl;
      [discriminate|].
    intros [= <-]. simpl. split; [done|]. split; [|split].
    + apply lookup_delete_eq.
    + intros key x Hx. by apply lookup_delete_Some in Hx as [_ Hx].
    + intros key Hkey. apply lookup_delete_ne. by intros ->.
  - unfold lift_fs, Fs.remove. rewrite Hloc, Hnode.
    destruct (Fs.protected (locked E) (files s) k) eqn:Hprot; simpl;
      [discriminate|].
    intros [= <-]. simpl. split; [done|]. split; [|split].
    + apply lookup_delete_eq.
    + intros key x Hx. by apply lookup_delete_Some in Hx as [_ Hx].
    + intros key Hkey. apply lookup_delete_ne. by intros ->.
  - unfold lift_fs, Fs.remove. rewrite Hloc, Hnode. simpl. discriminate.
Qed.

Lemma remove_items_success target kt names :
  Fs.locate (cwd E) target = Some kt → Forall proper_name names →
  ∀ sched s c',
    exec E (remove_items target names) (sched, s) = (Returned tt, c') →
    c'.1 = sched ∧
    (∀ n, n ∈ names → files c'.2 !! (kt ++ [n])%list = None) ∧
    (∀ key x, files c'.2 !! key = Some x → files s !! key = Some x) ∧
    (∀ key, (∀ n, n ∈ names → ¬ (kt ++ [n])%list `prefix_of` key) →
            files c'.2 !! key = files s !! key).
Proof.
  intros Hloc Hnames.
  induction Hnames as [|n names Hn _ IH]; intros sched s c' Hrun.
  - simpl in Hrun. injection Hrun as <-. simpl.
    split; [done|]. split; [by intros n Hn%elem_of_nil|]. by split.
  - change (remove_items target (n :: names))
      with (remove_item (PosixPath.join target n);; remove_items target names)
      in Hrun.
    rewrite exec_bind in Hrun.
    destruct (exec E (remove_item (PosixPath.join target n)) (sched, s))
      as [[[]|e] [sched1 s1]] eqn:Hitem; [|discriminate].
    pose proof (locate_join _ _ _ _ Hloc Hn) as Hlocn.
    destruct (remove_item_success _ _ _ _ _ Hlocn ltac:(by destruct kt) Hitem)
      as (Hs1 & Hgone & Hold & Hframe).
    simpl in Hs1, Hgone, Hold, Hframe. subst sched1.
    destruct (IH _ _ _ Hrun) as (Hsched & Hgone' & Hold' & Hframe').
    split; [done|]. split; [|split].
    + intros n' [->|Hn']%elem_of_cons; [|by apply Hgone'].
      destruct (files c'.2 !! (kt ++ [n])%list) as [x|] eqn:Hx; [|done].
      apply Hold' in Hx. congruence.
    + intros key x Hx. by apply Hold, Hold'.
    + intros key Hkey. rewrite Hframe'.
      * apply Hframe. apply Hkey. by left.
      * intros n' Hn'. apply Hkey. by right.
Qed.

End Cleaning.

Section CleaningExistingTarget.

Context (E : environment).

(** X13.  When the operating system finds a directory at the target (no
    symbolic link on the way), the guard of [ensure_clean_target_dir] lets
    the cleaning run and the function returns, the directory is still
    there and is empty, and nothing was added to the file system or changed
    outside the directory.  (A removal that fails raises [RuntimeError]
    instead.) *)
Theorem cleaning_empties_target target kt c c' :
  well_named (files c.2) = true →
  Fs.os_lookup (files c.2) (cwd E) target = Fs.Found kt Dir →
  guard_passes (safe_root E) target →
  exec E (ensure_clean_target_dir target) c = (Returned tt, c') →
  Fs.node_at (files c'.2) kt = Some Dir ∧
  Fs.children (files c'.2) kt = [] ∧
  Fs.listdir (cwd E) (files c'.2) target = inr [] ∧
  (∀ key, ¬ kt `prefix_of` key → files c'.2 !! key = files c.2 !! key) ∧
  (∀ key x, files c'.2 !! key = Some x → files c.2 !! key = Some x).
Proof.
  intros Hnamed Hfound (common & Hcommon & Hguard).
  apply os_lookup_found in Hfound as [Hloc Hnode].
  destruct c as [sched s]. simpl in *.
  unfold ensure_clean_target_dir. simpl.
  assert (Hnode_of : node_of E s target = Some Dir)
    by (unfold node_of; by rewrite Hloc).
  rewrite Hnode_of, bool_decide_eq_true_2 by done. simpl. fold (safe_root E).
  rewrite Hcommon.
  assert (Hpass : (negb (String.eqb common (safe_root E))
                   && negb (String.eqb
                              (Py.lower (PosixPath.basename (PosixPath.normpath target)))
                              allowed_name))%bool = false).
  { destruct Hguard as [-> | ->].
    - by rewrite String.eqb_refl.
    - rewrite String.eqb_refl. apply andb_false_r. }
  rewrite Hpass. simpl. unfold Fs.listdir at 1. rewrite Hloc, Hnode. simpl.
  intros Hrun.
  assert (Hproper : Forall proper_name (Fs.children (files s) kt)).
  { apply Forall_forall. intros n [x Hx]%elem_of_children.
    eapply well_named_lookup; [exact Hnamed|exact Hx|].
    apply elem_of_app. right. by left. }
  destruct (remove_items_success E target kt _ Hloc Hproper _ _ _ Hrun)
    as (_ & Hgone & Hold & Hframe).
  assert (Hkt : Fs.node_at (files c'.2) kt = Some Dir).
  { destruct kt as [|a kt]; [done|]. simpl in *.
    rewrite Hframe; [done|].
    intros n _ [l Hl]. apply (f_equal length) in Hl.
    rewrite !length_app in Hl. simpl in Hl. rewrite length_app in Hl.
    simpl in Hl. lia. }
  assert (Hempty : Fs.children (files c'.2) kt = []).
  { destruct (Fs.children (files c'.2) kt) as [|n l] eqn:Hchildren; [done|].
    assert (Hn : n ∈ Fs.children (files c'.2) kt) by (rewrite Hchildren; by left).
    apply elem_of_children in Hn as [x Hx].
    pose proof (Hold _ _ Hx) as Hx0.
    rewrite Hgone in Hx; [done|]. apply elem_of_children. eauto. }
  split; [done|]. split; [done|]. split; [|split].
  - unfold Fs.listdir. by rewrite Hloc, Hkt, Hempty.
  - intros key Hkey. apply Hframe. intros n _ Hpre. apply Hkey.
    etrans; [|exact Hpre]. by exists [n].
  - exact Hold.
Qed.

End CleaningExistingTarget.

Lemma cleaning_empties_target_witness :
  ∃ c',
    exec Demo.env (ensure_clean_target_dir "/opt/CJT-Helper") ([], Demo.start)
    = (Returned tt, c') ∧
    Fs.node_at (files c'.2) ["opt"; "CJT-Helper"] = Some Dir ∧
    Fs.children (files c'.2) ["opt"; "CJT-Helper"] = [] ∧
    Fs.listdir (cwd Demo.env) (files c'.2) "/opt/CJT-Helper" = inr [] ∧
    (∀ key, ¬ ["opt"; "CJT-Helper"] `prefix_of` key →
            files c'.2 !! key = files Demo.start !! key) ∧
    (∀ key x, files c'.2 !! key = Some x → files Demo.start !! key = Some x).
Proof.
  set (c' := (exec Demo.env (ensure_clean_target_dir "/opt/CJT-Helper")
                ([], Demo.start)).2).
  assert (Hrun : exec Demo.env (ensure_clean_target_dir "/opt/CJT-Helper")
                   ([], Demo.start) = (Returned tt, c'))
    by (vm_compute; reflexivity).
  exists c'. split; [exact Hrun|].
  apply (cleaning_empties_target Demo.env "/opt/CJT-Helper" ["opt"; "CJT-Helper"]
           ([], Demo.start) c').
  - vm_compute. reflexivity.
  - vm_compute. reflexivity.
  - exists "/". split; [vm_compute; reflexivity|]. right. vm_compute. reflexivity.
  - exact Hrun.
Defined.

Section DefaultTarget.

Context (E : environment).

Import PosixPath.

Lemma join_snoc comps x :
  Py.join "/" (comps ++ [x])
  = match comps with
    | [] => x
    | _ => (Py.join "/" comps ++ String sep x)%string
    end.
Proof.
  induction comps as [|p [|q comps] IH]; [done|done|].
  change ((p :: q :: comps) ++ [x])%list with (p :: q :: (comps ++ [x]))%list.
  rewrite !join_cons_cons.
  change (q :: (comps ++ [x]))%list with ((q :: comps) ++ [x])%list.
  rewrite IH, string_app_assoc. reflexivity.
Qed.

Lemma endswith_char_app a b c :
  b ≠ "" → Py.endswith_char (a ++ b) c = Py.endswith_char b c.
Proof.
  intros Hb. induction a as [|x a IH]; [done|].
  change (String x a ++ b)%string with (String x (a ++ b)%string).
  rewrite <- IH. simpl.
  destruct (a ++ b)%string eqn:Hab; [|done].
  destruct a as [|y a].
  - change ("" ++ b)%string with b in Hab. congruence.
  - change (String y a ++ b)%string with (String y (a ++ b)%string) in Hab.
    discriminate.
Qed.

Lemma plain_endswith b : plain b = true → Py.endswith_char b sep = false.
Proof.
  induction b as [|x b IH]; [done|]. simpl.
  destruct (Ascii.eqb x sep) eqn:Hx; [done|]. simpl. intros Hb.
  destruct b; [done|]. by apply IH.
Qed.

Lemma rooted_endswith comps :
  Forall proper_name comps →
  Py.endswith_char (rooted comps) sep = match comps with [] => true | _ => false end.
Proof.
  intros Hall. unfold rooted.
  destruct comps as [|p comps] using rev_ind; [done|].
  apply Forall_app in Hall as [_ Hp]. inversion Hp as [|? ? (Hplain & Hne & _) _]; subst.
  rewrite join_snoc.
  assert (Hlast : Py.endswith_char ("/" ++ Py.join "/" (comps ++ [p])) sep = false).
  { rewrite join_snoc. destruct comps as [|q comps].
    - change ("/" ++ p)%string with (String sep "" ++ p)%string.
      rewrite endswith_char_app by done. by apply plain_endswith.
    - rewrite <- string_app_assoc.
      change (String sep p) with (String sep "" ++ p)%string.
      rewrite <- string_app_assoc, endswith_char_app by done.
      by apply plain_endswith. }
  rewrite join_snoc in Hlast. rewrite Hlast. by destruct comps.
Qed.

(** [os.path.join] of an absolute path in components and a proper name. *)
Lemma join_rooted comps x :
  Forall proper_name comps → proper_name x →
  PosixPath.join (rooted comps) x = rooted (comps ++ [x]).
Proof.
  intros Hall Hx. pose proof Hx as (Hplain & _).
  rewrite join_proper; [|done|done].
  rewrite (rooted_endswith comps Hall). unfold rooted. rewrite join_snoc.
  destruct comps; [done|]. by rewrite string_app_assoc.
Qed.

Lemma common_prefix_app l m : common_prefix (l ++ m) l = l.
Proof.
  induction l as [|a l IH]; [by destruct m|].
  simpl. by rewrite String.eqb_refl, IH.
Qed.

Lemma rooted_absolute l : Py.startswith (rooted l) "/" = true.
Proof.
  unfold rooted.
  change ("/" ++ Py.join "/" l)%string with (String sep (Py.join "/" l)).
  by rewrite startswith_slash.
Qed.

Lemma commonpath_rooted l m :
  Forall proper_name (l ++ m) →
  commonpath (rooted (l ++ m)) (rooted l) = Some (rooted l).
Proof.
  intros Hall.
  assert (Hclean : ∀ q, Forall proper_name q →
            Forall (λ x, plain x = true ∧ x ≠ "" ∧ x ≠ ".") q).
  { intros q Hq. eapply Forall_impl; [exact Hq|]. by intros x (? & ? & ? & _). }
  unfold commonpath.
  rewrite !rooted_absolute. simpl.
  unfold rooted.
  rewrite (clean_comps_join true (l ++ m)) by by apply Hclean.
  rewrite (clean_comps_join true l)
    by (apply Hclean; by apply Forall_app in Hall as [? _]).
  by rewrite common_prefix_app.
Qed.

(** X14.  The default target directory passes the guard: when the message
    names no target directory (or an empty one) and the home directory is a
    normalized absolute path, [resolve_target_dir] returns
    [~/.cjt-helper/auto-update], which [ensure_clean_target_dir] finds
    under the safe root. *)
Theorem default_target_passes_guard msg comps c :
  default "" (msg !! "targetDir") = "" →
  expanduser E "~" = rooted comps →
  Forall proper_name comps →
  exec E (resolve_target_dir msg) c
  = (Returned (rooted (comps ++ [".cjt-helper"; "auto-update"])), c) ∧
  commonpath (rooted (comps ++ [".cjt-helper"; "auto-update"])) (safe_root E)
  = Some (safe_root E) ∧
  guard_passes (safe_root E) (rooted (comps ++ [".cjt-helper"; "auto-update"])).
Proof.
  intros Htarget Hhome Hcomps.
  assert (Hcjt : proper_name ".cjt-helper") by (by repeat split).
  assert (Hauto : proper_name "auto-update") by (by repeat split).
  assert (Hroot : safe_root E = rooted (comps ++ [".cjt-helper"])).
  { unfold safe_root. rewrite Hhome. by apply join_rooted. }
  assert (Hdefault :
    PosixPath.join (PosixPath.join (expanduser E "~") ".cjt-helper") "auto-update"
    = rooted (comps ++ [".cjt-helper"; "auto-update"])).
  { fold (safe_root E). rewrite Hroot, join_rooted; [|..|done].
    - by rewrite <- app_assoc.
    - apply Forall_app. split; [done|]. by constructor. }
  assert (Hcommon :
    commonpath (rooted (comps ++ [".cjt-helper"; "auto-update"])) (safe_root E)
    = Some (safe_root E)).
  { rewrite Hroot.
    change (comps ++ [".cjt-helper"; "auto-update"])%list
      with (comps ++ ([".cjt-helper"] ++ ["auto-update"]))%list.
    rewrite app_assoc. apply commonpath_rooted.
    rewrite <- app_assoc. apply Forall_app. split; [done|].
    constructor; [exact Hcjt|]. constructor; [exact Hauto|]. constructor. }
  split; [|split; [exact Hcommon|]].
  - destruct c as [sched s]. unfold resolve_target_dir.
    destruct (msg !! "targetDir") as [t|]; simpl in Htarget; [subst t|];
      simpl; by rewrite Hdefault.
  - exists (safe_root E). split; [exact Hcommon|by left].
Qed.

End DefaultTarget.

Section TempDir.

Context (E : environment).

Lemma parents_exist_closed fs : parents_exist fs = true → closed fs.
Proof. intros Hfs k n Hk Hne. by eapply parents_exist_lookup. Qed.

Lemma closed_ancestors fs kt l : ∀ n,
  closed fs → kt ≠ [] → fs !! (kt ++ l)%list = Some n → is_Some (fs !! kt).
Proof.
  induction l as [|c l IH] using rev_ind; intros n Hfs Hkt.
  - rewrite app_nil_r. by intros ->.
  - rewrite app_assoc. intros Hk.
    pose proof (Hfs _ _ Hk) as Hparent.
    rewrite removelast_last in Hparent.
    destruct Hparent as [n' Hn']; [by destruct kt|].
    by eapply IH.
Qed.

Lemma mkdirs_closed todo : ∀ fs done fs',
  closed fs → done = [] ∨ is_Some (fs !! done) →
  Fs.mkdirs fs done todo = inr fs' → closed fs'.
Proof.
  induction todo as [|c cs IH]; intros fs done fs' Hfs Hdone; simpl.
  - by intros [= <-].
  - assert (Hk : (done ++ [c])%list ≠ []) by (by destruct done).
    destruct (Fs.node_at fs (done ++ [c])) as [[]|] eqn:Hnode; try done.
    + apply IH; [done|]. right.
      destruct (done ++ [c])%list; [done|]. simpl in Hnode. eauto.
    + apply IH.
      * intros k n. destruct (decide (k = (done ++ [c])%list)) as [->|Hne].
        -- rewrite removelast_last. intros _ Hd.
           destruct Hdone as [->|Hdone]; [done|].
           rewrite lookup_insert_ne; [done|].
           intros Heq. apply (f_equal length) in Heq.
           rewrite length_app in Heq. simpl in Heq. lia.
        -- rewrite lookup_insert_ne by done. intros Hlook Hrl.
           apply lookup_insert_is_Some'. right. by eapply Hfs.
      * right. rewrite lookup_insert_eq. eauto.
Qed.

Lemma makedirs_closed wd fs p : closed fs → closed (Fs.makedirs wd fs p).2.
Proof.
  unfold Fs.makedirs. intros Hfs.
  destruct (Fs.locate wd p) as [k|]; [|done].
  destruct (Fs.mkdirs fs [] k) as [err|fs'] eqn:Hmk; [done|].
  eapply mkdirs_closed; [exact Hfs|by left|exact Hmk].
Qed.


(** What [handle_start_update] has done when it enters its [try]
    statement, in full. *)
Lemma prepare_inv msg sched s target temp c1 :
  exec E (prepare msg) (sched, s) = (Returned (target, temp), c1) →
  Forall (λ n, PosixPath.plain n = true) (tmp_names s) →
  ∃ kt fs1,
    Fs.makedirs (cwd E) (files s) target = (inr tt, fs1) ∧
    Fs.locate (cwd E) temp = Some kt ∧ kt ≠ [] ∧
    fs1 !! kt = None ∧
    files c1.2 = <[kt := Dir]> fs1.
Proof.
  intros Hexec Hnames. unfold prepare in Hexec.
  rewrite exec_bind in Hexec.
  destruct (exec_resolve_target_dir E msg (sched, s)) as [t Ht].
  rewrite Ht in Hexec. simpl in Hexec.
  destruct (Fs.makedirs (cwd E) (files s) t) as [[err|[]] fs1] eqn:Hmk;
    simpl in Hexec; [done|].
  unfold mkdtemp in Hexec. simpl in Hexec.
  destruct (Fs.locate (cwd E) (tmpdir E)) as [d|] eqn:Hd; [|done].
  destruct (Fs.node_at fs1 d) as [[]|]; try done.
  destruct (Fs.pick_temp fs1 d "cjt_helper_update_" (tmp_names s))
    as [[name rest]|] eqn:Hpick; [|done].
  simpl in Hexec. injection Hexec as <- <- <-.
  destruct (pick_temp_fresh _ _ _ _ _ _ Hpick) as (Hfresh & n & Hin & ->).
  exists (d ++ [("cjt_helper_update_" ++ n)%string])%list, fs1.
  split; [done|]. split; [|split; [by destruct d|split; [done|done]]].
  apply locate_join; [done|]. apply proper_temp_name.
  by eapply Forall_forall in Hnames.
Qed.


End TempDir.

Section TempDirRemoved.

Context (E : environment).


End TempDirRemoved.


Section CancelRunningDownload.

Context (E : environment).

Import PyFloat.

(** [handle_start_update] reaches its [try] statement with the schedule
    and the cancellation flag as they were. *)
Lemma prepare_flag msg sched s r c1 :
  exec E (prepare msg) (sched, s) = (r, c1) →
  c1.1 = sched ∧ cancel_event c1.2 = cancel_event s.
Proof.
  intros Hexec. unfold prepare in Hexec.
  rewrite exec_bind in Hexec.
  destruct (exec_resolve_target_dir E msg (sched, s)) as [t Ht].
  rewrite Ht in Hexec. simpl in Hexec.
  destruct (Fs.makedirs (cwd E) (files s) t) as [[err|[]] fs1];
    simpl in Hexec; [by injection Hexec as <- <-|].
  unfold mkdtemp in Hexec. simpl in Hexec.
  repeat case_match; simpl in Hexec; by injection Hexec as <- <-.
Qed.

(** The loop stores the chunks it reads while the flag is down, and raises
    [UpdateCanceled] at the first checkpoint after [cancel_event.set()]:
    what is left of the body is not read. *)
Lemma download_loop_canceled_after dest total kz chunks more later :
  Forall (λ ch, ch ≠ []) chunks →
  Fs.locate (cwd E) dest = Some kz → kz ≠ [] →
  ∀ d lp s data,
    0 ≤ d → cancel_event s = false →
    files s !! kz = Some (File data) →
    (0 < total → (d + len (concat chunks)) * 100 < total * 2 ^ 1000) →
    ∃ s' progress,
      exec E (download_loop dest total (map inr chunks ++ more) d lp)
        ((replicate (length chunks) false ++ true :: later)%list, s)
      = (Raised (UpdateCanceled canceled_text), (later, s')) ∧
      stdout s' = (stdout s ++ progress)%list ∧
      Forall is_progress progress ∧
      (length progress ≤ length chunks)%nat ∧
      cancel_event s' = true ∧
      files s' = <[kz := File (data ++ concat chunks)]> (files s).
Proof.
  intros Hchunks Hloc Hkz.
  induction Hchunks as [|ch chunks Hch _ IH];
    intros d lp s data Hd Hflag Hfile Hbound.
  - simpl.
    destruct (download_loop_canceled E dest total more d lp (true :: later) s
                ltac:(by left))
      as (s1 & Hrun & Hflag1 & Hout & _ & Hfiles & _).
    exists s1, []. split; [exact Hrun|]. rewrite app_nil_r.
    split; [done|]. split; [constructor|]. split; [done|]. split; [done|].
    simpl concat. by rewrite Hfiles, app_nil_r, insert_id.
  - simpl map. simpl app. simpl length. simpl replicate.
    rewrite exec_download_loop_cons. cbv zeta. simpl hd. simpl tail. cbv iota.
    rewrite Hflag.
    rewrite bool_decide_eq_false_2 by done.
    assert (Hwrite : Fs.write (cwd E) (files s) dest ch
                     = (inr tt, <[kz := File (data ++ ch)]> (files s))).
    { unfold Fs.write. rewrite Hloc. destruct kz; [done|]. simpl.
      by rewrite Hfile. }
    rewrite Hwrite. simpl fst. simpl snd. cbv iota.
    pose proof (len_pos ch Hch) as Hlen.
    pose proof (len_nonneg (concat chunks)) as Hrest.
    simpl concat in Hbound. rewrite len_app in Hbound.
    assert (Hnext : ∀ lp' s1 sent,
      cancel_event s1 = false →
      files s1 = <[kz := File (data ++ ch)]> (files s) →
      stdout s1 = (stdout s ++ sent)%list →
      Forall is_progress sent → (length sent ≤ 1)%nat →
      ∃ s' progress,
        exec E (download_loop dest total (map inr chunks ++ more) (d + len ch) lp')
          ((replicate (length chunks) false ++ true :: later)%list, s1)
        = (Raised (UpdateCanceled canceled_text), (later, s')) ∧
        stdout s' = (stdout s ++ progress)%list ∧
        Forall is_progress progress ∧
        (length progress ≤ S (length chunks))%nat ∧
        cancel_event s' = true ∧
        files s' = <[kz := File (data ++ concat (ch :: chunks))]> (files s)).
    { intros lp' s1 sent Hflag1 Hfiles1 Hout1 Hsent Hone.
      destruct (IH (d + len ch) lp' s1 (data ++ ch)%list)
        as (s' & progress & Hrun & Hout & Hall & Hcount & Hc & Hfs);
        [lia|done| |lia|].
      { rewrite Hfiles1. apply lookup_insert_eq. }
      exists s', (sent ++ progress)%list. split; [exact Hrun|].
      split; [by rewrite Hout, Hout1, <- app_assoc|].
      split; [by apply Forall_app|].
      split; [rewrite length_app; lia|]. split; [done|].
      rewrite Hfs, Hfiles1, insert_insert_eq. simpl concat.
      by rewrite app_assoc. }
    destruct (0 <? total) eqn:Htotal.
    + apply Z.ltb_lt in Htotal.
      destruct (PyFloatFacts.int_true_div_defined ((d + len ch) * 100) total)
        as [p Hp]; [lia|done|lia|].
      rewrite Hp. case_bool_decide.
      * apply (Hnext _ _ [download_event p]); simpl; try done.
        by repeat constructor.
      * apply (Hnext _ _ []); simpl; try done; [by rewrite app_nil_r|lia].
    + destruct (_ =? 0).
      * apply (Hnext _ _ [Progress "download" 0 "正在下载更新包..."]); simpl; try done.
        by repeat constructor.
      * apply (Hnext _ _ []); simpl; try done; [by rewrite app_nil_r|lia].
Qed.

(** C5.  [cancel_update] sets the flag and acknowledges with one log
    message in the same turn of the session loop, without touching the
    update thread.  An update whose download has stored some chunks when
    [cancel_update] runs (in the schedule, [cancel_event.set()] falls
    between the checkpoint after the last of these chunks and the next
    one) stops at that next checkpoint: [handle_start_update] reads nothing
    more of the body, however much is left, sends the [canceled] status
    once after its opening message and at most one progress message for
    each chunk stored, sends no [complete] and no [error] status, and
    returns normally.  (The target path is without [..], so that
    [os.makedirs] makes what the path string says.) *)
Theorem C5_cancel_update cancel msg url resp total chunks more later s target temp c1 :
  cancel !! "cmd" = Some "cancel_update" →
  msg !! "downloadUrl" = Some url → Py.truthy url = true →
  Forall (λ n, PosixPath.plain n = true) (tmp_names s) →
  parents_exist (files s) = true →
  urlopen E url = inr resp →
  declared_total (content_length resp) = Some total →
  body resp = (map inr chunks ++ more)%list →
  Forall (λ ch, ch ≠ []) chunks →
  (0 < total → len (concat chunks) * 100 < total * 2 ^ 1000) →
  cancel_event s = false →
  exec E (prepare msg) ((replicate (length chunks) false ++ true :: later)%list, s)
  = (Returned (target, temp), c1) →
  Fs.dotdot_free target = true →
  (∀ s0, ∃ s',
     run E (dispatch cancel) s0 = (Returned true, s') ∧
     cancel_event s' = true ∧
     stdout s' = (stdout s0 ++ [Log "已发送取消指令"])%list ∧
     threads s' = threads s0 ∧ update_thread s' = update_thread s0) ∧
  ∃ s3 progress,
    exec E (handle_start_update msg)
      ((replicate (length chunks) false ++ true :: later)%list, s)
    = (Returned tt, (later, s3)) ∧
    stdout s3
    = (stdout s ++ Log "开始下载更新包..." :: progress
       ++ [Canceled canceled_text])%list ∧
    Forall is_progress progress ∧
    (length progress ≤ length chunks)%nat ∧
    cancel_event s3 = true.
Proof.
  intros Hcmd Hurl Htruthy Hnames Hfs Hopen Htotal Hbody Hchunks Hbound Hflag Hprep _.
  split.
  { intros s0. rewrite (run_cancel_update E cancel s0 Hcmd).
    eexists. split; [reflexivity|]. done. }
  destruct (prepare_inv _ _ _ _ _ _ _ Hprep Hnames)
    as (kt & fs1 & Hmk & Hkt & Hne & Hfresh & Hfiles1).
  destruct (prepare_keeps _ _ _ _ _ _ _ Hprep Hnames)
    as (_ & _ & _ & _ & _ & Hout1).
  destruct (prepare_flag _ _ _ _ _ Hprep) as [Hsched1 Hflag1].
  destruct c1 as [sched1 s1]. simpl in *. subst sched1.
  pose proof (makedirs_closed (cwd E) (files s) target (parents_exist_closed _ Hfs))
    as Hclosed.
  rewrite Hmk in Hclosed. simpl in Hclosed.
  set (zip := PosixPath.join temp zip_name).
  set (kz := (kt ++ [zip_name])%list).
  assert (Hkz : Fs.locate (cwd E) zip = Some kz)
    by (apply locate_join; [done|apply proper_zip_name]).
  assert (Hzne : kz ≠ []) by (subst kz; by destruct kt).
  assert (Hopened : Fs.open_wb (cwd E) (files s1) zip
                    = (inr tt, <[kz := File []]> (files s1))).
  { unfold Fs.open_wb. rewrite Hkz.
    assert (Hparent : Fs.node_at (files s1) (removelast kz) = Some Dir).
    { subst kz. rewrite removelast_last. destruct kt as [|a kt]; [done|]. simpl.
      rewrite Hfiles1. apply lookup_insert_eq. }
    assert (Hnone : Fs.node_at (files s1) kz = None).
    { destruct kz as [|a kz'] eqn:Hk; [done|]. simpl. rewrite <- Hk.
      rewrite Hfiles1, lookup_insert_ne.
      - destruct (fs1 !! kz) as [n|] eqn:Hn; [|done].
        destruct (closed_ancestors _ _ _ _ Hclosed Hne Hn). congruence.
      - subst kz. intros Heq. apply (f_equal length) in Heq.
        rewrite length_app in Heq. simpl in Heq. lia. }
    by rewrite Hparent, Hnone. }
  assert (Hlen : content_length_int (content_length resp) = Ret total).
  { destruct (content_length resp); simpl in Htotal; simplify_eq; reflexivity. }
  destruct (download_loop_canceled_after zip total kz chunks more later
              Hchunks Hkz Hzne 0 (-1)
              (set_files (<[kz := File []]> (files s1)) s1) [])
    as (s2 & progress & Hrun & Hout & Hall & Hcount & Hc & _);
    [lia|simpl; congruence| |intros H; specialize (Hbound H); lia|].
  { simpl. apply lookup_insert_eq. }
  assert (Hdl : exec E (download_with_progress url zip)
                  ((replicate (length chunks) false ++ true :: later)%list, s1)
                = (Raised (UpdateCanceled canceled_text), (later, s2))).
  { unfold download_with_progress. simpl. rewrite Hopen. simpl.
    rewrite Hopened. simpl. rewrite Hlen. simpl. rewrite Hbody. exact Hrun. }
  unfold handle_start_update. rewrite Hurl, Htruthy, exec_bind, Hprep.
  fold zip. rewrite exec_guarded. unfold update_steps. rewrite exec_bind, Hdl.
  eexists _, progress. split; [reflexivity|]. simpl.
  split; [|split; [done|split; [done|done]]].
  rewrite Hout. simpl. rewrite Hout1, <- !app_assoc. reflexivity.
Qed.

End CancelRunningDownload.

Lemma C5_cancel_update_witness :
  let sched := [false; true] in
  (∀ s0, ∃ s',
     run Demo.env (dispatch {[ "cmd" := "cancel_update" ]}) s0 = (Returned true, s') ∧
     cancel_event s' = true ∧
     stdout s' = (stdout s0 ++ [Log "已发送取消指令"])%list ∧
     threads s' = threads s0 ∧ update_thread s' = update_thread s0) ∧
  ∃ s3 progress,
    exec Demo.env (handle_start_update Demo.start_msg) (sched, Demo.start)
    = (Returned tt, ([], s3)) ∧
    stdout s3
    = (stdout Demo.start ++ Log "开始下载更新包..." :: progress
       ++ [Canceled canceled_text])%list ∧
    Forall is_progress progress ∧
    (length progress ≤ 1)%nat ∧
    cancel_event s3 = true.
Proof.
  intros sched.
  set (c1 := (exec Demo.env (prepare Demo.start_msg) (sched, Demo.start)).2).
  apply (C5_cancel_update Demo.env {[ "cmd" := "cancel_update" ]} Demo.start_msg
           "http://x/good.zip" Demo.good_response 3
           [[Byte.x50; Byte.x4b]] [inr [Byte.x05]] [] Demo.start
           "/opt/CJT-Helper" "/tmp/cjt_helper_update_k3x9q2ab" c1).
  - apply lookup_singleton_eq.
  - vm_compute. reflexivity.
  - reflexivity.
  - by repeat constructor.
  - vm_compute. reflexivity.
  - reflexivity.
  - reflexivity.
  - reflexivity.
  - by repeat constructor.
  - intros _. vm_compute. reflexivity.
  - reflexivity.
  - vm_compute. reflexivity.
  - vm_compute. reflexivity.
Defined.

Section PercentRange.

Context (E : environment).

Import PyFloat.

Lemma floor_log2_quot_hundred b : 0 < b → floor_log2_quot (b * 100) b = 6.
Proof.
  intros Hb.
  destruct (PyFloatFacts.floor_log2_quot_spec (b * 100) b ltac:(lia) Hb)
    as [Hlow Hup].
  assert (H6 : ge_pow2 (b * 100) b 6).
  { unfold ge_pow2. rewrite Z.max_l, Z.max_r by lia.
    change (2 ^ 6) with 64. change (2 ^ 0) with 1. lia. }
  assert (H7 : ¬ ge_pow2 (b * 100) b 7).
  { unfold ge_pow2. rewrite Z.max_l, Z.max_r by lia.
    change (2 ^ 7) with 128. change (2 ^ 0) with 1. lia. }
  destruct (Z.lt_trichotomy (floor_log2_quot (b * 100) b) 6) as [Hlt|[Heq|Hgt]];
    [|done|].
  - destruct Hup.
    apply (PyFloatFacts.ge_pow2_anti (b * 100) b 6); [lia|done|lia|done].
  - destruct H7.
    apply (PyFloatFacts.ge_pow2_anti (b * 100) b (floor_log2_quot (b * 100) b));
      [lia|done|lia|done].
Qed.

(** [int(b * 100 / b)] is 100, however large [b]. *)
Lemma int_true_div_hundred b : 0 < b → int_true_div (b * 100) b = Some 100.
Proof.
  intros Hb. unfold int_true_div.
  rewrite PyFloatFacts.true_div_unfold by lia.
  assert (He : ulp_exp (b * 100) b = - 46).
  { unfold ulp_exp. rewrite floor_log2_quot_hundred by done. lia. }
  assert (Hm : significand (b * 100) b = 100 * 2 ^ 46).
  { unfold significand, num, den. rewrite He.
    rewrite Z.max_l, Z.max_r by lia. change (2 ^ 0) with 1.
    change (- - 46) with 46. rewrite Z.mul_1_r.
    unfold round_half_even.
    replace (b * 100 * 2 ^ 46) with (100 * 2 ^ 46 * b) by lia.
    rewrite Z.mod_mul, Z.div_mul by lia.
    by rewrite (proj2 (Z.ltb_lt (2 * 0) b)) by lia. }
  rewrite He, Hm. unfold overflows. simpl orb. cbv iota.
  reflexivity.
Qed.

Lemma percent_in_range x total p :
  0 ≤ x ≤ total → 0 < total →
  int_true_div (x * 100) total = Some p → 0 ≤ p ≤ 100.
Proof.
  intros Hx Htotal Hp. split.
  - apply (PyFloatFacts.int_true_div_nonneg (x * 100) total); [lia|done|done].
  - apply (PyFloatFacts.int_true_div_mono (x * 100) (total * 100) total p 100);
      [lia|lia|done|done|by apply int_true_div_hundred].
Qed.

(** X17.  The percentages of the extraction never leave the range from 0
    to 100, whatever the number of members, and an extraction that runs to
    its end has reported exactly 100 last. *)
Theorem extract_percentages_end_at_hundred zip target members c :
  zip_members E c.2 zip = inr members →
  members ≠ [] →
  ∃ ps,
    stdout (exec E (extract_with_progress zip target) c).2.2
    = (stdout c.2 ++ map extract_event ps)%list ∧
    Forall (λ p, 0 ≤ p ≤ 100) ps ∧
    ((exec E (extract_with_progress zip target) c).1 = Returned tt →
     last ps = Some 100).
Proof.
  intros Hzip Hne.
  rewrite (exec_extract_with_progress E zip target members c Hzip).
  assert (Hlen : 0 < len members) by (unfold len; destruct members; [done|simpl; lia]).
  rewrite (proj2 (Z.eqb_neq _ 0)) by lia.
  destruct (extract_loop_progress E target (len members) members 1 c)
    as (ps & Hout & Hall & Hle & Hret).
  exists ps. split; [exact Hout|]. split.
  - apply Forall_forall. intros p Hp.
    apply list_elem_of_lookup in Hp as [i Hi].
    destruct (Forall2_lookup_r _ _ _ _ _ Hall Hi) as (x & Hx & [Hrange Hdiv]).
    apply lookup_seqZ in Hx as [-> Hi'].
    apply (percent_in_range (1 + Z.of_nat i) (len members)); [|done|done].
    unfold len. lia.
  - intros Hr. specialize (Hret Hr).
    destruct ps as [|p0 ps' _] using rev_ind.
    { destruct members; [done|simpl in Hret; lia]. }
    rewrite last_snoc. f_equal.
    assert (Hi : (ps' ++ [p0])%list !! length ps' = Some p0).
    { by rewrite lookup_app_r, Nat.sub_diag by lia. }
    destruct (Forall2_lookup_r _ _ _ _ _ Hall Hi) as (x & Hx & [_ Hdiv]).
    apply lookup_seqZ in Hx as [-> _].
    rewrite length_app in Hret. simpl in Hret.
    replace (1 + Z.of_nat (length ps')) with (len members) in Hdiv
      by (unfold len; lia).
    rewrite int_true_div_hundred in Hdiv by done. congruence.
Qed.

(** X18.  As long as the server sends no more bytes than the size it
    declared, every percentage of the download lies between 0 and 100. *)
Theorem download_percentages_in_range url dest resp total c :
  urlopen E url = inr resp →
  content_length resp = Numeric total →
  0 < total →
  received (body resp) ≤ total →
  ∃ ps,
    stdout (exec E (download_with_progress url dest) c).2.2
    = (stdout c.2 ++ map download_event ps)%list ∧
    Forall (λ p, 0 ≤ p ≤ 100) ps.
Proof.
  intros Hopen Hlen Htotal Hsize. destruct c as [sched s].
  unfold download_with_progress. simpl. rewrite Hopen. simpl.
  destruct (Fs.open_wb (cwd E) (files s) dest) as [[err|[]] fs'] eqn:Hw; simpl.
  { exists []. simpl. rewrite app_nil_r. by split. }
  rewrite Hlen. simpl.
  destruct (download_loop_progress E dest total (body resp) Htotal 0 (-1)
              (sched, set_files fs' s) ltac:(lia) ltac:(by left))
    as (ps & Hout & Hall & _).
  exists (map snd ps). split.
  - etrans; [exact Hout|]. by rewrite map_map.
  - apply Forall_map. eapply Forall_impl; [exact Hall|].
    intros [x p] [[n Hn] Hp]. simpl in *.
    pose proof (received_nonneg (take n (body resp))).
    pose proof (received_take_le (body resp) n).
    apply (percent_in_range x total); [lia|done|done].
Qed.

End PercentRange.

Ltac phase_step :=
  first
    [ apply uses_ret
    | apply uses_raise
    | apply uses_percent_of
    | apply uses_call; first [exact I | reflexivity]
    | apply uses_call_r; exact I
    | apply uses_bind; [|intro]
    | apply uses_vis; [first [exact I | reflexivity]|intro]
    | apply uses_try_except; [|intro]
    | apply uses_try_finally
    | assumption ].

Ltac phase_auto := repeat (phase_step || uses_case).

Section Phases.

Context (E : environment).

Lemma phase_sent_exec phase {A} (p : prog A) c :
  uses (sends_phase phase) p → phase_sent phase c.2 (exec E p c).2.2.
Proof.
  intros Hp. apply (exec_uses E (sends_phase phase) (phase_sent phase)); try done.
  - intros s. exists []. by rewrite app_nil_r.
  - intros s1 s2 s3 (out1 & Ho1 & Ha1) (out2 & Ho2 & Ha2).
    exists (out1 ++ out2)%list. split; [|by apply Forall_app].
    by rewrite Ho2, Ho1, app_assoc.
  - intros X e s He.
    destruct e; simpl in *; unfold lift_fs, mkdtemp; simpl;
      try (exists []; by rewrite app_nil_r).
    + eexists [_]. split; [reflexivity|]. by constructor.
    + repeat case_match; exists []; by rewrite app_nil_r.
    + repeat case_match; exists []; by rewrite app_nil_r.
  - intros s. exists []. by rewrite app_nil_r.
Qed.

Lemma silent_exec {A} (p : prog A) c :
  uses silent p → stdout (exec E p c).2.2 = stdout c.2.
Proof.
  intros Hp.
  apply (exec_uses E silent (λ s s', stdout s' = stdout s)); try done.
  - intros s1 s2 s3 H1 H2. congruence.
  - intros X e s He.
    destruct e; simpl in *; unfold lift_fs, mkdtemp; simpl; try done.
    all: by repeat case_match.
Qed.

Lemma phase_download_loop dest total chunks :
  ∀ d lp, uses (sends_phase "download") (download_loop dest total chunks d lp).
Proof.
  induction chunks as [|ch rest IH]; intros d lp.
  - constructor; [done|]. intros []; constructor.
  - constructor; [done|]. intros []; [constructor|].
    destruct ch as [err|chunk]; [constructor|].
    phase_auto; apply IH.
Qed.

Lemma phase_download url dest :
  uses (sends_phase "download") (download_with_progress url dest).
Proof.
  unfold download_with_progress, content_length_int. phase_auto.
  apply phase_download_loop.
Qed.

Lemma phase_extract_loop target total members :
  ∀ index, uses (sends_phase "extract") (extract_loop target total members index).
Proof.
  induction members as [|m rest IH]; intros index; [constructor|].
  constructor; [done|]. intros []; [constructor|].
  phase_auto. apply IH.
Qed.

Lemma phase_extract zip target :
  uses (sends_phase "extract") (extract_with_progress zip target).
Proof. unfold extract_with_progress. phase_auto. apply phase_extract_loop. Qed.

Lemma silent_remove_items target names : uses silent (remove_items target names).
Proof.
  induction names as [|name rest IH]; [constructor|].
  change (remove_items target (name :: rest))
    with (remove_item (PosixPath.join target name);; remove_items target rest).
  unfold remove_item. phase_auto.
Qed.

Lemma silent_ensure_clean target : uses silent (ensure_clean_target_dir target).
Proof. unfold ensure_clean_target_dir. phase_auto. apply silent_remove_items. Qed.

(** X19.  The messages of an update that succeeds come in the order of its
    phases: progress messages of the download, the message announcing the
    extraction, progress messages of the extraction, and the [complete]
    status carrying the target directory; cleaning the target directory
    sends nothing. *)
Theorem successful_update_message_order url zip target c c' :
  exec E (update_steps url zip target) c = (Returned tt, c') →
  ∃ downloading extracting,
    stdout c'.2
    = (stdout c.2 ++ downloading ++ Log "下载完成，开始解压..." :: extracting
       ++ [Complete target])%list ∧
    Forall (in_phase "download") downloading ∧
    Forall (in_phase "extract") extracting.
Proof.
  unfold update_steps, after_download. intros Hrun.
  rewrite exec_bind in Hrun.
  pose proof (phase_sent_exec "download" _ c (phase_download url zip))
    as (downloading & Hd & Hdall).
  destruct (exec E (download_with_progress url zip) c) as [[[]|e] c1];
    [|discriminate].
  rewrite exec_bind in Hrun.
  pose proof (silent_exec _ c1 (silent_ensure_clean target)) as Hclean.
  destruct (exec E (ensure_clean_target_dir target) c1) as [[[]|e] c2];
    [|discriminate].
  rewrite exec_bind, exec_log, exec_bind, exec_send, exec_bind in Hrun.
  match type of Hrun with
  | context [exec E (extract_with_progress zip target) ?c3] =>
      pose proof (phase_sent_exec "extract" _ c3 (phase_extract zip target))
        as (extracting & Hx & Hxall);
      destruct (exec E (extract_with_progress zip target) c3) as [[[]|e] c4];
        [|discriminate]
  end.
  rewrite exec_bind, exec_log, exec_send in Hrun.
  injection Hrun as <-. simpl in *.
  exists downloading, extracting. split; [|done].
  rewrite Hx, Hclean, Hd, <- !app_assoc. reflexivity.
Qed.

Lemma keeps_download_loop dest total chunks :
  ∀ d lp, uses keeps_flag_and_input (download_loop dest total chunks d lp).
Proof.
  induction chunks as [|ch rest IH]; intros d lp.
  - constructor; [done|]. intros []; constructor.
  - constructor; [done|]. intros []; [constructor|].
    destruct ch as [err|chunk]; [constructor|].
    phase_auto; apply IH.
Qed.

Lemma keeps_extract_loop target total members :
  ∀ index, uses keeps_flag_and_input (extract_loop target total members index).
Proof.
  induction members as [|m rest IH]; intros index; [constructor|].
  constructor; [done|]. intros []; [constructor|].
  phase_auto. apply IH.
Qed.

Lemma keeps_remove_items target names :
  uses keeps_flag_and_input (remove_items target names).
Proof.
  induction names as [|name rest IH]; [constructor|].
  change (remove_items target (name :: rest))
    with (remove_item (PosixPath.join target name);; remove_items target rest).
  unfold remove_item. phase_auto.
Qed.

Lemma keeps_run_update msg : uses keeps_flag_and_input (run_update msg).
Proof.
  unfold run_update. apply uses_try_finally; [|phase_auto].
  unfold handle_start_update.
  destruct (msg !! "downloadUrl") as [url|]; [|phase_auto].
  destruct (Py.truthy url); [|phase_auto].
  apply uses_bind; [unfold prepare, resolve_target_dir; phase_auto|].
  intros [target temp]. unfold guarded.
  apply uses_try_finally; [|phase_auto].
  apply uses_try_except; [|intros []; unfold report_failure; phase_auto].
  unfold update_steps, after_download.
  apply uses_bind.
  { unfold download_with_progress, content_length_int. phase_auto.
    apply keeps_download_loop. }
  intros _. apply uses_bind.
  { unfold ensure_clean_target_dir. phase_auto. apply keeps_remove_items. }
  intros _. apply uses_bind; [phase_auto|]. intros _.
  apply uses_bind; [phase_auto|]. intros _.
  apply uses_bind; [|intros _; phase_auto].
  unfold extract_with_progress. phase_auto. apply keeps_extract_loop.
Qed.

(** A relation between states that every [ok] primitive respects holds
    between the state a program starts in and the one it ends in, when the
    other thread does not interfere. *)
Lemma run_uses {A} (ok : ∀ X, eff X → Prop) (R : sys → sys → Prop) (p : prog A) :
  (∀ s, R s s) →
  (∀ s1 s2 s3, R s1 s2 → R s2 s3 → R s1 s3) →
  (∀ X (e : eff X) s, ok X e → R s (perform E e s).2) →
  uses ok p → ∀ s, R s (run E p s).2.
Proof.
  intros Hrefl Htrans Hperform Hp.
  induction Hp as [a|e|X e k Hok Hk IH]; intros s; unfold run; simpl; try done.
  rewrite interfere_nil. simpl.
  eapply Htrans; [by apply Hperform|]. apply IH.
Qed.

(** X20.  The update thread reads the cancellation flag and never writes
    it, and it never reads the input: whatever the update does and however
    it ends, on its own it leaves the flag and the unread input as they
    were.  A cancellation that was received stays in force until the next
    [start_update] is accepted. *)
Theorem update_keeps_flag_and_input msg s :
  cancel_event (run E (run_update msg) s).2 = cancel_event s ∧
  stdin (run E (run_update msg) s).2 = stdin s.
Proof.
  apply (run_uses keeps_flag_and_input same_flag_and_input (run_update msg));
    try done.
  - intros s1 s2 s3 [H1 H2] [H3 H4]. split; congruence.
  - intros X e s0 He.
    destruct e; simpl in *; unfold lift_fs, mkdtemp; simpl; try done.
    all: by repeat case_match.
  - apply keeps_run_update.
Qed.

End Phases.

Section Edges.

Context (E : environment).


(** X22.  However an update ends, [run_update] leaves the slot empty, so
    that the next [start_update] is accepted: the session loop sends
    nothing, lowers the flag, and starts a thread for it. *)
Theorem finished_update_frees_slot msg next c :
  next !! "cmd" = Some "start_update" →
  let s := (exec E (run_update msg) c).2.2 in
  update_thread s = None ∧
  ∃ s',
    run E (dispatch next) s = (Returned true, s') ∧
    stdout s' = stdout s ∧
    cancel_event s' = false ∧
    update_thread s' = Some (next_tid s) ∧
    threads s' !! next_tid s = Some (Running (run_update next)).
Proof.
  intros Hcmd s.
  assert (Hslot : update_thread s = None).
  { subst s. unfold run_update. rewrite exec_try_finally.
    destruct (exec E (handle_start_update msg) c) as [[[]|e] [sched1 s1]];
      reflexivity. }
  split; [exact Hslot|].
  assert (Hidle : ∀ t code, update_thread s = Some t →
                            threads s !! t ≠ Some (Running code))
    by (intros t code; by rewrite Hslot).
  rewrite (run_start_update_accepted E next s Hcmd Hidle).
  eexists. split; [reflexivity|]. simpl.
  split; [done|]. split; [done|]. split; [done|]. apply lookup_insert_eq.
Qed.

End Edges.

(** ** Examples *)

Lemma read_message_reads_frame_witness :
  let s := set_stdin [Byte.x02; Byte.x00; Byte.x00; Byte.x00; Byte.x7b; Byte.x7d;
                      Byte.x04] Demo.start in
  run Demo.env read_message s = (Returned (JObject ∅), set_stdin [Byte.x04] s).
Proof.
  intros s.
  apply (read_message_reads_frame Demo.env [Byte.x7b; Byte.x7d]
           [Byte.x02; Byte.x00; Byte.x00; Byte.x00; Byte.x7b; Byte.x7d]
           [Byte.x04] s).
  - reflexivity.
  - discriminate.
  - reflexivity.
Defined.

Lemma truncated_prefix_crashes_witness :
  let s := set_stdin [Byte.x02; Byte.x00] Demo.start in
  run Demo.env read_message s
  = (Raised (Error "struct.error" "unpack requires a buffer of 4 bytes"),
     set_stdin [] s) ∧
  step Demo.env (s, InLoop)
    (set_stdin [] s,
     Crashed (Error "struct.error" "unpack requires a buffer of 4 bytes")).
Proof.
  intros s. apply (truncated_prefix_crashes Demo.env s). simpl. lia.
Defined.

Lemma non_object_message_ends_session_witness :
  let s := set_stdin [Byte.x04; Byte.x00; Byte.x00; Byte.x00;
                      Byte.x6e; Byte.x75; Byte.x6c; Byte.x6c; Byte.x7b] Demo.start in
  step Demo.env (s, InLoop) (set_stdin [Byte.x7b] s, Exited).
Proof.
  intros s.
  apply (non_object_message_ends_session Demo.env
           [Byte.x6e; Byte.x75; Byte.x6c; Byte.x6c]
           [Byte.x04; Byte.x00; Byte.x00; Byte.x00;
            Byte.x6e; Byte.x75; Byte.x6c; Byte.x6c]
           [Byte.x7b] s JNull).
  - reflexivity.
  - discriminate.
  - reflexivity.
  - reflexivity.
Defined.

Lemma start_update_without_url_witness :
  exec Demo.env (run_update Demo.no_url_msg) ([], Demo.start)
  = (Returned tt,
     ([], set_update_thread None (set_stdout [Failed "缺少下载地址"] Demo.start))).
Proof.
  apply (start_update_without_url Demo.env Demo.no_url_msg ([], Demo.start)).
  vm_compute. reflexivity.
Defined.

Lemma failed_preparation_is_silent_witness :
  ∃ c1,
    exec Demo.env (run_update Demo.bad_target_msg) ([], Demo.start)
    = (Raised (Error "FileExistsError" "File exists"),
       (c1.1, set_update_thread None c1.2)) ∧
    no_end_sent Demo.start (set_update_thread None c1.2).
Proof.
  set (c1 := (exec Demo.env (prepare Demo.bad_target_msg) ([], Demo.start)).2).
  exists c1.
  apply (failed_preparation_is_silent Demo.env Demo.bad_target_msg
           "http://x/good.zip" ([], Demo.start)
           (Error "FileExistsError" "File exists") c1).
  - vm_compute. reflexivity.
  - reflexivity.
  - vm_compute. reflexivity.
Defined.


Lemma download_stores_received_bytes_witness :
  ∃ c',
    exec Demo.env (download_with_progress "http://x/good.zip" "/tmp/dl.zip")
      ([], Demo.start)
    = (Returned tt, c') ∧
    files c'.2
    = <[["tmp"; "dl.zip"] := File [Byte.x50; Byte.x4b; Byte.x05]]> (files Demo.start) ∧
    cancel_event c'.2 = false.
Proof.
  apply (download_stores_received_bytes Demo.env "http://x/good.zip" "/tmp/dl.zip"
           Demo.good_response 3 [[Byte.x50; Byte.x4b]; [Byte.x05]] []
           ["tmp"; "dl.zip"] [] Demo.start).
  - reflexivity.
  - reflexivity.
  - reflexivity.
  - by repeat constructor.
  - exact I.
  - intros _. change (len (concat [[Byte.x50; Byte.x4b]; [Byte.x05]])) with 3.
    assert (2 ^ 7 ≤ 2 ^ 1000) by (apply Z.pow_le_mono_r; lia).
    change (2 ^ 7) with 128 in *. lia.
  - constructor.
  - reflexivity.
  - vm_compute. reflexivity.
  - vm_compute. reflexivity.
Defined.

Lemma unsized_download_progress_witness :
  ∃ n : nat,
    stdout (exec Demo.unsized_env (download_with_progress "http://x/a.zip" "/tmp/dl.zip")
              ([], Demo.start)).2.2
    = (stdout Demo.start ++ repeat unsized_event n)%list ∧
    Z.of_nat n ≤ received (body Demo.unsized_response) / 1310720.
Proof.
  apply (unsized_download_progress Demo.unsized_env "http://x/a.zip" "/tmp/dl.zip"
           Demo.unsized_response 0 ([], Demo.start)).
  - reflexivity.
  - reflexivity.
  - lia.
Defined.

Lemma extraction_canceled_between_members_witness :
  ∃ s',
    exec Demo.zip_env
      (extract_loop "/opt/CJT-Helper" 2 [ZipInfo ["d"] true []] 1)
      ([false], Demo.start) = (Returned tt, ([], s')) ∧
    exec Demo.zip_env
      (extract_loop "/opt/CJT-Helper" 2
         [ZipInfo ["d"] true []; ZipInfo ["a.txt"] false [Byte.x61]] 1)
      ([false; true], Demo.start)
    = (Raised (UpdateCanceled canceled_text), ([], set_cancel_event true s')).
Proof.
  set (s' := (exec Demo.zip_env
                (extract_loop "/opt/CJT-Helper" 2 [ZipInfo ["d"] true []] 1)
                ([false], Demo.start)).2.2).
  assert (Hbefore :
    exec Demo.zip_env
      (extract_loop "/opt/CJT-Helper" 2 [ZipInfo ["d"] true []] 1)
      ([false], Demo.start)
    = (Returned tt, ([], s'))) by (vm_compute; reflexivity).
  exists s'. split; [exact Hbefore|].
  apply (extraction_canceled_between_members Demo.zip_env "/opt/CJT-Helper" 2
           [ZipInfo ["d"] true []] (ZipInfo ["a.txt"] false [Byte.x61]) []
           1 Demo.start s' [] eq_refl Hbefore).
Defined.

Lemma default_target_passes_guard_witness :
  exec Demo.env (resolve_target_dir Demo.default_target_msg) ([], Demo.start)
  = (Returned "/home/u/.cjt-helper/auto-update", ([], Demo.start)) ∧
  PosixPath.commonpath "/home/u/.cjt-helper/auto-update" (safe_root Demo.env)
  = Some (safe_root Demo.env) ∧
  guard_passes (safe_root Demo.env) "/home/u/.cjt-helper/auto-update".
Proof.
  apply (default_target_passes_guard Demo.env Demo.default_target_msg ["home"; "u"]
           ([], Demo.start)).
  - vm_compute. reflexivity.
  - reflexivity.
  - by repeat constructor.
Defined.


Lemma extract_percentages_end_at_hundred_witness :
  let c : conf := ([], Demo.start) in
  ∃ ps,
    stdout (exec Demo.zip_env (extract_with_progress "/tmp/old.zip" "/opt/CJT-Helper")
              c).2.2
    = (stdout c.2 ++ map extract_event ps)%list ∧
    Forall (λ p, 0 ≤ p ≤ 100) ps ∧
    ((exec Demo.zip_env (extract_with_progress "/tmp/old.zip" "/opt/CJT-Helper") c).1
     = Returned tt → last ps = Some 100).
Proof.
  intros c.
  apply (extract_percentages_end_at_hundred Demo.zip_env "/tmp/old.zip"
           "/opt/CJT-Helper" Demo.two_members c).
  - vm_compute. reflexivity.
  - discriminate.
Defined.

Lemma download_percentages_in_range_witness :
  ∃ ps,
    stdout (exec Demo.env (download_with_progress "http://x/good.zip" "/tmp/dl.zip")
              ([], Demo.start)).2.2
    = (stdout Demo.start ++ map download_event ps)%list ∧
    Forall (λ p, 0 ≤ p ≤ 100) ps.
Proof.
  apply (download_percentages_in_range Demo.env "http://x/good.zip" "/tmp/dl.zip"
           Demo.good_response 3 ([], Demo.start)).
  - reflexivity.
  - reflexivity.
  - lia.
  - vm_compute. discriminate.
Defined.

Lemma successful_update_message_order_witness :
  ∃ c' downloading extracting,
    exec Demo.env (update_steps "http://x/good.zip" "/tmp/dl.zip" "/opt/CJT-Helper")
      ([], Demo.start) = (Returned tt, c') ∧
    stdout c'.2
    = (stdout Demo.start ++ downloading ++ Log "下载完成，开始解压..." :: extracting
       ++ [Complete "/opt/CJT-Helper"])%list ∧
    Forall (in_phase "download") downloading ∧
    Forall (in_phase "extract") extracting.
Proof.
  set (r := exec Demo.env
              (update_steps "http://x/good.zip" "/tmp/dl.zip" "/opt/CJT-Helper")
              ([], Demo.start)).
  assert (Hrun : r = (Returned tt, r.2)) by (vm_compute; reflexivity).
  exists r.2. destruct
    (successful_update_message_order Demo.env "http://x/good.zip" "/tmp/dl.zip"
       "/opt/CJT-Helper" ([], Demo.start) r.2 Hrun)
    as (downloading & extracting & Hout).
  exists downloading, extracting. split; [exact Hrun|exact Hout].
Defined.


Lemma finished_update_frees_slot_witness :
  let s := (exec Demo.env (run_update Demo.no_url_msg) ([], Demo.start)).2.2 in
  update_thread s = None ∧
  ∃ s',
    run Demo.env (dispatch Demo.start_msg) s = (Returned true, s') ∧
    stdout s' = stdout s ∧
    cancel_event s' = false ∧
    update_thread s' = Some (next_tid s) ∧
    threads s' !! next_tid s = Some (Running (run_update Demo.start_msg)).
Proof.
  apply (finished_update_frees_slot Demo.env Demo.no_url_msg Demo.start_msg
           ([], Demo.start)).
  vm_compute. reflexivity.
Defined.
